(** * ccusage-go: the caching and incremental-discovery engine

    A shallow embedding of the latest [main.go] (cache format version 2):
    the per-file parser, the three-phase reconciliation with its merge rule,
    the persisted snapshot codec, the save procedure and file discovery,
    together with the properties of these that the specification states. *)

From Stdlib Require Import ZArith String Ascii List Lia.
From Stdlib.Strings Require Import Byte.
From stdpp Require Import gmap strings list fin_maps sorting.

Local Open Scope Z_scope.
Local Open Scope string_scope.
Local Open Scope list_scope.

#[local] Set Warnings "-clear-no-such-hyp".

(** ** Machine integers

    Go's [int] is a 64-bit two's complement integer on the supported
    platforms; [+] wraps around silently. *)

Definition int_wrap (z : Z) : Z := (z + 2 ^ 63) mod 2 ^ 64 - 2 ^ 63.

Definition int_add (a b : Z) : Z := int_wrap (a + b).

Definition int_range (z : Z) : Prop := - 2 ^ 63 <= z < 2 ^ 63.

(** ** Data model *)

(** [LogEntry]: what [json.Unmarshal] fills from one line.  The nested
    anonymous structs [Message] and [Message.Usage] are flattened. *)
Record LogEntry := mkLogEntry {
  Timestamp : string;
  RequestID : string;
  MessageID : string;
  MessageModel : string;
  UsageInputTokens : Z;
  UsageOutputTokens : Z;
  UsageCacheCreationTokens : Z;
  UsageCacheReadTokens : Z;
}.

(** [EntryData]: one usage record, identified by its dedup key. *)
Record EntryData := mkEntryData {
  Key : string;
  Date : string;
  Model : string;
  InputTokens : Z;
  OutputTokens : Z;
  CacheCreationTokens : Z;
  CacheReadTokens : Z;
}.

#[global] Instance EntryData_eq_dec : EqDecision EntryData.
Proof. solve_decision. Defined.

Record FileStats := mkFileStats {
  LinesRead : Z;
  LinesParsed : Z;
  EntriesNew : Z;
}.

Record FileCacheEntry := mkFileCacheEntry {
  ModTime : Z;
  Size : Z;
  Entries : list EntryData;
}.

#[global] Instance FileCacheEntry_eq_dec : EqDecision FileCacheEntry.
Proof. solve_decision. Defined.

Definition CacheVersion : Z := 2.

(** [LastFullWalk] is a wall-clock instant, kept as Unix nanoseconds. *)
Record CacheFile := mkCacheFile {
  Version : Z;
  Timezone : string;
  Files : gmap string FileCacheEntry;
  Dirs : gmap string Z;
  LastFullWalk : Z;
}.

Record cacheStats := mkCacheStats {
  hits : Z;
  misses : Z;
  totalLines : Z;
  totalNew : Z;
  conflicts : Z;
}.

Definition noFileStats : FileStats := mkFileStats 0 0 0.
Definition noCacheStats : cacheStats := mkCacheStats 0 0 0 0 0.

(** ** The host: the file tree, file metadata and contents, clock, map order *)

(** What [filepath.WalkDir] finds at a path: something that is not a
    directory, or a directory with the outcome of [d.Info()] (its
    modification time in Unix nanoseconds, [None] on error) and the entries
    [os.ReadDir] returns for it, by name. *)
#[local] Unset Elimination Schemes.
Inductive Node :=
| NFile
| NDir (info : option Z) (children : list (string * Node)).
#[local] Set Elimination Schemes.

(** Everything the engine asks of the operating system and of the Go
    runtime.  [os_Stat] gives modification time (Unix nanoseconds) and size.
    A file's content is given as the sequence of lines the scanner yields
    (it stops at the end of the file, or at a line that does not fit its
    10 MB buffer), each line by what [json.Unmarshal] makes of it: [None]
    when it returns an error, the filled [LogEntry] otherwise.  [local_date] is
    [time.Parse(time.RFC3339, ts)] followed by
    [t.Local().Format("2006-01-02")], [None] when parsing fails.
    [range_entries] is the order in which [for _, e := range entries] visits
    a map: unspecified by the language, some enumeration of the values.
    [fs_tree] is the tree [filepath.WalkDir] traverses from a root, [None]
    when the root cannot be examined.  [now_check] and [now_stamp] are the
    two readings of the clock in [findJSONLFiles]; [local_zone] is
    [getLocalTimezone()]. *)
Record Host := mkHost {
  os_Stat : string -> option (Z * Z);
  os_Open : string -> option (list (option LogEntry));
  local_date : string -> option string;
  range_entries : gmap string EntryData -> list EntryData;
  range_entries_perm : forall m, range_entries m ≡ₚ (map_to_list m).*2;
  fs_tree : string -> option Node;
  now_check : Z;
  now_stamp : Z;
  local_zone : string;
}.

(** ** Per-file parser *)

(** The body of the scan loop up to the dedup check: the candidate record of
    a decoded line, if the line passes every guard. *)
Definition lineRecord (h : Host) (entry : LogEntry) : option EntryData :=
  if String.eqb (Timestamp entry) ""
     || ((UsageInputTokens entry =? 0)%Z && (UsageOutputTokens entry =? 0)%Z)
  then None
  else if String.eqb (MessageID entry) "" || String.eqb (RequestID entry) ""
  then None
  else
    let key := MessageID entry +:+ ":" +:+ RequestID entry in
    match local_date h (Timestamp entry) with
    | None => None
    | Some date =>
        let model :=
          if String.eqb (MessageModel entry) "" then "unknown"
          else MessageModel entry in
        Some (mkEntryData key date model
                (UsageInputTokens entry) (UsageOutputTokens entry)
                (UsageCacheCreationTokens entry) (UsageCacheReadTokens entry))
    end.

(** The candidate record of a scanned line. *)
Definition lineCandidate (h : Host) (line : option LogEntry) : option EntryData :=
  match line with
  | None => None
  | Some entry => lineRecord h entry
  end.

(** One iteration of [for scanner.Scan()]. *)
Definition scanLine (h : Host) (st : gmap string EntryData * FileStats)
    (line : option LogEntry) : gmap string EntryData * FileStats :=
  let '(entries, stats) := st in
  let read := LinesRead stats + 1 in
  match line with
  | None => (entries, mkFileStats read (LinesParsed stats) (EntriesNew stats))
  | Some entry =>
      let parsed := LinesParsed stats + 1 in
      match lineRecord h entry with
      | None => (entries, mkFileStats read parsed (EntriesNew stats))
      | Some r =>
          match entries !! Key r with
          | Some _ => (entries, mkFileStats read parsed (EntriesNew stats))
          | None =>
              (<[Key r := r]> entries,
               mkFileStats read parsed (EntriesNew stats + 1))
          end
      end
  end.

Definition scanLines (h : Host) (lines : list (option LogEntry))
    : gmap string EntryData * FileStats :=
  foldl (scanLine h) (∅, noFileStats) lines.

Definition processFileForCache (h : Host) (path : string)
    : gmap string EntryData * FileStats :=
  match os_Open h path with
  | None => (∅, noFileStats)
  | Some lines => scanLines h lines
  end.

(** ** Reconciliation *)

Definition entryTotalTokens (e : EntryData) : Z :=
  int_add (int_add (int_add (InputTokens e) (OutputTokens e))
             (CacheCreationTokens e)) (CacheReadTokens e).

(** The merge step shared by phase 1 and phase 3: the body of the loops over
    [cached.Entries] and over [r.entries]. *)
Definition mergeEntry (st : gmap string EntryData * cacheStats) (e : EntryData)
    : gmap string EntryData * cacheStats :=
  let '(allEntries, stats) := st in
  match allEntries !! Key e with
  | Some existing =>
      if (entryTotalTokens existing <? entryTotalTokens e)%Z
      then (<[Key e := e]> allEntries,
            mkCacheStats (hits stats) (misses stats) (totalLines stats)
              (totalNew stats) (conflicts stats + 1))
      else (allEntries, stats)
  | None =>
      (<[Key e := e]> allEntries,
       mkCacheStats (hits stats) (misses stats) (totalLines stats)
         (totalNew stats + 1) (conflicts stats))
  end.

Definition mergeEntries (st : gmap string EntryData * cacheStats)
    (l : list EntryData) : gmap string EntryData * cacheStats :=
  foldl mergeEntry st l.

Record cacheMiss := mkCacheMiss {
  miss_path : string;
  miss_mtime : Z;
  miss_size : Z;
}.

Record fileResult := mkFileResult {
  res_path : string;
  res_mtime : Z;
  res_size : Z;
  res_entries : list EntryData;
  res_stats : FileStats;
}.

(** The state threaded through phase 1. *)
Record scanState := mkScanState {
  sc_all : gmap string EntryData * cacheStats;
  sc_misses : list cacheMiss;
  sc_existing : gset string;
}.

(** The hit test of phase 1. *)
Definition isHit (cache : CacheFile) (cacheValid : bool) (path : string)
    (mtime size : Z) : option FileCacheEntry :=
  match Files cache !! path with
  | Some cached =>
      if cacheValid && (ModTime cached =? mtime)%Z && (Size cached =? size)%Z
      then Some cached else None
  | None => None
  end.

Definition countHit (st : gmap string EntryData * cacheStats) :=
  let '(allEntries, stats) := st in
  (allEntries,
   mkCacheStats (hits stats + 1) (misses stats) (totalLines stats)
     (totalNew stats) (conflicts stats)).

Definition countMiss (st : gmap string EntryData * cacheStats) :=
  let '(allEntries, stats) := st in
  (allEntries,
   mkCacheStats (hits stats) (misses stats + 1) (totalLines stats)
     (totalNew stats) (conflicts stats)).

Definition addLines (n : Z) (st : gmap string EntryData * cacheStats) :=
  let '(allEntries, stats) := st in
  (allEntries,
   mkCacheStats (hits stats) (misses stats) (totalLines stats + n)
     (totalNew stats) (conflicts stats)).

(** Phase 1, one iteration of [for _, path := range files]. *)
Definition scanFile (h : Host) (cache : CacheFile) (cacheValid : bool)
    (st : scanState) (path : string) : scanState :=
  let existing := {[path]} ∪ sc_existing st in
  match os_Stat h path with
  | None => mkScanState (sc_all st) (sc_misses st) existing
  | Some (mtime, size) =>
      match isHit cache cacheValid path mtime size with
      | Some cached =>
          mkScanState (mergeEntries (countHit (sc_all st)) (Entries cached))
            (sc_misses st) existing
      | None =>
          mkScanState (countMiss (sc_all st))
            (sc_misses st ++ [mkCacheMiss path mtime size]) existing
      end
  end.

Definition phase1 (h : Host) (cache : CacheFile) (cacheValid : bool)
    (files : list string) : scanState :=
  foldl (scanFile h cache cacheValid)
    (mkScanState (∅, noCacheStats) [] ∅) files.

(** Phase 2: every miss is parsed by a task that touches nothing shared;
    [results[i]] belongs to [misses[i]] whatever the completion order. *)
Definition parseMiss (h : Host) (miss : cacheMiss) : fileResult :=
  let '(entries, fStats) := processFileForCache h (miss_path miss) in
  mkFileResult (miss_path miss) (miss_mtime miss) (miss_size miss)
    (range_entries h entries) fStats.

Definition phase2 (h : Host) (misses : list cacheMiss) : list fileResult :=
  parseMiss h <$> misses.

(** Phase 3, one iteration of [for ri := range results]. *)
Definition mergeResult
    (st : (gmap string EntryData * cacheStats) * gmap string FileCacheEntry)
    (r : fileResult) :=
  let '(all, files) := st in
  (mergeEntries (addLines (LinesRead (res_stats r)) all) (res_entries r),
   <[res_path r := mkFileCacheEntry (res_mtime r) (res_size r) (res_entries r)]>
     files).

Definition phase3 (all : gmap string EntryData * cacheStats)
    (files : gmap string FileCacheEntry) (results : list fileResult) :=
  foldl mergeResult (all, files) results.

(** The outcome of [processWithCacheLoaded]: the three returned values and
    the cache as the call leaves it (the source updates it in place).  The
    counters of [cacheStats] count files, lines and records held in memory
    and are kept as plain integers; [expectedCount] only sizes the map. *)
Record processed := mkProcessed {
  out_entries : gmap string EntryData;
  out_stats : cacheStats;
  out_dirty : bool;
  out_cache : CacheFile;
}.

Definition processWithCacheLoaded (h : Host) (files : list string)
    (cache : CacheFile) (cacheValid : bool) : processed :=
  let dirty0 := negb cacheValid in
  let s1 := phase1 h cache cacheValid files in
  let dirty1 := dirty0 || negb (bool_decide (sc_misses s1 = [])) in
  let results := phase2 h (sc_misses s1) in
  let '(all, cacheFiles) := phase3 (sc_all s1) (Files cache) results in
  let deleted := bool_decide (¬ dom cacheFiles ⊆ sc_existing s1) in
  let kept := filter (fun kv => kv.1 ∈ sc_existing s1) cacheFiles in
  mkProcessed all.1 all.2 (dirty1 || deleted)
    (mkCacheFile (Version cache) (Timezone cache) kept (Dirs cache)
       (LastFullWalk cache)).

(** ** Persistence codec *)

Record EncodedEntry := mkEncodedEntry {
  EncKey : string;
  DateIdx : Z;
  ModelIdx : Z;
  EncInputTokens : Z;
  EncOutputTokens : Z;
  EncCacheCreationTokens : Z;
  EncCacheReadTokens : Z;
}.

Record EncodedFileCacheEntry := mkEncodedFileCacheEntry {
  EncModTime : Z;
  EncSize : Z;
  EncEntries : list EncodedEntry;
}.

Record EncodedCache := mkEncodedCache {
  StringTable : list string;
  EncFiles : gmap string EncodedFileCacheEntry;
  EncDirs : gmap string Z;
  EncLastFullWalk : Z;
}.

(** The two serialisation libraries the codec sits on.  [gob_encode] and
    [gob_decode] stand for [encoding/gob] on an [EncodedCache];
    [gob_roundtrip] is the guarantee of that library which the codec relies
    on.  [range_files] is the order in which [saveCache] visits
    [cache.Files].  [legacy_unmarshal] is [json.Unmarshal] of the legacy
    file followed by the field-by-field copy of [loadLegacyJSONCache]. *)
Record Codec := mkCodec {
  gob_encode : EncodedCache -> list byte;
  gob_decode : list byte -> option EncodedCache;
  gob_roundtrip : forall e, gob_decode (gob_encode e) = Some e;
  range_files : gmap string FileCacheEntry -> list (string * FileCacheEntry);
  range_files_perm : forall m, range_files m ≡ₚ map_to_list m;
  legacy_unmarshal : list byte -> option CacheFile;
}.

Definition cacheMagic : list byte := [x43; x43; x55; x47]%byte.

Definition byte_of_Z (z : Z) : byte :=
  default x00%byte (Byte.of_N (Z.to_N (z mod 256))).

Definition Z_of_byte (b : byte) : Z := Z.of_N (Byte.to_N b).

(** [binary.LittleEndian.PutUint32] and [binary.LittleEndian.Uint32]. *)
Definition PutUint32 (v : Z) : list byte :=
  [byte_of_Z v; byte_of_Z (Z.shiftr v 8); byte_of_Z (Z.shiftr v 16);
   byte_of_Z (Z.shiftr v 24)].

Definition Uint32 (b0 b1 b2 b3 : byte) : Z :=
  Z.lor (Z_of_byte b0)
    (Z.lor (Z.shiftl (Z_of_byte b1) 8)
       (Z.lor (Z.shiftl (Z_of_byte b2) 16) (Z.shiftl (Z_of_byte b3) 24))).

(** The interning closure of [saveCache]: [stringIndex] and [stringTable]. *)
Definition internState : Type := gmap string Z * list string.

Definition intern (st : internState) (s : string) : internState * Z :=
  match st.1 !! s with
  | Some idx => (st, idx)
  | None =>
      let idx := Z.of_nat (length st.2) in
      ((<[s := idx]> st.1, st.2 ++ [s]), idx)
  end.

Definition encodeEntry (st : internState) (e : EntryData)
    : internState * EncodedEntry :=
  let '(st1, d) := intern st (Date e) in
  let '(st2, m) := intern st1 (Model e) in
  (st2, mkEncodedEntry (Key e) d m (InputTokens e) (OutputTokens e)
          (CacheCreationTokens e) (CacheReadTokens e)).

Fixpoint encodeEntries (st : internState) (l : list EntryData)
    : internState * list EncodedEntry :=
  match l with
  | [] => (st, [])
  | e :: l' =>
      let '(st1, ee) := encodeEntry st e in
      let '(st2, ees) := encodeEntries st1 l' in
      (st2, ee :: ees)
  end.

(** One iteration of [for path, fe := range cache.Files]. *)
Definition encodeFile
    (acc : internState * gmap string EncodedFileCacheEntry)
    (kv : string * FileCacheEntry)
    : internState * gmap string EncodedFileCacheEntry :=
  let '(st, files) := acc in
  let '(st', entries) := encodeEntries st (Entries kv.2) in
  (st', <[kv.1 := mkEncodedFileCacheEntry (ModTime kv.2) (Size kv.2) entries]>
          files).

(** The interned structure [saveCache] hands to gob.  The timezone is
    interned first, so it sits at index 0 of the table. *)
Definition encodeCache (c : Codec) (cache : CacheFile) : EncodedCache :=
  let '(st0, _) := intern (∅, []) (Timezone cache) in
  let '(st, files) := foldl encodeFile (st0, ∅) (range_files c (Files cache)) in
  mkEncodedCache st.2 files (Dirs cache) (LastFullWalk cache).

(** The bytes [saveCache] writes: magic, version, gob payload. *)
Definition cacheBytes (c : Codec) (cache : CacheFile) : list byte :=
  cacheMagic ++ PutUint32 CacheVersion ++ gob_encode c (encodeCache c cache).

Definition tableAt (table : list string) (idx : Z) : string :=
  if (0 <=? idx)%Z && (idx <? Z.of_nat (length table))%Z
  then default "" (table !! Z.to_nat idx)
  else "".

Definition decodeEntry (table : list string) (ee : EncodedEntry) : EntryData :=
  mkEntryData (EncKey ee) (tableAt table (DateIdx ee))
    (tableAt table (ModelIdx ee)) (EncInputTokens ee) (EncOutputTokens ee)
    (EncCacheCreationTokens ee) (EncCacheReadTokens ee).

Definition decodeFile (table : list string) (fe : EncodedFileCacheEntry)
    : FileCacheEntry :=
  mkFileCacheEntry (EncModTime fe) (EncSize fe)
    (decodeEntry table <$> EncEntries fe).

(** De-interning, the second half of [loadCache]. *)
Definition decodeCache (version : Z) (encoded : EncodedCache) : CacheFile :=
  mkCacheFile version
    (match StringTable encoded with [] => "" | tz :: _ => tz end)
    (decodeFile (StringTable encoded) <$> EncFiles encoded)
    (EncDirs encoded) (EncLastFullWalk encoded).

(** What [loadCache] makes of the bytes of [cache.bin]. *)
Inductive binaryLoad :=
| TryLegacy
| Unusable
| Loaded (cache : CacheFile).

Definition decodeBytes (c : Codec) (data : list byte) : binaryLoad :=
  match data with
  | b0 :: b1 :: b2 :: b3 :: v0 :: v1 :: v2 :: v3 :: payload =>
      if Byte.eqb b0 x43 && Byte.eqb b1 x43 && Byte.eqb b2 x55
         && Byte.eqb b3 x47 then
        let version := Uint32 v0 v1 v2 v3 in
        if (version =? CacheVersion)%Z then
          match gob_decode c payload with
          | Some encoded => Loaded (decodeCache version encoded)
          | None => Unusable
          end
        else Unusable
      else TryLegacy
  | _ => TryLegacy
  end.

(** The three files of the cache directory; [None] is an absent file. *)
Record CacheDisk := mkCacheDisk {
  cache_bin : option (list byte);
  cache_tmp : option (list byte);
  cache_json : option (list byte);
}.

Definition loadLegacyJSONCache (c : Codec) (disk : CacheDisk)
    : option CacheFile :=
  match cache_json disk with
  | None => None
  | Some data => legacy_unmarshal c data
  end.

Definition loadCache (c : Codec) (disk : CacheDisk) : option CacheFile :=
  match cache_bin disk with
  | None => loadLegacyJSONCache c disk
  | Some data =>
      match decodeBytes c data with
      | TryLegacy => loadLegacyJSONCache c disk
      | Unusable => None
      | Loaded cache => Some cache
      end
  end.

(** Which of the fallible calls of one [saveCache] fail. *)
Record Faults := mkFaults {
  MkdirAll_fails : bool;
  Encode_fails : bool;
  WriteFile_fails : bool;
  Remove_fails : bool;
  Rename_fails : bool;
}.

Definition noFaults : Faults := mkFaults false false false false false.

(** [saveCache]: the disk it leaves and whether it returned an error.  A
    failed [os.WriteFile] is taken to leave the temporary file as it was;
    the outcome of [os.Remove] is ignored, as in the source. *)
Definition saveCache (c : Codec) (f : Faults) (cache : CacheFile)
    (disk : CacheDisk) : CacheDisk * bool :=
  if MkdirAll_fails f then (disk, true)
  else
    let data := cacheBytes c cache in
    if Encode_fails f then (disk, true)
    else if WriteFile_fails f then (disk, true)
    else
      let disk1 := mkCacheDisk (cache_bin disk) (Some data) (cache_json disk) in
      let disk2 :=
        if Remove_fails f then disk1
        else mkCacheDisk (cache_bin disk1) (cache_tmp disk1) None in
      if Rename_fails f then (disk2, true)
      else (mkCacheDisk (cache_tmp disk2) None (cache_json disk2), false).

(** ** Discovery *)

Definition HasSuffix (s suffix : string) : bool :=
  (String.length suffix <=? String.length s)%nat
  && String.eqb
       (substring (String.length s - String.length suffix)
          (String.length suffix) s) suffix.

Definition HasPrefix (s prefix : string) : bool := String.prefix prefix s.

(** [sort.Strings]: ascending byte-wise lexicographic order. *)
Definition sortStrings (l : list string) : list string :=
  merge_sort String.le l.

(** [filepath.Join(path, name)] for a cleaned [path] other than the root
    directory and a directory entry [name]. *)
Definition joinPath (path name : string) : string := path +:+ "/" +:+ name.

(** The files and directory times collected so far by a walk. *)
Definition walkState : Type := list string * gmap string Z.

(** The callback [fullWalkJSONL] and [walkSubtree] hand to
    [filepath.WalkDir], on an entry that was reached without error. *)
Definition visit (path : string) (n : Node) (st : walkState) : walkState :=
  match n with
  | NDir (Some mtime) _ => (st.1, <[path := mtime]> st.2)
  | NDir None _ => st
  | NFile => if HasSuffix path ".jsonl" then (st.1 ++ [path], st.2) else st
  end.

(** [filepath.WalkDir]'s recursion: the entry itself, then, for a
    directory, its entries in the order [os.ReadDir] lists them. *)
Fixpoint walkDir (path : string) (n : Node) (st : walkState) : walkState :=
  let st1 := visit path n st in
  match n with
  | NFile => st1
  | NDir _ children =>
      (fix walkChildren (cs : list (string * Node)) (st : walkState)
         : walkState :=
         match cs with
         | [] => st
         | (name, c) :: cs' =>
             walkChildren cs' (walkDir (joinPath path name) c st)
         end) children st1
  end.

(** When the root cannot be examined the callback is called once with the
    error and collects nothing. *)
Definition fullWalkJSONL (h : Host) (dir : string) : walkState :=
  match fs_tree h dir with
  | None => ([], ∅)
  | Some n => walkDir dir n ([], ∅)
  end.

Definition walkSubtree (h : Host) (root : string) : walkState :=
  match fs_tree h root with
  | None => ([], ∅)
  | Some n => walkDir root n ([], ∅)
  end.

(** [5 * time.Minute], in nanoseconds. *)
Definition fullWalkInterval : Z := 5 * 60 * 1000000000.

Record discoveryStats := mkDiscoveryStats {
  dirsChecked : Z;
  dirsChanged : Z;
  subtreesWalked : Z;
  filesFromCache : Z;
  fullWalk : bool;
}.

Definition isChildOf (roots : list string) (p : string) : bool :=
  existsb (fun root => HasPrefix p (root +:+ "/")) roots.

Definition minimalRoots (dirs : gset string) : list string :=
  foldl (fun roots p => if isChildOf roots p then roots else roots ++ [p])
    [] (sortStrings (elements dirs)).

(** [filepath.Dir] of a cleaned path: what precedes the last separator. *)
Fixpoint beforeLastSlash (s : string) : option string :=
  match s with
  | EmptyString => None
  | String c s' =>
      match beforeLastSlash s' with
      | Some d => Some (String c d)
      | None => if Ascii.eqb c "/" then Some EmptyString else None
      end
  end.

Definition filepath_Dir (p : string) : string :=
  match beforeLastSlash p with
  | None => "."
  | Some EmptyString => "/"
  | Some d => d
  end.

(** The test applied to each manifested directory on a warm start. *)
Definition dirChanged (h : Host) (dirPath : string) (cachedMtime : Z) : bool :=
  match os_Stat h dirPath with
  | None => true
  | Some (currentMtime, _) => negb (currentMtime =? cachedMtime)%Z
  end.

(** One iteration of [for _, root := range roots].  The source also deletes
    every walked directory from [unchangedDirs], which is not read after
    this loop. *)
Definition walkRoot (h : Host) (st : gset string * gmap string Z)
    (root : string) : gset string * gmap string Z :=
  let '(subtreeFiles, subtreeDirs) := walkSubtree h root in
  (list_to_set subtreeFiles ∪ st.1, subtreeDirs ∪ st.2).

Definition warmStart (h : Host) (cache : CacheFile)
    : (list string * discoveryStats) * CacheFile :=
  let changedRoots :=
    dom (filter (fun kv => dirChanged h kv.1 kv.2 = true) (Dirs cache)) in
  let unchangedDirs :=
    dom (filter (fun kv => dirChanged h kv.1 kv.2 = false) (Dirs cache)) in
  let fromCache : gset string :=
    filter (fun filePath => filepath_Dir filePath ∈ unchangedDirs)
      (dom (Files cache)) in
  let roots := minimalRoots changedRoots in
  let '(fileSet, dirs1) := foldl (walkRoot h) (fromCache, Dirs cache) roots in
  let dirs2 := filter (fun kv => is_Some (os_Stat h kv.1)) dirs1 in
  (sortStrings (elements fileSet),
   mkDiscoveryStats (Z.of_nat (size (Dirs cache)))
     (Z.of_nat (size changedRoots)) (Z.of_nat (length roots))
     (Z.of_nat (size fromCache)) false,
   mkCacheFile (Version cache) (Timezone cache) (Files cache) dirs2
     (LastFullWalk cache)).

Definition needsFullWalk (h : Host) (cache : option CacheFile) : bool :=
  match cache with
  | None => true
  | Some c =>
      bool_decide (size (Dirs c) = 0%nat)
      || (fullWalkInterval <? now_check h - LastFullWalk c)%Z
  end.

(** [findJSONLFiles]: the file list, the statistics, and the cache as the
    call leaves it (the source updates the manifest in place).  A nil cache
    always takes the full walk, so the [None] case of the warm branch is
    never reached. *)
Definition findJSONLFiles (h : Host) (dir : string) (cache : option CacheFile)
    : (list string * discoveryStats) * option CacheFile :=
  if needsFullWalk h cache then
    let '(files, dirs) := fullWalkJSONL h dir in
    (files, mkDiscoveryStats (Z.of_nat (size dirs)) 0 0 0 true,
     (fun c => mkCacheFile (Version c) (Timezone c) (Files c) dirs
                 (now_stamp h)) <$> cache)
  else
    match cache with
    | None => ([], mkDiscoveryStats 0 0 0 0 false, None)
    | Some c => let '(r, c') := warmStart h c in (r, Some c')
    end.

(** ** The run as [main] sequences it *)

(** The zero [time.Time] (1 January of year 1, UTC), as Unix nanoseconds. *)
Definition zeroTime : Z := - 62135596800 * 1000000000.

Definition isCacheValid (h : Host) (loaded : option CacheFile) : bool :=
  match loaded with
  | None => false
  | Some c => (Version c =? CacheVersion)%Z && String.eqb (Timezone c) (local_zone h)
  end.

Definition freshCache (h : Host) : CacheFile :=
  mkCacheFile CacheVersion (local_zone h) ∅ ∅ zeroTime.

Record runOutcome := mkRunOutcome {
  run_valid : bool;
  run_manifest_before : gmap string Z;
  run_files : list string;
  run_discovery : discoveryStats;
  run_cache : CacheFile;
  run_processed : processed;
  run_persist : bool;
}.

(** The cache the run works on: the loaded one when it is valid, a fresh
    one otherwise. *)
Definition startCache (h : Host) (loaded : option CacheFile) : CacheFile :=
  match loaded with
  | Some c => if isCacheValid h loaded then c else freshCache h
  | None => freshCache h
  end.

(** [main] from the loaded cache onwards ([loaded] is [None] under
    [-no-cache] and [-clear-cache], or when [loadCache] returned nil):
    discovery, reconciliation, and the decision to call [saveCache].
    [run_cache] is the cache as discovery leaves it, which reconciliation
    receives. *)
Definition mainRun (h : Host) (projects : string) (loaded : option CacheFile)
    : runOutcome :=
  let cacheValid := isCacheValid h loaded in
  let cache := startCache h loaded in
  let '(files, dStats, cache1) := findJSONLFiles h projects (Some cache) in
  let cache2 := default cache cache1 in
  let p := processWithCacheLoaded h files cache2 cacheValid in
  mkRunOutcome cacheValid (Dirs cache) files dStats cache2 p
    (out_dirty p || fullWalk dStats || (0 <? dirsChanged dStats)%Z).

(** ** Vocabulary of the properties *)

(** The record the merge rule keeps under a key, given what the map holds
    there and the record that arrives. *)
Definition winner (held : option EntryData) (e : EntryData) : EntryData :=
  match held with
  | Some existing =>
      if (entryTotalTokens existing <? entryTotalTokens e)%Z then e else existing
  | None => e
  end.

(** The merge step on the map alone. *)
Definition mergeMap (m : gmap string EntryData) (e : EntryData)
    : gmap string EntryData :=
  <[Key e := winner (m !! Key e) e]> m.

(** The entries a file contributes in phase 1: those of its cache entry when
    it is a hit, none otherwise. *)
Definition hitEntries (h : Host) (cache : CacheFile) (cacheValid : bool)
    (path : string) : list EntryData :=
  match os_Stat h path with
  | None => []
  | Some (mtime, size) =>
      match isHit cache cacheValid path mtime size with
      | Some cached => Entries cached
      | None => []
      end
  end.

(** The miss a file gives rise to in phase 1, if any. *)
Definition missOf (h : Host) (cache : CacheFile) (cacheValid : bool)
    (path : string) : list cacheMiss :=
  match os_Stat h path with
  | None => []
  | Some (mtime, size) =>
      match isHit cache cacheValid path mtime size with
      | Some _ => []
      | None => [mkCacheMiss path mtime size]
      end
  end.

(** The records that reach the merge, in the order they reach it: phase 1
    over the hits in file order, then phase 3 over the parsed misses. *)
Definition reaching (h : Host) (files : list string) (cache : CacheFile)
    (cacheValid : bool) : list EntryData :=
  flat_map (hitEntries h cache cacheValid) files
  ++ flat_map res_entries
       (phase2 h (flat_map (missOf h cache cacheValid) files)).

(** The paths that are parsed again. *)
Definition reparsed (h : Host) (files : list string) (cache : CacheFile)
    (cacheValid : bool) : list string :=
  miss_path <$> sc_misses (phase1 h cache cacheValid files).

(** Whether phase 1 serves a file from the cache. *)
Definition servedFromCache (h : Host) (cache : CacheFile) (cacheValid : bool)
    (path : string) : bool :=
  match os_Stat h path with
  | None => false
  | Some (mtime, size) =>
      match isHit cache cacheValid path mtime size with
      | Some _ => true
      | None => false
      end
  end.

(** A file that can be both statted and opened. *)
Definition readable (h : Host) (path : string) : bool :=
  match os_Stat h path, os_Open h path with
  | Some _, Some _ => true
  | _, _ => false
  end.

(** Every index handed out so far points at its string in the table. *)
Definition internOK (st : internState) : Prop :=
  ∀ s i, st.1 !! s = Some i -> 0 <= i ∧ st.2 !! Z.to_nat i = Some s.

(** What holds of the interning state and the files encoded so far:
    whatever the table grows into, they decode to [orig]. *)
Definition encodedAs (acc : internState * gmap string EncodedFileCacheEntry)
    (orig : gmap string FileCacheEntry) : Prop :=
  internOK acc.1
  ∧ ∀ tbl, acc.1.2 `prefix_of` tbl -> decodeFile tbl <$> acc.2 = orig.

(** The files a walk collects from a node, in the order it meets them. *)
Fixpoint filesOf (path : string) (n : Node) : list string :=
  match n with
  | NFile => if HasSuffix path ".jsonl" then [path] else []
  | NDir _ children =>
      flat_map (fun nc => let '(name, c) := nc in filesOf (joinPath path name) c)
        children
  end.

Fixpoint noSlash (s : string) : bool :=
  match s with
  | EmptyString => true
  | String c s' => negb (Ascii.eqb c "/") && noSlash s'
  end.

(** A tree as a file system presents it: in every directory the entries
    come sorted by name, as [os.ReadDir] returns them, no name occurs
    twice, and no name contains the separator. *)
Fixpoint wfNode (n : Node) : bool :=
  match n with
  | NFile => true
  | NDir _ children =>
      bool_decide (NoDup children.*1)
      && bool_decide (Sorted String.le children.*1)
      && forallb (fun nc => let '(name, c) := nc in noSlash name && wfNode c)
           children
  end.

(** The empty string, or a separator followed by anything. *)
Definition slashTail (rest : string) : Prop :=
  rest = "" ∨ ∃ r, rest = String "/" r.

(** A host whose local zone is UTC, on timestamps of the form
    [YYYY-MM-DDThh:mm:ssZ]: the date is the first ten characters. *)
Definition utc_date (ts : string) : option string :=
  if (String.length ts =? 20)%nat
     && String.eqb (substring 10 1 ts) "T"
     && String.eqb (substring 19 1 ts) "Z"
  then Some (substring 0 10 ts) else None.

(** A host given by its file tables, visiting maps in key order. *)
Definition tableHost (stat : string -> option (Z * Z))
    (content : string -> option (list (option LogEntry)))
    (tree : string -> option Node) (now : Z) : Host :=
  mkHost stat content utc_date (fun m => (map_to_list m).*2)
    (fun m => reflexivity _) tree now now "UTC".

(** ** A reference codec

    A serialisation of [EncodedCache] that has the round-trip guarantee:
    the value's code as a positive number, one binary digit per byte.  It
    shows that the interface [Codec] is inhabited; it is not gob's wire
    format. *)

#[global] Instance EncodedEntry_eq_dec : EqDecision EncodedEntry.
Proof. solve_decision. Defined.

#[global] Instance EncodedFileCacheEntry_eq_dec
  : EqDecision EncodedFileCacheEntry.
Proof. solve_decision. Defined.

#[global] Instance EncodedCache_eq_dec : EqDecision EncodedCache.
Proof. solve_decision. Defined.

#[global] Instance EncodedEntry_countable : Countable EncodedEntry.
Proof.
  refine (inj_countable'
            (fun e => (EncKey e, DateIdx e, ModelIdx e, EncInputTokens e,
                       EncOutputTokens e, EncCacheCreationTokens e,
                       EncCacheReadTokens e))
            (fun t => let '(k, d, m, i, o, w, r) := t in
                      mkEncodedEntry k d m i o w r) _).
  by intros [].
Defined.

#[global] Instance EncodedFileCacheEntry_countable
  : Countable EncodedFileCacheEntry.
Proof.
  refine (inj_countable'
            (fun fe => (EncModTime fe, EncSize fe, EncEntries fe))
            (fun t => let '(m, s, l) := t in mkEncodedFileCacheEntry m s l) _).
  by intros [].
Defined.

#[global] Instance EncodedCache_countable : Countable EncodedCache.
Proof.
  refine (inj_countable'
            (fun e => (StringTable e, EncFiles e, EncDirs e, EncLastFullWalk e))
            (fun t => let '(tbl, fs, ds, w) := t in mkEncodedCache tbl fs ds w)
            _).
  by intros [].
Defined.

Fixpoint pos_bytes (p : positive) : list byte :=
  match p with
  | xH => []
  | xO p' => x00 :: pos_bytes p'
  | xI p' => x01 :: pos_bytes p'
  end.

Fixpoint bytes_pos (bs : list byte) : positive :=
  match bs with
  | [] => xH
  | b :: bs' =>
      if Byte.eqb b x00 then xO (bytes_pos bs') else xI (bytes_pos bs')
  end.

Definition refCodec : Codec.
Proof.
  refine (mkCodec (fun e => pos_bytes (encode e))
            (fun bs => decode (bytes_pos bs)) _
            (fun m => map_to_list m) _ (fun _ => None)).
  - intros e.
    assert (Hid : ∀ p, bytes_pos (pos_bytes p) = p).
    { induction p as [p IH|p IH|]; simpl; by rewrite ?IH. }
    rewrite Hid. apply decode_encode.
  - reflexivity.
Defined.

(** ** Sample hosts and snapshots *)

(** The scenario of the specification: file A unchanged and cached with one
    record of 100 tokens under ["K1:X"], file B modified and holding a line
    of 150 tokens with the same key. *)
Definition cachedA : EntryData :=
  mkEntryData "K1:X" "2025-01-01" "sonnet" 60 40 0 0.

Definition lineB : LogEntry :=
  mkLogEntry "2025-01-02T10:00:00Z" "X" "K1" "sonnet" 100 50 0 0.

Definition parsedB : EntryData :=
  mkEntryData "K1:X" "2025-01-02" "sonnet" 100 50 0 0.

Definition scenarioHost : Host :=
  tableHost
    (fun p => if String.eqb p "A.jsonl" then Some (1, 10)
              else if String.eqb p "B.jsonl" then Some (2, 20) else None)
    (fun p => if String.eqb p "A.jsonl" then Some []
              else if String.eqb p "B.jsonl" then Some [Some lineB] else None)
    (fun _ => None) 0.

Definition scenarioCache : CacheFile :=
  mkCacheFile CacheVersion "UTC"
    {["A.jsonl" := mkFileCacheEntry 1 10 [cachedA]]} ∅ 0.

Definition scenarioFiles : list string := ["A.jsonl"; "B.jsonl"].

Definition emptySnapshot : CacheFile := mkCacheFile CacheVersion "UTC" ∅ ∅ 0.

(** A record with the key and the total of [cachedA], but another date and
    model. *)
Definition tiedA : EntryData :=
  mkEntryData "K1:X" "2025-01-03" "opus" 50 50 0 0.

(** A line with a timestamp, both ids and 500 cache-read tokens, whose input
    and output counts are zero. *)
Definition cacheOnlyLine : LogEntry :=
  mkLogEntry "2025-01-02T10:00:00Z" "X" "K1" "sonnet" 0 0 0 500.

(** File A as in the scenario, still with its cached metadata, but no
    longer openable. *)
Definition lockedHost : Host :=
  tableHost (fun p => if String.eqb p "A.jsonl" then Some (1, 10) else None)
    (fun _ => None) (fun _ => None) 0.

(** A projects directory [r] with two project directories, [a] and [a-b],
    one log file in each; none of the files can be statted. *)
Definition twoProjects : Node :=
  NDir (Some 1)
    [("a", NDir (Some 2) [("x.jsonl", NFile)]);
     ("a-b", NDir (Some 3) [("y.jsonl", NFile)])].

Definition twoProjectsHost : Host :=
  tableHost (fun _ => None) (fun _ => None)
    (fun p => if String.eqb p "r" then Some twoProjects else None) 0.

(** A projects directory [r] holding one entry, [x.jsonl], a symbolic link
    whose target is gone: the walk lists it, [os.Stat] fails on it. *)
Definition danglingLinkHost : Host :=
  tableHost (fun p => if String.eqb p "r" then Some (1, 4096) else None)
    (fun _ => None)
    (fun p => if String.eqb p "r" then Some (NDir (Some 1) [("x.jsonl", NFile)])
              else None) 0.

(** A cache written by another format version. *)
Definition staleCache : CacheFile := mkCacheFile 1 "UTC" ∅ ∅ 0.

(** A projects directory [r] with one log file; nothing on disk differs
    from what [quietCache] recorded, and ten minutes have passed since the
    last full walk. *)
Definition quietHost : Host :=
  tableHost
    (fun p => if String.eqb p "r" then Some (1, 4096)
              else if String.eqb p "r/a.jsonl" then Some (5, 7) else None)
    (fun p => if String.eqb p "r/a.jsonl" then Some [] else None)
    (fun p => if String.eqb p "r" then Some (NDir (Some 1) [("a.jsonl", NFile)])
              else None)
    (10 * 60 * 1000000000).

Definition quietCache : CacheFile :=
  mkCacheFile CacheVersion "UTC" {["r/a.jsonl" := mkFileCacheEntry 5 7 []]}
    {["r" := 1]} 0.

(** The same disk one minute after the last full walk. *)
Definition warmHost : Host :=
  tableHost
    (fun p => if String.eqb p "r" then Some (1, 4096)
              else if String.eqb p "r/a.jsonl" then Some (5, 7) else None)
    (fun p => if String.eqb p "r/a.jsonl" then Some [] else None)
    (fun p => if String.eqb p "r" then Some (NDir (Some 1) [("a.jsonl", NFile)])
              else None)
    (60 * 1000000000).

(** ** The claims as the specification words them, where the code differs *)

(** C3 as worded: a line is skipped when it failed to parse, or lacks both a
    timestamp and every token count, or lacks one of the two ids. *)
Definition skippedAsWorded (line : option LogEntry) : Prop :=
  line = None
  ∨ ∃ entry, line = Some entry
      ∧ ((Timestamp entry = ""
          ∧ UsageInputTokens entry = 0 ∧ UsageOutputTokens entry = 0
          ∧ UsageCacheCreationTokens entry = 0
          ∧ UsageCacheReadTokens entry = 0)
         ∨ MessageID entry = "" ∨ RequestID entry = "").

(** C4 as worded: the condition under which a discovered file is parsed
    again. *)
Definition reparseAsWorded (h : Host) (cache : CacheFile) (cacheValid : bool)
    (path : string) : Prop :=
  cacheValid = false ∨ Files cache !! path = None
  ∨ ∃ cached mtime size,
      Files cache !! path = Some cached ∧ os_Stat h path = Some (mtime, size)
      ∧ (ModTime cached ≠ mtime ∨ Size cached ≠ size).

(** ** Further vocabulary: the whole merged map *)

(** No two different records of the same key have the same total. *)
Definition tieFree (l : list EntryData) : Prop :=
  ∀ a b, a ∈ l -> b ∈ l -> Key a = Key b ->
         entryTotalTokens a = entryTotalTokens b -> a = b.

(** Every record is stored under its own key. *)
Definition keyed (m : gmap string EntryData) : Prop :=
  ∀ k r, m !! k = Some r -> Key r = k.

(** The records a file contributes when it is parsed in phase 2. *)
Definition missEntries (h : Host) (cache : CacheFile) (cacheValid : bool)
    (path : string) : list EntryData :=
  flat_map res_entries (phase2 h (missOf h cache cacheValid path)).

(** The cache entry phase 3 writes for a parsed file. *)
Definition parsedEntry (h : Host) (path : string) (mtime size : Z)
    : FileCacheEntry :=
  mkFileCacheEntry mtime size (range_entries h (processFileForCache h path).1).

Definition Zsum (l : list Z) : Z := foldr Z.add 0 l.

(** A file whose metadata can be read. *)
Definition statable (h : Host) (path : string) : bool :=
  match os_Stat h path with Some _ => true | None => false end.

(** The counters a state of the merge is judged by. *)
Definition counted (st : gmap string EntryData * cacheStats)
    (nMisses : nat) (nMerged : nat) (lines : Z) : Prop :=
  misses st.2 = Z.of_nat nMisses
  ∧ totalNew st.2 = Z.of_nat (size st.1)
  ∧ totalLines st.2 = lines
  ∧ 0 <= conflicts st.2
  ∧ conflicts st.2 + totalNew st.2 <= Z.of_nat nMerged.

(** ** Further vocabulary: discovery *)

(** One iteration of [minimalRoots]' loop over the sorted paths. *)
Definition addRoot (roots : list string) (p : string) : list string :=
  if isChildOf roots p then roots else roots ++ [p].

(** No path of the list lies below another path of the list. *)
Definition antichain (roots : list string) : Prop :=
  ∀ r1 r2, r1 ∈ roots -> r2 ∈ roots -> HasPrefix r1 (r2 +:+ "/") = false.

(** The manifested directories a warm start finds changed, and the cached
    files it takes over without touching the disk. *)
Definition changedDirs (h : Host) (cache : CacheFile) : gset string :=
  dom (filter (fun kv => dirChanged h kv.1 kv.2 = true) (Dirs cache)).

Definition filesTakenFromCache (h : Host) (cache : CacheFile) : gset string :=
  filter (fun filePath =>
            filepath_Dir filePath
            ∈ dom (filter (fun kv => dirChanged h kv.1 kv.2 = false)
                     (Dirs cache)))
    (dom (Files cache)).

(** ** Further vocabulary: the codec *)

(** The table lists every interned string once, and the index knows
    exactly the strings of the table. *)
Definition internTight (st : internState) : Prop :=
  NoDup st.2 ∧ ∀ s, s ∈ st.2 <-> is_Some (st.1 !! s).

(** The dates and models of a list of records. *)
Definition vocabulary (l : list EntryData) : list string :=
  flat_map (fun e => [Date e; Model e]) l.

(** ** Aggregation (main.go:42-51, 688-703, 720-728, 745-784) *)

Record Usage := mkUsage {
  Input : Z;
  Output : Z;
  CacheWrite : Z;
  CacheRead : Z;
}.

Record DayUsage := mkDayUsage {
  Models : gmap string Usage;
}.

(** The orders in which [range] visits the two maps of the table: Go leaves
    them unspecified; each visits every key of the map once. *)
Record MapOrder := mkMapOrder {
  range_days : gmap string DayUsage -> list string;
  range_days_perm : forall m, range_days m ≡ₚ (map_to_list m).*1;
  range_models : gmap string Usage -> list Usage;
  range_models_perm : forall m, range_models m ≡ₚ (map_to_list m).*2;
}.

(** The four [+=] of the loop of [aggregateUsage], on Go's [int]. *)
Definition addTokens (u : Usage) (e : EntryData) : Usage :=
  mkUsage (int_add (Input u) (InputTokens e))
          (int_add (Output u) (OutputTokens e))
          (int_add (CacheWrite u) (CacheCreationTokens e))
          (int_add (CacheRead u) (CacheReadTokens e)).

(** One turn of the loop: the day and the model are created on first use
    ([&DayUsage{...}], [&Usage{}]), then the counters are added. *)
Definition addEntry (dayUsage : gmap string DayUsage) (e : EntryData)
    : gmap string DayUsage :=
  let day := default (mkDayUsage ∅) (dayUsage !! Date e) in
  let u := default (mkUsage 0 0 0 0) (Models day !! Model e) in
  <[Date e := mkDayUsage (<[Model e := addTokens u e]> (Models day))]> dayUsage.

Definition aggregateUsage (h : Host) (entries : gmap string EntryData)
    : gmap string DayUsage :=
  foldl addEntry ∅ (range_entries h entries).

(** [sumUsage] returns (input, output, cacheWrite, cacheRead). *)
Definition sumUsage (o : MapOrder) (day : DayUsage) : Z * Z * Z * Z :=
  foldl (fun '(input, output, cacheWrite, cacheRead) u =>
           (int_add input (Input u), int_add output (Output u),
            int_add cacheWrite (CacheWrite u), int_add cacheRead (CacheRead u)))
        (0, 0, 0, 0) (range_models o (Models day)).

(** The numbers of [printTable]: one row per date in ascending order, each
    with the sums of its day, and the totals of the last row.  [day] is
    looked up under a key of the map itself. *)
Definition tableRows (o : MapOrder) (dayUsage : gmap string DayUsage)
    : list (string * (Z * Z * Z * Z)) :=
  let dates := sortStrings (range_days o dayUsage) in
  omap (fun date => (fun day => (date, sumUsage o day)) <$> dayUsage !! date)
       dates.

Definition tableTotals (o : MapOrder) (dayUsage : gmap string DayUsage)
    : Z * Z * Z * Z :=
  foldl (fun '(totalInput, totalOutput, totalCacheWrite, totalCacheRead)
             '(_, (input, output, cacheWrite, cacheRead)) =>
           (int_add totalInput input, int_add totalOutput output,
            int_add totalCacheWrite cacheWrite,
            int_add totalCacheRead cacheRead))
        (0, 0, 0, 0) (tableRows o dayUsage).

(** The order stdpp lists a map in is one such order. *)
Definition listOrder : MapOrder :=
  mkMapOrder (fun m => (map_to_list m).*1) (fun m => reflexivity _)
             (fun m => (map_to_list m).*2) (fun m => reflexivity _).

(** The records of a date, and of a date and a model. *)
Definition onDate (date : string) (m : gmap string EntryData)
    : list EntryData :=
  filter (fun e => Date e = date) (map_to_list m).*2.

Definition onCell (date model : string) (m : gmap string EntryData)
    : list EntryData :=
  filter (fun e => Date e = date ∧ Model e = model) (map_to_list m).*2.

(** The four counters, to state a property of all of them at once. *)
Inductive counter := CInput | COutput | CCacheWrite | CCacheRead.

Definition ofEntry (c : counter) (e : EntryData) : Z :=
  match c with
  | CInput => InputTokens e
  | COutput => OutputTokens e
  | CCacheWrite => CacheCreationTokens e
  | CCacheRead => CacheReadTokens e
  end.

Definition ofUsage (c : counter) (u : Usage) : Z :=
  match c with
  | CInput => Input u
  | COutput => Output u
  | CCacheWrite => CacheWrite u
  | CCacheRead => CacheRead u
  end.

Definition ofSums (c : counter) (s : Z * Z * Z * Z) : Z :=
  match c with
  | CInput => s.1.1.1
  | COutput => s.1.1.2
  | CCacheWrite => s.1.2
  | CCacheRead => s.2
  end.

(** The sum of [f] over the values of a map. *)
Definition msum {A} (f : A -> Z) (m : gmap string A) : Z :=
  Zsum (f <$> (map_to_list m).*2).

(** The cell of a date and a model in the table. *)
Definition cellOf (dayUsage : gmap string DayUsage) (date model : string)
    : option Usage :=
  dayUsage !! date ≫= fun day => Models day !! model.

(** ** Further sample inputs *)

(** The disk of [warmHost] with one line in the log file. *)
Definition loggedHost : Host :=
  tableHost
    (fun p => if String.eqb p "r" then Some (1, 4096)
              else if String.eqb p "r/a.jsonl" then Some (5, 7) else None)
    (fun p => if String.eqb p "r/a.jsonl" then Some [Some lineB] else None)
    (fun p => if String.eqb p "r" then Some (NDir (Some 1) [("a.jsonl", NFile)])
              else None)
    (60 * 1000000000).

(** A cache directory holding only the current-format file of the empty
    snapshot, as the reference codec writes it. *)
Definition savedEmptyDisk : CacheDisk :=
  mkCacheDisk (Some (cacheBytes refCodec emptySnapshot)) None None.

(** The merged records of the scenario. *)
Definition scenarioEntries : gmap string EntryData := {["K1:X" := parsedB]}.

(** ** Vocabulary and sample inputs: sums, saving, map order *)

(** The sum of the four token counters, as a number. *)
Definition counterSum (e : EntryData) : Z :=
  InputTokens e + OutputTokens e + CacheCreationTokens e + CacheReadTokens e.

(** File B of the scenario with a line whose input count is the largest
    [int] and whose output count is one; the record it parses to. *)
Definition overflowLine : LogEntry :=
  mkLogEntry "2025-01-02T10:00:00Z" "X" "K1" "sonnet" 9223372036854775807 1 0 0.

Definition overflowB : EntryData :=
  mkEntryData "K1:X" "2025-01-02" "sonnet" 9223372036854775807 1 0 0.

Definition overflowHost : Host :=
  tableHost
    (fun p => if String.eqb p "A.jsonl" then Some (1, 10)
              else if String.eqb p "B.jsonl" then Some (2, 20) else None)
    (fun p => if String.eqb p "A.jsonl" then Some []
              else if String.eqb p "B.jsonl" then Some [Some overflowLine]
              else None)
    (fun _ => None) 0.

(** The end of [main] (main.go:851-854): [saveCache] is called when the
    guard holds, on the cache as discovery and reconciliation left it, and
    its error is discarded.  The result is the cache directory afterwards. *)
Definition mainDisk (c : Codec) (f : Faults) (h : Host) (projects : string)
    (loaded : option CacheFile) (disk : CacheDisk) : CacheDisk :=
  let r := mainRun h projects loaded in
  if run_persist r
  then (saveCache c f (out_cache (run_processed r)) disk).1
  else disk.

(** A cache directory holding [quietCache] in the current format, as the
    reference codec writes it. *)
Definition savedQuietDisk : CacheDisk :=
  mkCacheDisk (Some (cacheBytes refCodec quietCache)) None None.

(** Two hosts that present the same files: every [os.Stat], every file
    content and every timestamp conversion agree.  The orders in which they
    range over maps may differ. *)
Definition sameFiles (h h' : Host) : Prop :=
  (∀ p, os_Stat h' p = os_Stat h p)
  ∧ (∀ p, os_Open h' p = os_Open h p)
  ∧ (∀ ts, local_date h' ts = local_date h ts).

(** Two cache entries with the same metadata and the same records, listed
    in any order. *)
Definition sameEntry (e e' : FileCacheEntry) : Prop :=
  ModTime e = ModTime e' ∧ Size e = Size e' ∧ Entries e ≡ₚ Entries e'.

Definition sameEntryAt (o o' : option FileCacheEntry) : Prop :=
  match o, o' with
  | Some e, Some e' => sameEntry e e'
  | None, None => True
  | _, _ => False
  end.

(** The scenario's host ranging over maps in the opposite order. *)
Definition scenarioHostReversed : Host :=
  mkHost (os_Stat scenarioHost) (os_Open scenarioHost)
    (local_date scenarioHost) (fun m => reverse (map_to_list m).*2)
    (fun m => reverse_Permutation _) (fs_tree scenarioHost) 0 0 "UTC".

(** * Properties *)

(** ** Machine integers *)

Lemma int_wrap_id z : int_range z -> int_wrap z = z.
Proof.
  unfold int_range, int_wrap. intros Hz.
  rewrite Z.mod_small by lia. lia.
Qed.

(** Counters that are non-negative and below [2^61] add up without
    wrapping: [entryTotalTokens] is then the plain sum. *)
Lemma entryTotalTokens_plain e :
  0 <= InputTokens e < 2 ^ 61 -> 0 <= OutputTokens e < 2 ^ 61 ->
  0 <= CacheCreationTokens e < 2 ^ 61 -> 0 <= CacheReadTokens e < 2 ^ 61 ->
  entryTotalTokens e
  = InputTokens e + OutputTokens e + CacheCreationTokens e + CacheReadTokens e.
Proof.
  intros Hi Ho Hc Hr. unfold entryTotalTokens, int_add.
  rewrite (int_wrap_id (InputTokens e + OutputTokens e))
    by (unfold int_range; lia).
  rewrite (int_wrap_id (_ + CacheCreationTokens e)) by (unfold int_range; lia).
  apply int_wrap_id. unfold int_range. lia.
Qed.

Lemma int_wrap_eq a b :
  int_wrap a = int_wrap b <-> ∃ k, a = b + k * 2 ^ 64.
Proof.
  unfold int_wrap. split.
  - intros H. exists ((a + 2 ^ 63) / 2 ^ 64 - (b + 2 ^ 63) / 2 ^ 64).
    pose proof (Z.div_mod (a + 2 ^ 63) (2 ^ 64) ltac:(lia)).
    pose proof (Z.div_mod (b + 2 ^ 63) (2 ^ 64) ltac:(lia)). lia.
  - intros [k ->]. f_equal.
    replace (b + k * 2 ^ 64 + 2 ^ 63) with (b + 2 ^ 63 + k * 2 ^ 64) by lia.
    apply Z_mod_plus_full.
Qed.

Lemma int_wrap_idemp a : int_wrap (int_wrap a) = int_wrap a.
Proof.
  apply int_wrap_eq. unfold int_wrap.
  exists (- ((a + 2 ^ 63) / 2 ^ 64)).
  pose proof (Z.div_mod (a + 2 ^ 63) (2 ^ 64) ltac:(lia)). lia.
Qed.

Lemma int_wrap_add a a' b b' :
  int_wrap a = int_wrap a' -> int_wrap b = int_wrap b' ->
  int_wrap (a + b) = int_wrap (a' + b').
Proof.
  rewrite !int_wrap_eq. intros [k ->] [k' ->]. exists (k + k'). lia.
Qed.

Lemma int_wrap_add_l a b : int_wrap (int_wrap a + b) = int_wrap (a + b).
Proof. apply int_wrap_add; [apply int_wrap_idemp|done]. Qed.

Lemma int_wrap_add_r a b : int_wrap (a + int_wrap b) = int_wrap (a + b).
Proof. apply int_wrap_add; [done|apply int_wrap_idemp]. Qed.

(** [entryTotalTokens] is the sum of the four counters reduced to the range
    of Go's [int], and the sum itself when that fits. *)
Lemma entryTotalTokens_counterSum e :
  entryTotalTokens e = int_wrap (counterSum e).
Proof.
  unfold entryTotalTokens, counterSum, int_add.
  rewrite int_wrap_add_l. apply int_wrap_add; [|done]. apply int_wrap_add_l.
Qed.

Lemma entryTotalTokens_fits e :
  int_range (counterSum e) -> entryTotalTokens e = counterSum e.
Proof.
  intros He. rewrite entryTotalTokens_counterSum. by apply int_wrap_id.
Qed.

(** ** The merge rule *)

Section Merge.
Implicit Types (m : gmap string EntryData) (e a b : EntryData).
Implicit Types (st : gmap string EntryData * cacheStats).

Lemma mergeEntry_map st e : (mergeEntry st e).1 = mergeMap st.1 e.
Proof.
  destruct st as [m s]. unfold mergeEntry, mergeMap, winner. simpl.
  destruct (m !! Key e) as [x|] eqn:Hx; [|done].
  destruct (entryTotalTokens x <? entryTotalTokens e)%Z; simpl; [done|].
  by rewrite insert_id.
Qed.

Lemma mergeEntries_map st l : (mergeEntries st l).1 = foldl mergeMap st.1 l.
Proof.
  revert st. induction l as [|e l IH]; intros st; [done|].
  simpl. unfold mergeEntries in IH. by rewrite IH, mergeEntry_map.
Qed.

Lemma mergeEntries_app st l1 l2 :
  mergeEntries st (l1 ++ l2) = mergeEntries (mergeEntries st l1) l2.
Proof. unfold mergeEntries. apply foldl_app. Qed.

Lemma mergeMap_lookup m e k :
  mergeMap m e !! k
  = if decide (Key e = k) then Some (winner (m !! k) e) else m !! k.
Proof.
  unfold mergeMap. rewrite lookup_insert.
  destruct (decide (Key e = k)) as [<-|]; done.
Qed.

Lemma winner_total_ge held e :
  entryTotalTokens e <= entryTotalTokens (winner held e).
Proof.
  unfold winner. destruct held as [x|]; [|lia].
  destruct (Z.ltb_spec (entryTotalTokens x) (entryTotalTokens e)); lia.
Qed.

Lemma winner_held_ge x e :
  entryTotalTokens x <= entryTotalTokens (winner (Some x) e).
Proof.
  unfold winner.
  destruct (Z.ltb_spec (entryTotalTokens x) (entryTotalTokens e)); lia.
Qed.

(** Two records of different totals may be merged in either order. *)
Lemma winner_swap held a b :
  entryTotalTokens a ≠ entryTotalTokens b ->
  winner (Some (winner held a)) b = winner (Some (winner held b)) a.
Proof.
  intros Hne. unfold winner. destruct held as [x|].
  - destruct (Z.ltb_spec (entryTotalTokens x) (entryTotalTokens a));
      destruct (Z.ltb_spec (entryTotalTokens x) (entryTotalTokens b));
      repeat match goal with
             | |- context [(?u <? ?v)%Z] => destruct (Z.ltb_spec u v)
             end; try done; lia.
  - destruct (Z.ltb_spec (entryTotalTokens a) (entryTotalTokens b));
      destruct (Z.ltb_spec (entryTotalTokens b) (entryTotalTokens a));
      try done; lia.
Qed.

Lemma mergeMap_swap m a b :
  Key a ≠ Key b ∨ entryTotalTokens a ≠ entryTotalTokens b ∨ a = b ->
  mergeMap (mergeMap m a) b = mergeMap (mergeMap m b) a.
Proof.
  intros Hab. destruct (decide (a = b)) as [->|Hneq]; [done|].
  destruct (decide (Key a = Key b)) as [Hk|Hk].
  - destruct Hab as [?|[Ht|?]]; [done| |done].
    unfold mergeMap. rewrite <- Hk.
    rewrite !lookup_insert_eq, !insert_insert_eq.
    f_equal. by apply winner_swap.
  - unfold mergeMap.
    rewrite (lookup_insert_ne _ (Key a) (Key b)) by done.
    rewrite (lookup_insert_ne _ (Key b) (Key a)) by done.
    by apply insert_insert_ne.
Qed.

(** Once a key holds a record, it keeps holding one whose total is no
    smaller. *)
Lemma foldl_mergeMap_held_ge l m k x :
  m !! k = Some x ->
  ∃ r, foldl mergeMap m l !! k = Some r
       ∧ entryTotalTokens x <= entryTotalTokens r.
Proof.
  revert m x. induction l as [|e l IH]; intros m x Hx; simpl.
  - exists x. split; [done|lia].
  - destruct (decide (Key e = k)) as [He|He].
    + destruct (IH (mergeMap m e) (winner (Some x) e)) as (r & Hr & Hle).
      { rewrite mergeMap_lookup, decide_True by done. by rewrite Hx. }
      exists r. split; [done|]. pose proof (winner_held_ge x e). lia.
    + destruct (IH (mergeMap m e) x) as (r & Hr & Hle).
      { by rewrite mergeMap_lookup, decide_False. }
      by exists r.
Qed.

(** Every record that is merged leaves, under its key, a record whose
    total is at least its own. *)
Lemma foldl_mergeMap_ge l m a :
  a ∈ l ->
  ∃ r, foldl mergeMap m l !! Key a = Some r
       ∧ entryTotalTokens a <= entryTotalTokens r.
Proof.
  revert m. induction l as [|e l IH]; intros m Hin.
  - by apply elem_of_nil in Hin.
  - apply elem_of_cons in Hin as [->|Hin]; simpl.
    + destruct (foldl_mergeMap_held_ge l (mergeMap m e) (Key e)
                  (winner (m !! Key e) e)) as (r & Hr & Hle).
      { by rewrite mergeMap_lookup, decide_True. }
      exists r. split; [done|].
      pose proof (winner_total_ge (m !! Key e) e). lia.
    + by apply IH.
Qed.

(** A record that strictly beats every other record of its key is the one
    held at the end, wherever it stands in the sequence. *)
Lemma foldl_mergeMap_max l m a :
  (a ∈ l ∨ m !! Key a = Some a) ->
  (∀ c, c ∈ l -> Key c = Key a ->
        c = a ∨ entryTotalTokens c < entryTotalTokens a) ->
  (∀ c, m !! Key a = Some c ->
        c = a ∨ entryTotalTokens c < entryTotalTokens a) ->
  foldl mergeMap m l !! Key a = Some a.
Proof.
  revert m. induction l as [|e l IH]; intros m Hin Hl Hm; simpl.
  - destruct Hin as [Hin|Hin]; [by apply elem_of_nil in Hin|done].
  - assert (Hl' : ∀ c, c ∈ l -> Key c = Key a ->
                       c = a ∨ entryTotalTokens c < entryTotalTokens a).
    { intros c Hc. apply Hl. by right. }
    destruct (decide (Key e = Key a)) as [He|He].
    + destruct (Hl e ltac:(by left) He) as [->|Hlt].
      * apply IH; [right| done |].
        -- rewrite mergeMap_lookup, decide_True by done.
           f_equal. unfold winner.
           destruct (m !! Key a) as [c|] eqn:Hc; [|done].
           destruct (Z.ltb_spec (entryTotalTokens c) (entryTotalTokens a));
             [done|].
           destruct (Hm c eq_refl) as [->|?]; [done|lia].
        -- intros c. rewrite mergeMap_lookup, decide_True by done.
           intros [= <-]. unfold winner.
           destruct (m !! Key a) as [c|] eqn:Hc; [|by left].
           destruct (Z.ltb_spec (entryTotalTokens c) (entryTotalTokens a));
             [by left|]. by apply Hm.
      * apply IH; [| done |].
        -- destruct Hin as [Hin|Hin].
           ++ apply elem_of_cons in Hin as [->|Hin]; [lia|by left].
           ++ right. rewrite mergeMap_lookup, decide_True by done.
              rewrite Hin. unfold winner.
              destruct (Z.ltb_spec (entryTotalTokens a) (entryTotalTokens e));
                [lia|done].
        -- intros c. rewrite mergeMap_lookup, decide_True by done.
           intros [= <-]. unfold winner.
           destruct (m !! Key a) as [c|] eqn:Hc; [|by right].
           destruct (Z.ltb_spec (entryTotalTokens c) (entryTotalTokens e));
             [by right|]. by apply Hm.
    + apply IH; [| done |].
      * destruct Hin as [Hin|Hin].
        -- apply elem_of_cons in Hin as [->|Hin]; [done|by left].
        -- right. by rewrite mergeMap_lookup, decide_False.
      * intros c. rewrite mergeMap_lookup, decide_False by done. apply Hm.
Qed.
End Merge.

(** ** The three phases as one fold *)

Section Phases.
Context (h : Host) (cache : CacheFile) (cacheValid : bool).

Lemma countHit_map st : (countHit st).1 = st.1.
Proof. by destruct st. Qed.

Lemma countMiss_map st : (countMiss st).1 = st.1.
Proof. by destruct st. Qed.

Lemma addLines_map n st : (addLines n st).1 = st.1.
Proof. by destruct st. Qed.

Lemma scanFile_map st path :
  (sc_all (scanFile h cache cacheValid st path)).1
  = foldl mergeMap (sc_all st).1 (hitEntries h cache cacheValid path).
Proof.
  unfold scanFile, hitEntries.
  destruct (os_Stat h path) as [[mtime size]|]; [|done].
  destruct (isHit cache cacheValid path mtime size) as [cached|]; simpl.
  - by rewrite mergeEntries_map, countHit_map.
  - by rewrite countMiss_map.
Qed.

Lemma scanFile_misses st path :
  sc_misses (scanFile h cache cacheValid st path)
  = sc_misses st ++ missOf h cache cacheValid path.
Proof.
  unfold scanFile, missOf.
  destruct (os_Stat h path) as [[mtime size]|]; simpl;
    [|by rewrite app_nil_r].
  destruct (isHit cache cacheValid path mtime size); simpl;
    [by rewrite app_nil_r|done].
Qed.

Lemma scanFile_existing st path :
  sc_existing (scanFile h cache cacheValid st path)
  = {[path]} ∪ sc_existing st.
Proof.
  unfold scanFile. destruct (os_Stat h path) as [[mtime size]|]; [|done].
  by destruct (isHit cache cacheValid path mtime size).
Qed.

Lemma foldl_scanFile files st :
  let st' := foldl (scanFile h cache cacheValid) st files in
  (sc_all st').1
  = foldl mergeMap (sc_all st).1
      (flat_map (hitEntries h cache cacheValid) files)
  ∧ sc_misses st'
    = sc_misses st ++ flat_map (missOf h cache cacheValid) files
  ∧ sc_existing st' = list_to_set files ∪ sc_existing st.
Proof.
  revert st. induction files as [|path files IH]; intros st; simpl.
  - split; [done|]. split; [by rewrite app_nil_r|set_solver].
  - destruct (IH (scanFile h cache cacheValid st path)) as (Ha & Hm & He).
    split; [|split].
    + rewrite Ha, scanFile_map. by rewrite foldl_app.
    + rewrite Hm, scanFile_misses. by rewrite <- app_assoc.
    + rewrite He, scanFile_existing. set_solver.
Qed.

Lemma phase1_map files :
  (sc_all (phase1 h cache cacheValid files)).1
  = foldl mergeMap ∅ (flat_map (hitEntries h cache cacheValid) files).
Proof. apply (foldl_scanFile files). Qed.

Lemma phase1_misses files :
  sc_misses (phase1 h cache cacheValid files)
  = flat_map (missOf h cache cacheValid) files.
Proof. apply (foldl_scanFile files). Qed.

Lemma phase1_existing files :
  sc_existing (phase1 h cache cacheValid files) = list_to_set files.
Proof.
  unfold phase1.
  destruct (foldl_scanFile files (mkScanState (∅, noCacheStats) [] ∅))
    as (_ & _ & He).
  rewrite He. simpl. set_solver.
Qed.

Lemma phase3_map results all cacheFiles :
  (phase3 all cacheFiles results).1.1
  = foldl mergeMap all.1 (flat_map res_entries results).
Proof.
  unfold phase3. revert all cacheFiles.
  induction results as [|r results IH]; intros all cacheFiles; [done|].
  simpl. rewrite IH, mergeEntries_map, addLines_map. by rewrite foldl_app.
Qed.

Lemma phase3_files results all cacheFiles :
  dom (phase3 all cacheFiles results).2
  = list_to_set (res_path <$> results) ∪ dom cacheFiles.
Proof.
  unfold phase3. revert all cacheFiles.
  induction results as [|r results IH]; intros all cacheFiles; simpl.
  - set_solver.
  - rewrite IH. simpl. rewrite dom_insert_L. set_solver.
Qed.

(** The map [processWithCacheLoaded] returns is the merge, from the empty
    map, of the records in the order they reach it. *)
Lemma out_entries_reaching files :
  out_entries (processWithCacheLoaded h files cache cacheValid)
  = foldl mergeMap ∅ (reaching h files cache cacheValid).
Proof.
  unfold processWithCacheLoaded, reaching.
  destruct (phase3 _ _ _) as [all cacheFiles] eqn:H3. simpl.
  change all.1 with (all, cacheFiles).1.1. rewrite <- H3.
  rewrite phase3_map, phase1_map, phase1_misses. by rewrite foldl_app.
Qed.
End Phases.

(** ** The merge rule: larger total wins; ties keep the earlier record *)

(** Two records [a] and [b] that reach the merge of
    [processWithCacheLoaded] under the same dedup key, [a] with the strictly
    greater [entryTotalTokens].  Merging the two in either order, from any
    state of the map, gives the same map; the final map holds under that key
    a record whose total is at least [a]'s, hence never [b]; and if [a]
    strictly beats every other record that reaches the merge under the key,
    the final map holds [a], and so does the merge of the same records taken
    in any other order. *)
Lemma greater_total_wins (h : Host) (files : list string)
    (cache : CacheFile) (cacheValid : bool) (a b : EntryData) :
  a ∈ reaching h files cache cacheValid ->
  b ∈ reaching h files cache cacheValid ->
  Key a = Key b ->
  entryTotalTokens b < entryTotalTokens a ->
  let final := out_entries (processWithCacheLoaded h files cache cacheValid) in
  (∀ st, (mergeEntry (mergeEntry st a) b).1 = (mergeEntry (mergeEntry st b) a).1)
  ∧ (mergeEntries (∅, noCacheStats) [a; b]).1 = {[Key a := a]}
  ∧ (mergeEntries (∅, noCacheStats) [b; a]).1 = {[Key a := a]}
  ∧ (∃ r, final !! Key a = Some r
          ∧ entryTotalTokens a <= entryTotalTokens r ∧ r ≠ b)
  ∧ ((∀ c, c ∈ reaching h files cache cacheValid -> Key c = Key a ->
           c = a ∨ entryTotalTokens c < entryTotalTokens a) ->
     final !! Key a = Some a
     ∧ ∀ l, l ≡ₚ reaching h files cache cacheValid ->
            (mergeEntries (∅, noCacheStats) l).1 !! Key a = Some a).
Proof.
  intros Ha Hb Hk Hlt final.
  split; [|split; [|split; [|split]]].
  - intros st. rewrite !mergeEntry_map. apply mergeMap_swap. right. left. lia.
  - rewrite mergeEntries_map. simpl. unfold mergeMap. rewrite <- Hk.
    rewrite lookup_empty, lookup_insert_eq, insert_insert_eq. simpl.
    destruct (Z.ltb_spec (entryTotalTokens a) (entryTotalTokens b)); [lia|done].
  - rewrite mergeEntries_map. simpl. unfold mergeMap. rewrite <- Hk.
    rewrite lookup_empty, lookup_insert_eq, insert_insert_eq. simpl.
    destruct (Z.ltb_spec (entryTotalTokens b) (entryTotalTokens a)); [done|lia].
  - subst final. rewrite out_entries_reaching.
    destruct (foldl_mergeMap_ge _ ∅ a Ha) as (r & Hr & Hle).
    exists r. split; [done|]. split; [done|]. intros ->. lia.
  - intros Hmax. split.
    + subst final. rewrite out_entries_reaching.
      apply foldl_mergeMap_max; [by left|done|].
      intros c. by rewrite lookup_empty.
    + intros l Hl. rewrite mergeEntries_map. simpl.
      apply foldl_mergeMap_max.
      * left. by rewrite Hl.
      * intros c Hc. apply Hmax. by rewrite <- Hl.
      * intros c. by rewrite lookup_empty.
Qed.

(** C1, as the code has it.  Two records [a] and [b] reach the merge of
    [processWithCacheLoaded] under the same dedup key; the sums of their
    four counters both lie in the range of Go's [int], and [a]'s sum is
    strictly greater.  Merging the two in either order, from any state of
    the map, gives the same map; the final map holds under that key a
    record whose total is at least [a]'s sum, hence never [b]; and if [a]'s
    sum strictly beats that of every other record that reaches the merge
    under the key, the final map holds [a], and so does the merge of the
    same records taken in any other order. *)
Theorem larger_total_wins_any_order (h : Host) (files : list string)
    (cache : CacheFile) (cacheValid : bool) (a b : EntryData) :
  a ∈ reaching h files cache cacheValid ->
  b ∈ reaching h files cache cacheValid ->
  Key a = Key b ->
  int_range (counterSum a) ->
  int_range (counterSum b) ->
  counterSum b < counterSum a ->
  let final := out_entries (processWithCacheLoaded h files cache cacheValid) in
  (∀ st, (mergeEntry (mergeEntry st a) b).1 = (mergeEntry (mergeEntry st b) a).1)
  ∧ (mergeEntries (∅, noCacheStats) [a; b]).1 = {[Key a := a]}
  ∧ (mergeEntries (∅, noCacheStats) [b; a]).1 = {[Key a := a]}
  ∧ (∃ r, final !! Key a = Some r
          ∧ counterSum a <= entryTotalTokens r ∧ r ≠ b)
  ∧ ((∀ c, c ∈ reaching h files cache cacheValid -> Key c = Key a ->
           c = a ∨ (int_range (counterSum c) ∧ counterSum c < counterSum a)) ->
     final !! Key a = Some a
     ∧ ∀ l, l ≡ₚ reaching h files cache cacheValid ->
            (mergeEntries (∅, noCacheStats) l).1 !! Key a = Some a).
Proof.
  intros Ha Hb Hk Hra Hrb Hlt final.
  assert (Hlt' : entryTotalTokens b < entryTotalTokens a)
    by (rewrite !entryTotalTokens_fits by done; lia).
  destruct (greater_total_wins h files cache cacheValid a b Ha Hb Hk Hlt')
    as (Hswap & Hab & Hba & (r & Hr & Hle & Hne) & Hmax).
  split; [done|]. split; [done|]. split; [done|]. split.
  - exists r. split; [done|]. split; [|done].
    by rewrite <- (entryTotalTokens_fits a).
  - intros Hbeats. apply Hmax. intros c Hc Hkc.
    destruct (Hbeats c Hc Hkc) as [->|[Hrc Hltc]]; [by left|right].
    rewrite !entryTotalTokens_fits by done. done.
Qed.

(** C10.  A record [e] arrives whose key already holds [existing] with the
    same total: the map and the counters, [conflicts] included, are left as
    they were.  Consequently, of two different records with the same key and
    the same total, each order of merging keeps the one merged first. *)
Theorem equal_totals_keep_earlier (st : gmap string EntryData * cacheStats)
    (existing e : EntryData) :
  st.1 !! Key e = Some existing ->
  entryTotalTokens e = entryTotalTokens existing ->
  mergeEntry st e = st
  ∧ (Key existing = Key e -> existing ≠ e ->
     (mergeEntries (∅, noCacheStats) [existing; e]).1 !! Key e = Some existing
     ∧ (mergeEntries (∅, noCacheStats) [e; existing]).1 !! Key e = Some e
     ∧ (mergeEntries (∅, noCacheStats) [existing; e]).1
       ≠ (mergeEntries (∅, noCacheStats) [e; existing]).1).
Proof.
  intros Hheld Heq. split.
  - destruct st as [m s]. simpl in Hheld. unfold mergeEntry. rewrite Hheld.
    destruct (Z.ltb_spec (entryTotalTokens existing) (entryTotalTokens e));
      [lia|done].
  - intros Hk Hne.
    assert (H1 : (mergeEntries (∅, noCacheStats) [existing; e]).1 !! Key e
                 = Some existing).
    { rewrite mergeEntries_map. simpl. rewrite !mergeMap_lookup.
      rewrite !decide_True by done. rewrite lookup_empty. simpl.
      destruct (Z.ltb_spec (entryTotalTokens existing) (entryTotalTokens e));
        [lia|done]. }
    assert (H2 : (mergeEntries (∅, noCacheStats) [e; existing]).1 !! Key e
                 = Some e).
    { rewrite mergeEntries_map. simpl. rewrite !mergeMap_lookup.
      rewrite !decide_True by done. rewrite lookup_empty. simpl.
      destruct (Z.ltb_spec (entryTotalTokens e) (entryTotalTokens existing));
        [lia|done]. }
    split; [done|]. split; [done|]. intros Heqm. rewrite Heqm in H1. congruence.
Qed.

(** ** The per-file parser *)

Section Parser.
Context (h : Host).

Lemma lineRecord_None entry :
  lineRecord h entry = None
  <-> Timestamp entry = ""
      ∨ (UsageInputTokens entry = 0 ∧ UsageOutputTokens entry = 0)
      ∨ MessageID entry = "" ∨ RequestID entry = ""
      ∨ local_date h (Timestamp entry) = None.
Proof.
  unfold lineRecord.
  destruct (String.eqb_spec (Timestamp entry) "") as [Ht|Ht]; simpl;
    [tauto|].
  destruct (Z.eqb_spec (UsageInputTokens entry) 0) as [Hi|Hi];
    destruct (Z.eqb_spec (UsageOutputTokens entry) 0) as [Ho|Ho]; simpl;
    try tauto;
    (destruct (String.eqb_spec (MessageID entry) "") as [Hm|Hm]; simpl;
     [tauto|];
     destruct (String.eqb_spec (RequestID entry) "") as [Hr|Hr]; simpl;
     [tauto|];
     destruct (local_date h (Timestamp entry)) as [date|]; [|tauto];
     split; [done|]; intros [?|[[? ?]|[?|[?|?]]]]; done).
Qed.

Lemma lineRecord_Key entry r :
  lineRecord h entry = Some r -> Key r = MessageID entry +:+ ":" +:+ RequestID entry.
Proof.
  unfold lineRecord.
  destruct (_ || _); [done|]. destruct (_ || _); [done|].
  destruct (local_date h (Timestamp entry)); [|done].
  by intros [= <-].
Qed.

(** What one iteration does to the map. *)
Lemma scanLine_entries entries stats line :
  (scanLine h (entries, stats) line).1
  = match lineCandidate h line with
    | None => entries
    | Some r =>
        match entries !! Key r with
        | Some _ => entries
        | None => <[Key r := r]> entries
        end
    end.
Proof.
  unfold scanLine, lineCandidate. destruct line as [entry|]; [|done].
  destruct (lineRecord h entry) as [r|]; [|done].
  by destruct (entries !! Key r).
Qed.

Lemma foldl_scanLine_lookup lines entries stats k :
  (foldl (scanLine h) (entries, stats) lines).1 !! k
  = match entries !! k with
    | Some x => Some x
    | None =>
        head (filter (fun r => Key r = k) (omap (lineCandidate h) lines))
    end.
Proof.
  revert entries stats. induction lines as [|line lines IH];
    intros entries stats.
  - simpl. by destruct (entries !! k).
  - change (foldl (scanLine h) (entries, stats) (line :: lines))
      with (foldl (scanLine h) (scanLine h (entries, stats) line) lines).
    change (omap (lineCandidate h) (line :: lines))
      with (match lineCandidate h line with
            | Some r => r :: omap (lineCandidate h) lines
            | None => omap (lineCandidate h) lines
            end).
    pose proof (scanLine_entries entries stats line) as Hstep.
    destruct (scanLine h (entries, stats) line) as [entries' stats'].
    simpl in Hstep. rewrite IH, Hstep.
    destruct (lineCandidate h line) as [r|]; [|done].
    rewrite filter_cons.
    destruct (entries !! Key r) as [y|] eqn:Hy.
    + destruct (decide (Key r = k)) as [<-|Hne]; [by rewrite Hy|done].
    + destruct (decide (Key r = k)) as [<-|Hne].
      * by rewrite lookup_insert_eq, Hy.
      * by rewrite lookup_insert_ne.
Qed.
End Parser.

(** C3, as the code has it.  A scanned line yields no candidate record
    exactly when it fails to parse as JSON, or its timestamp is empty, or
    its input and output token counts are both zero, or its message id or
    its request id is empty, or its timestamp is not an RFC 3339 time; every
    other line yields a candidate record.  A line without a candidate leaves
    the file's map as it was. *)
Theorem line_skipped_iff (h : Host) (line : option LogEntry) :
  (lineCandidate h line = None
   <-> line = None
       ∨ ∃ entry, line = Some entry
           ∧ (Timestamp entry = ""
              ∨ (UsageInputTokens entry = 0 ∧ UsageOutputTokens entry = 0)
              ∨ MessageID entry = "" ∨ RequestID entry = ""
              ∨ local_date h (Timestamp entry) = None))
  ∧ (is_Some (lineCandidate h line) <-> lineCandidate h line ≠ None)
  ∧ (∀ entries stats,
       lineCandidate h line = None ->
       (scanLine h (entries, stats) line).1 = entries).
Proof.
  split; [|split].
  - destruct line as [entry|]; simpl.
    + rewrite lineRecord_None. split.
      * intros H. right. by exists entry.
      * intros [?|(entry' & [= <-] & H)]; done.
    + split; [by left|done].
  - rewrite <- not_eq_None_Some. done.
  - intros entries stats Hnone. by rewrite scanLine_entries, Hnone.
Qed.

(** C8.  For every key, the map a file is parsed into holds the candidate
    record of the first line, in file order, whose candidate has that key;
    what later lines with the key carry plays no part. *)
Theorem first_occurrence_wins (h : Host) (path : string) (k : string) :
  (processFileForCache h path).1 !! k
  = head (filter (fun r => Key r = k)
            (omap (lineCandidate h) (default [] (os_Open h path)))).
Proof.
  unfold processFileForCache, scanLines.
  destruct (os_Open h path) as [lines|]; simpl.
  - by rewrite foldl_scanLine_lookup, lookup_empty.
  - by rewrite lookup_empty.
Qed.

(** ** Reconciliation: hits, misses, the dirty flag, unreadable files *)

Section Reconcile.
Context (h : Host) (cache : CacheFile) (cacheValid : bool).

Lemma isHit_Some path mtime size cached :
  isHit cache cacheValid path mtime size = Some cached
  <-> cacheValid = true ∧ Files cache !! path = Some cached
      ∧ ModTime cached = mtime ∧ Size cached = size.
Proof.
  unfold isHit. destruct (Files cache !! path) as [c|]; [|naive_solver].
  destruct cacheValid; simpl; [|naive_solver].
  destruct (Z.eqb_spec (ModTime c) mtime); simpl; [|naive_solver].
  destruct (Z.eqb_spec (Size c) size); naive_solver.
Qed.

Lemma isHit_None path mtime size :
  isHit cache cacheValid path mtime size = None
  <-> cacheValid = false ∨ Files cache !! path = None
      ∨ ∃ cached, Files cache !! path = Some cached
          ∧ (ModTime cached ≠ mtime ∨ Size cached ≠ size).
Proof.
  unfold isHit. destruct (Files cache !! path) as [c|]; [|naive_solver].
  destruct cacheValid; simpl; [|naive_solver].
  destruct (Z.eqb_spec (ModTime c) mtime); simpl; [|naive_solver].
  destruct (Z.eqb_spec (Size c) size); naive_solver.
Qed.

Lemma elem_of_missOf q path :
  q ∈ missOf h cache cacheValid path
  <-> ∃ mtime size, os_Stat h path = Some (mtime, size)
        ∧ isHit cache cacheValid path mtime size = None
        ∧ q = mkCacheMiss path mtime size.
Proof.
  unfold missOf. destruct (os_Stat h path) as [[mtime size]|].
  - destruct (isHit cache cacheValid path mtime size) eqn:Hhit.
    + rewrite elem_of_nil. split; [done|].
      intros (m & s & [= <- <-] & Hn & _). congruence.
    + rewrite list_elem_of_singleton. split.
      * intros ->. by exists mtime, size.
      * by intros (m & s & [= <- <-] & _ & ->).
  - rewrite elem_of_nil. split; [done|]. by intros (m & s & ? & _).
Qed.

(** The paths parsed again are the files that can be statted and are not
    hits. *)
Lemma elem_of_reparsed files path :
  path ∈ reparsed h files cache cacheValid
  <-> path ∈ files
      ∧ ∃ mtime size, os_Stat h path = Some (mtime, size)
          ∧ isHit cache cacheValid path mtime size = None.
Proof.
  unfold reparsed. rewrite phase1_misses, list_elem_of_fmap. split.
  - intros (q & -> & Hq). apply list_elem_of_In, in_flat_map in Hq.
    destruct Hq as (p & Hp & Hq).
    apply list_elem_of_In, elem_of_missOf in Hq.
    destruct Hq as (m & s & Hst & Hhit & ->). simpl.
    split; [by apply list_elem_of_In|]. by exists m, s.
  - intros (Hin & m & s & Hst & Hhit).
    exists (mkCacheMiss path m s). split; [done|].
    apply list_elem_of_In, in_flat_map. exists path.
    split; [by apply list_elem_of_In|].
    apply list_elem_of_In, elem_of_missOf. by exists m, s.
Qed.

Lemma mergeEntry_hits st e :
  hits (mergeEntry st e).2 = hits st.2
  ∧ misses (mergeEntry st e).2 = misses st.2.
Proof.
  destruct st as [m s]. unfold mergeEntry.
  destruct (m !! Key e) as [x|]; [|done].
  by destruct (entryTotalTokens x <? entryTotalTokens e)%Z.
Qed.

Lemma mergeEntries_hits st l :
  hits (mergeEntries st l).2 = hits st.2
  ∧ misses (mergeEntries st l).2 = misses st.2.
Proof.
  revert st. induction l as [|e l IH]; intros st; [done|].
  simpl. destruct (IH (mergeEntry st e)) as [-> ->]. apply mergeEntry_hits.
Qed.

(** [stats.hits] counts the files served from the cache, [stats.misses]
    the files parsed again. *)
Lemma foldl_scanFile_hits files st :
  let st' := foldl (scanFile h cache cacheValid) st files in
  hits (sc_all st').2
  = hits (sc_all st).2
    + Z.of_nat (length (filter
        (fun p => servedFromCache h cache cacheValid p = true) files)).
Proof.
  revert st. induction files as [|path files IH]; intros st.
  - simpl. lia.
  - change (foldl (scanFile h cache cacheValid) st (path :: files))
      with (foldl (scanFile h cache cacheValid)
              (scanFile h cache cacheValid st path) files).
    cbv zeta in IH |- *. rewrite IH, filter_cons.
    unfold scanFile, servedFromCache.
    destruct (os_Stat h path) as [[mtime size]|]; simpl.
    + destruct (isHit cache cacheValid path mtime size) as [cached|]; simpl.
      * destruct (mergeEntries_hits (countHit (sc_all st)) (Entries cached))
          as [-> _].
        destruct (sc_all st) as [m s]. simpl. lia.
      * destruct (sc_all st) as [m s]. simpl. lia.
    + lia.
Qed.

Lemma phase3_hits results all cacheFiles :
  hits (phase3 all cacheFiles results).1.2 = hits all.2.
Proof.
  unfold phase3. revert all cacheFiles.
  induction results as [|r results IH]; intros all cacheFiles; [done|].
  simpl. rewrite IH.
  destruct (mergeEntries_hits (addLines (LinesRead (res_stats r)) all)
              (res_entries r)) as [-> _].
  by destruct all.
Qed.

Lemma out_stats_hits files :
  hits (out_stats (processWithCacheLoaded h files cache cacheValid))
  = Z.of_nat (length (filter
      (fun p => servedFromCache h cache cacheValid p = true) files)).
Proof.
  unfold processWithCacheLoaded.
  destruct (phase3 _ _ _) as [all cacheFiles] eqn:H3. simpl.
  change all.2 with (all, cacheFiles).1.2. rewrite <- H3, phase3_hits.
  unfold phase1.
  pose proof (foldl_scanFile_hits files (mkScanState (∅, noCacheStats) [] ∅))
    as Hh. cbv zeta in Hh. rewrite Hh. simpl. lia.
Qed.

Lemma res_path_phase2 l : res_path <$> phase2 h l = miss_path <$> l.
Proof.
  unfold phase2. rewrite <- list_fmap_compose. apply list_fmap_ext.
  intros i q _. unfold parseMiss. simpl.
  by destruct (processFileForCache h (miss_path q)).
Qed.

(** The dirty flag. *)
Lemma out_dirty_iff files :
  out_dirty (processWithCacheLoaded h files cache cacheValid) = true
  <-> cacheValid = false
      ∨ (∃ path, path ∈ reparsed h files cache cacheValid)
      ∨ (∃ path, path ∈ dom (Files cache) ∧ path ∉ files).
Proof.
  unfold processWithCacheLoaded.
  destruct (phase3 _ _ _) as [all cacheFiles] eqn:H3. simpl.
  assert (Hdom : dom cacheFiles
                 = list_to_set (reparsed h files cache cacheValid)
                   ∪ dom (Files cache)).
  { change cacheFiles with (all, cacheFiles).2. rewrite <- H3.
    rewrite phase3_files, res_path_phase2. done. }
  rewrite !orb_true_iff, !negb_true_iff, bool_decide_eq_false.
  rewrite bool_decide_eq_true, Hdom, phase1_existing.
  assert (Hsub : ∀ p, p ∈ reparsed h files cache cacheValid -> p ∈ files).
  { intros p Hp. by apply elem_of_reparsed in Hp as [? _]. }
  split.
  - intros [[Hcv|Hm]|Hdel].
    + by left.
    + right. left. unfold reparsed.
      destruct (sc_misses (phase1 h cache cacheValid files)) as [|q l];
        [done|]. exists (miss_path q). simpl. by left.
    + right. right.
      destruct (decide (dom (Files cache) ⊆ list_to_set files)) as [Hs|Hs].
      * exfalso. apply Hdel. intros p Hp.
        apply elem_of_union in Hp as [Hp|Hp]; [|by apply Hs].
        apply elem_of_list_to_set in Hp. apply elem_of_list_to_set.
        by apply Hsub.
      * apply (not_set_Forall_Exists _) in Hs.
        destruct Hs as (p & Hp & Hnp). exists p. split; [done|].
        intros Hin. apply Hnp. by apply elem_of_list_to_set.
  - intros [Hcv|[(p & Hp)|(p & Hp & Hnp)]].
    + by left; left.
    + left. right. unfold reparsed in Hp. intros Hnil. rewrite Hnil in Hp.
      by apply elem_of_nil in Hp.
    + right. intros Hs. apply Hnp.
      assert (p ∈ (list_to_set files : gset string)) as Hin
        by (apply Hs; set_solver).
      by apply elem_of_list_to_set in Hin.
Qed.
End Reconcile.

Section Unreadable.
Context (h : Host) (cache : CacheFile) (cacheValid : bool).

Lemma processFileForCache_unopenable path :
  os_Open h path = None -> processFileForCache h path = (∅, noFileStats).
Proof. unfold processFileForCache. by intros ->. Qed.

Lemma range_entries_empty : range_entries h ∅ = [].
Proof.
  apply Permutation_nil_r. rewrite range_entries_perm.
  by rewrite map_to_list_empty.
Qed.

Lemma phase2_flat_map files :
  flat_map res_entries
    (phase2 h (flat_map (missOf h cache cacheValid) files))
  = flat_map
      (fun p => flat_map res_entries (phase2 h (missOf h cache cacheValid p)))
      files.
Proof.
  induction files as [|p files IH]; [done|].
  simpl. unfold phase2 in *. by rewrite fmap_app, flat_map_app, IH.
Qed.

Lemma flat_map_filter_nil {A B} (f : A -> list B) (P : A -> Prop)
    `{∀ x, Decision (P x)} (l : list A) :
  (∀ x, ¬ P x -> f x = []) -> flat_map f (filter P l) = flat_map f l.
Proof.
  intros Hnil. induction l as [|x l IH]; [done|].
  rewrite filter_cons. destruct (decide (P x)) as [Hx|Hx]; simpl.
  - by rewrite IH.
  - by rewrite IH, (Hnil x Hx).
Qed.

Lemma hitEntries_not_served path :
  servedFromCache h cache cacheValid path = false ->
  hitEntries h cache cacheValid path = [].
Proof.
  unfold servedFromCache, hitEntries.
  destruct (os_Stat h path) as [[mtime size]|]; [|done].
  by destruct (isHit cache cacheValid path mtime size).
Qed.

Lemma missEntries_unreadable path :
  readable h path = false ->
  flat_map res_entries (phase2 h (missOf h cache cacheValid path)) = [].
Proof.
  unfold readable, missOf.
  destruct (os_Stat h path) as [[mtime size]|]; [|done].
  destruct (os_Open h path) as [lines|] eqn:Hopen; [done|]. intros _.
  destruct (isHit cache cacheValid path mtime size); [done|].
  simpl. unfold parseMiss. simpl.
  rewrite (processFileForCache_unopenable path Hopen). simpl.
  by rewrite range_entries_empty.
Qed.

Lemma reaching_filter files :
  reaching h
    (filter (fun p => servedFromCache h cache cacheValid p || readable h p
                      = true) files) cache cacheValid
  = reaching h files cache cacheValid.
Proof.
  unfold reaching. rewrite !phase2_flat_map. f_equal.
  - apply flat_map_filter_nil. intros p Hp.
    apply not_true_is_false, orb_false_iff in Hp as [Hs _].
    by apply hitEntries_not_served.
  - apply (flat_map_filter_nil
             (fun p => flat_map res_entries
                         (phase2 h (missOf h cache cacheValid p)))).
    intros p Hp.
    apply not_true_is_false, orb_false_iff in Hp as [_ Hr].
    by apply missEntries_unreadable.
Qed.

Lemma servedFromCache_invalid path :
  cacheValid = false -> servedFromCache h cache cacheValid path = false.
Proof.
  intros ->. unfold servedFromCache, isHit.
  destruct (os_Stat h path) as [[mtime size]|]; [|done].
  by destruct (Files cache !! path).
Qed.
End Unreadable.

Lemma filter_none {A} (l : list A) : filter (fun _ => False) l = [].
Proof.
  induction l as [|x l IH]; [done|].
  rewrite filter_cons_False by (intros []). done.
Qed.

Lemma mainRun_processed h projects loaded :
  let r := mainRun h projects loaded in
  run_processed r
  = processWithCacheLoaded h (run_files r) (run_cache r) (run_valid r).
Proof.
  unfold mainRun.
  by destruct (findJSONLFiles h projects _) as [[files dStats] cache1].
Qed.

Lemma isCacheValid_mismatch h c :
  Version c ≠ CacheVersion ∨ Timezone c ≠ local_zone h ->
  isCacheValid h (Some c) = false.
Proof.
  unfold isCacheValid. intros [Hv|Ht].
  - by destruct (Z.eqb_spec (Version c) CacheVersion).
  - destruct (String.eqb_spec (Timezone c) (local_zone h)); [done|].
    by rewrite andb_false_r.
Qed.

Lemma mainRun_valid h projects loaded :
  run_valid (mainRun h projects loaded) = isCacheValid h loaded.
Proof.
  unfold mainRun.
  by destruct (findJSONLFiles h projects _) as [[files dStats] cache1].
Qed.

(** C4, as the code has it.  A discovered file whose metadata can be read is
    parsed again if and only if the cache is invalid, or the file has no
    cached entry, or the entry's stored modification time or size differs
    from the current one; a discovered file whose stat fails is left out of
    both the hits and the misses.  When the loaded cache has another format
    version or another timezone, the run counts no hit and parses again
    every discovered file whose metadata can be read. *)
Theorem reparse_iff_changed_or_invalid (h : Host) :
  (∀ files cache cacheValid path mtime size,
     path ∈ files -> os_Stat h path = Some (mtime, size) ->
     (path ∈ reparsed h files cache cacheValid
      <-> cacheValid = false ∨ Files cache !! path = None
          ∨ ∃ cached, Files cache !! path = Some cached
              ∧ (ModTime cached ≠ mtime ∨ Size cached ≠ size)))
  ∧ (∀ files cache cacheValid path,
       os_Stat h path = None ->
       (path ∉ reparsed h files cache cacheValid)
       ∧ servedFromCache h cache cacheValid path = false)
  ∧ (∀ projects c,
       Version c ≠ CacheVersion ∨ Timezone c ≠ local_zone h ->
       let r := mainRun h projects (Some c) in
       run_valid r = false
       ∧ hits (out_stats (run_processed r)) = 0
       ∧ ∀ path, path ∈ run_files r -> is_Some (os_Stat h path) ->
           path ∈ reparsed h (run_files r) (run_cache r) (run_valid r)).
Proof.
  split; [|split].
  - intros files cache cacheValid path mtime size Hin Hst.
    rewrite elem_of_reparsed, <- isHit_None. split.
    + intros (_ & m & s & Hst' & Hhit). congruence.
    + intros Hhit. split; [done|]. by exists mtime, size.
  - intros files cache cacheValid path Hst. split.
    + rewrite elem_of_reparsed. intros (_ & m & s & Hst' & _). congruence.
    + unfold servedFromCache. by rewrite Hst.
  - intros projects c Hmis r.
    assert (Hv : run_valid r = false).
    { subst r. rewrite mainRun_valid. by apply isCacheValid_mismatch. }
    split; [done|]. split.
    + subst r. rewrite mainRun_processed, out_stats_hits.
      rewrite (list_filter_iff _ (fun _ => False)).
      * by rewrite filter_none.
      * intros p. by rewrite servedFromCache_invalid.
    + intros path Hin [[m s] Hst]. rewrite elem_of_reparsed.
      split; [done|]. exists m, s. split; [done|].
      apply isHit_None. by left.
Qed.

(** C9, as the code has it.  Parsing a file that cannot be opened gives no
    record and no statistics, and there is no error to return.  The merged
    map is the one obtained from the files that are served from the cache or
    can be both statted and opened: a file whose stat fails, and a file that
    has to be parsed but cannot be opened, contribute nothing and leave the
    other files' contribution as it is.  A cache hit is never opened, so its
    stored records are merged whether or not the file can be opened; when
    nothing is served from the cache the merged map is the one over the
    readable files alone. *)
Theorem unreadable_files_contribute_nothing (h : Host) (files : list string)
    (cache : CacheFile) (cacheValid : bool) :
  (∀ path, os_Open h path = None ->
           processFileForCache h path = (∅, noFileStats))
  ∧ out_entries (processWithCacheLoaded h files cache cacheValid)
    = out_entries
        (processWithCacheLoaded h
           (filter (fun p => servedFromCache h cache cacheValid p
                             || readable h p = true) files)
           cache cacheValid)
  ∧ (cacheValid = false ->
     out_entries (processWithCacheLoaded h files cache cacheValid)
     = out_entries
         (processWithCacheLoaded h
            (filter (fun p => readable h p = true) files) cache cacheValid)).
Proof.
  split; [|split].
  - intros path. apply processFileForCache_unopenable.
  - by rewrite !out_entries_reaching, reaching_filter.
  - intros Hcv. rewrite !out_entries_reaching.
    rewrite <- (reaching_filter h cache cacheValid files). do 2 f_equal.
    apply list_filter_iff. intros p.
    by rewrite servedFromCache_invalid.
Qed.

(** ** The codec: header and string interning *)

Section Interning.
Implicit Types (st : internState) (tbl : list string).

Lemma internOK_empty : internOK (∅, []).
Proof. intros s i. simpl. by rewrite lookup_empty. Qed.

Lemma intern_spec st s st' i :
  internOK st -> intern st s = (st', i) ->
  internOK st' ∧ st.2 `prefix_of` st'.2
  ∧ 0 <= i ∧ st'.2 !! Z.to_nat i = Some s.
Proof.
  intros Hok. unfold intern.
  destruct (st.1 !! s) as [idx|] eqn:Hs; intros [= <- <-].
  - destruct (Hok s idx Hs) as [? ?]. done.
  - simpl. split; [|split; [|split]].
    + intros s' i'. simpl. rewrite lookup_insert.
      destruct (decide (s = s')) as [<-|Hne].
      * intros [= <-]. split; [lia|].
        rewrite Nat2Z.id. by rewrite lookup_app_r, Nat.sub_diag.
      * intros Hs'. destruct (Hok s' i' Hs') as [? Hl]. split; [done|].
        by apply lookup_app_l_Some.
    + by apply prefix_app_r.
    + lia.
    + rewrite Nat2Z.id. by rewrite lookup_app_r, Nat.sub_diag.
Qed.

Lemma tableAt_prefix tbl tbl' i s :
  0 <= i -> tbl !! Z.to_nat i = Some s -> tbl `prefix_of` tbl' ->
  tableAt tbl' i = s.
Proof.
  intros Hi Hl Hpre. unfold tableAt.
  pose proof (prefix_lookup_Some _ _ _ _ Hl Hpre) as Hl'.
  pose proof (lookup_lt_Some _ _ _ Hl') as Hlt.
  destruct (Z.leb_spec 0 i); [|lia].
  destruct (Z.ltb_spec i (Z.of_nat (length tbl'))); [|lia].
  simpl. by rewrite Hl'.
Qed.

Lemma encodeEntry_spec st e st' ee :
  internOK st -> encodeEntry st e = (st', ee) ->
  internOK st' ∧ st.2 `prefix_of` st'.2
  ∧ ∀ tbl, st'.2 `prefix_of` tbl -> decodeEntry tbl ee = e.
Proof.
  intros Hok. unfold encodeEntry.
  destruct (intern st (Date e)) as [st1 d] eqn:H1.
  destruct (intern st1 (Model e)) as [st2 m] eqn:H2.
  intros [= <- <-].
  destruct (intern_spec _ _ _ _ Hok H1) as (Hok1 & Hp1 & Hd & Hld).
  destruct (intern_spec _ _ _ _ Hok1 H2) as (Hok2 & Hp2 & Hm & Hlm).
  split; [done|]. split; [by etrans|].
  intros tbl Hpre. unfold decodeEntry. simpl.
  rewrite (tableAt_prefix st1.2 tbl d (Date e)); [|done|done|by etrans].
  rewrite (tableAt_prefix st2.2 tbl m (Model e)) by done.
  by destruct e.
Qed.

Lemma encodeEntries_spec l st st' ees :
  internOK st -> encodeEntries st l = (st', ees) ->
  internOK st' ∧ st.2 `prefix_of` st'.2
  ∧ ∀ tbl, st'.2 `prefix_of` tbl -> decodeEntry tbl <$> ees = l.
Proof.
  revert st st' ees. induction l as [|e l IH]; intros st st' ees Hok; simpl.
  - by intros [= <- <-].
  - destruct (encodeEntry st e) as [st1 ee] eqn:H1.
    destruct (encodeEntries st1 l) as [st2 ees'] eqn:H2.
    intros [= <- <-].
    destruct (encodeEntry_spec _ _ _ _ Hok H1) as (Hok1 & Hp1 & He).
    destruct (IH _ _ _ Hok1 H2) as (Hok2 & Hp2 & Hl).
    split; [done|]. split; [by etrans|].
    intros tbl Hpre. rewrite fmap_cons, Hl by done.
    rewrite He; [done|by etrans].
Qed.

Lemma encodeFile_spec acc orig kv :
  encodedAs acc orig ->
  encodedAs (encodeFile acc kv) (<[kv.1 := kv.2]> orig)
  ∧ acc.1.2 `prefix_of` (encodeFile acc kv).1.2.
Proof.
  destruct acc as [st files]. intros [Hok Hdec]. unfold encodeFile.
  destruct (encodeEntries st (Entries kv.2)) as [st' entries] eqn:He.
  destruct (encodeEntries_spec _ _ _ _ Hok He) as (Hok' & Hp & Hl).
  simpl in *. split; [split|]; [done| |done].
  intros tbl Hpre. simpl in *. rewrite fmap_insert. f_equal.
  - unfold decodeFile. simpl. rewrite Hl by done. by destruct (kv.2).
  - apply Hdec. by etrans.
Qed.

Lemma foldl_encodeFile_spec l acc orig :
  encodedAs acc orig ->
  encodedAs (foldl encodeFile acc l)
    (foldl (fun m kv => <[kv.1 := kv.2]> m) orig l)
  ∧ acc.1.2 `prefix_of` (foldl encodeFile acc l).1.2.
Proof.
  revert acc orig. induction l as [|kv l IH]; intros acc orig Hacc; [done|].
  simpl. destruct (encodeFile_spec acc orig kv Hacc) as [Hstep Hp].
  destruct (IH _ _ Hstep) as [Hrest Hp']. split; [done|by etrans].
Qed.

Lemma foldl_insert_perm (m : gmap string FileCacheEntry) l :
  l ≡ₚ map_to_list m -> foldl (fun m kv => <[kv.1 := kv.2]> m) ∅ l = m.
Proof.
  intros Hl.
  assert (Hrev : ∀ l' (m0 : gmap string FileCacheEntry),
             foldl (fun m kv => <[kv.1 := kv.2]> m) m0 l'
             = list_to_map (reverse l') ∪ m0).
  { induction l' as [|kv l' IH]; intros m0; simpl.
    - by rewrite (left_id_L ∅ (∪)).
    - rewrite IH, reverse_cons, list_to_map_app. simpl.
      rewrite <- (assoc_L (∪)). f_equal.
      rewrite insert_empty.
      by rewrite <- insert_union_singleton_l. }
  rewrite Hrev, (right_id_L ∅ (∪)).
  rewrite <- (list_to_map_to_list m). apply list_to_map_proper.
  - rewrite reverse_Permutation, Hl. apply NoDup_fst_map_to_list.
  - by rewrite reverse_Permutation.
Qed.
End Interning.

Lemma decodeCache_encodeCache (c : Codec) (cache : CacheFile) :
  decodeCache (Version cache) (encodeCache c cache) = cache.
Proof.
  unfold encodeCache.
  destruct (intern (∅, []) (Timezone cache)) as [st0 i0] eqn:H0.
  assert (Hst0 : st0 = ({[Timezone cache := 0]}, [Timezone cache])).
  { unfold intern in H0. simpl in H0. rewrite lookup_empty in H0.
    by injection H0 as <- _. }
  destruct (intern_spec _ _ _ _ internOK_empty H0) as (Hok0 & _ & _ & _).
  destruct (foldl_encodeFile_spec (range_files c (Files cache)) (st0, ∅) ∅)
    as [[Hok Hdec] Hpre].
  { split; [done|]. intros tbl _. simpl. by rewrite fmap_empty. }
  destruct (foldl encodeFile (st0, ∅) (range_files c (Files cache)))
    as [st files] eqn:Hfold.
  simpl in *. unfold decodeCache. simpl.
  rewrite Hdec by done.
  rewrite (foldl_insert_perm (Files cache)) by apply range_files_perm.
  subst st0. simpl in Hpre. destruct Hpre as [rest ->]. simpl.
  by destruct cache.
Qed.

Lemma decodeBytes_cacheBytes (c : Codec) (cache : CacheFile) :
  decodeBytes c (cacheBytes c cache)
  = Loaded (decodeCache CacheVersion (encodeCache c cache)).
Proof.
  unfold cacheBytes.
  change (cacheMagic ++ PutUint32 CacheVersion
          ++ gob_encode c (encodeCache c cache))
    with (x43 :: x43 :: x55 :: x47 :: x02 :: x00 :: x00 :: x00
          :: gob_encode c (encodeCache c cache))%byte.
  unfold decodeBytes.
  change (Uint32 x02 x00 x00 x00) with CacheVersion.
  simpl. by rewrite gob_roundtrip.
Qed.

(** C2.  A snapshot whose [Version] is the current format version, encoded
    to bytes as [saveCache] does, decodes to that very snapshot: the same
    entries under the same paths, with their modification times, sizes and
    records, field for field, the same manifest, the same [LastFullWalk] and
    the same timezone; and what a fault-free [saveCache] leaves on disk,
    [loadCache] reads back as that snapshot.  The empty snapshot is one such
    snapshot. *)
Theorem snapshot_roundtrip (c : Codec) (cache : CacheFile) :
  Version cache = CacheVersion ->
  decodeBytes c (cacheBytes c cache) = Loaded cache
  ∧ (∀ disk,
       (saveCache c noFaults cache disk).2 = false
       ∧ loadCache c (saveCache c noFaults cache disk).1 = Some cache)
  ∧ (Files cache = ∅ -> Dirs cache = ∅ ->
     decodeBytes c (cacheBytes c cache)
     = Loaded (mkCacheFile CacheVersion (Timezone cache) ∅ ∅
                 (LastFullWalk cache))).
Proof.
  intros Hv.
  assert (Hrt : decodeBytes c (cacheBytes c cache) = Loaded cache).
  { rewrite decodeBytes_cacheBytes, <- Hv. by rewrite decodeCache_encodeCache. }
  split; [done|]. split.
  - intros disk.
    change (saveCache c noFaults cache disk)
      with (mkCacheDisk (Some (cacheBytes c cache)) None None, false).
    split; [done|]. unfold loadCache. cbn [fst cache_bin]. by rewrite Hrt.
  - intros Hf Hd. rewrite Hrt. f_equal. destruct cache; simpl in *.
    by subst.
Qed.

(** C5 at its failing input.  The temporary file is written, the legacy
    file is removed, and then the rename fails: [saveCache] returns an
    error, [cache.bin] is what it was before the call, and the legacy file
    is gone. *)
Theorem legacy_removed_before_rename (c : Codec) (cache : CacheFile)
    (bin tmp : option (list byte)) (legacy : list byte) :
  saveCache c (mkFaults false false false false true) cache
    (mkCacheDisk bin tmp (Some legacy))
  = (mkCacheDisk bin (Some (cacheBytes c cache)) None, true).
Proof. reflexivity. Qed.

(** The rest of the ordering is as the specification has it: a save that
    fails before the temporary file is written leaves the legacy file in
    place, and a save that succeeds replaces [cache.bin] with the new
    bytes. *)
Lemma saveCache_early_failure (c : Codec) (f : Faults) (cache : CacheFile)
    (disk : CacheDisk) :
  MkdirAll_fails f = true ∨ Encode_fails f = true ∨ WriteFile_fails f = true ->
  saveCache c f cache disk = (disk, true).
Proof.
  unfold saveCache. intros [->|[->| ->]]; [done| |].
  - by destruct (MkdirAll_fails f).
  - by destruct (MkdirAll_fails f), (Encode_fails f).
Qed.

Lemma saveCache_success (c : Codec) (f : Faults) (cache : CacheFile)
    (disk : CacheDisk) :
  (saveCache c f cache disk).2 = false ->
  cache_bin (saveCache c f cache disk).1 = Some (cacheBytes c cache).
Proof.
  unfold saveCache.
  destruct (MkdirAll_fails f); [done|].
  destruct (Encode_fails f); [done|].
  destruct (WriteFile_fails f); [done|].
  destruct (Rename_fails f); [done|]. by destruct (Remove_fails f).
Qed.

(** ** Discovery *)

Lemma Node_induction (P : Node -> Prop) :
  P NFile ->
  (∀ info children, Forall (fun nc => P nc.2) children -> P (NDir info children)) ->
  ∀ n, P n.
Proof.
  intros Hfile Hdir. fix IH 1. intros [|info children].
  - exact Hfile.
  - apply Hdir. induction children as [|[name c] children IHc].
    + constructor.
    + constructor; [apply IH|apply IHc].
Qed.

Section Paths.
Lemma string_app_cons c s t : String c s +:+ t = String c (s +:+ t).
Proof. reflexivity. Qed.

Lemma string_app_nil_r s : s +:+ "" = s.
Proof. induction s as [|c s IH]; [done|]. by rewrite string_app_cons, IH. Qed.

Lemma string_app_assoc s t u : (s +:+ t) +:+ u = s +:+ (t +:+ u).
Proof.
  induction s as [|c s IH]; [done|]. by rewrite !string_app_cons, IH.
Qed.

(** A name without separator is determined by any path that starts with
    it and continues, if at all, with a separator. *)
Lemma name_unique n1 n2 r1 r2 :
  noSlash n1 = true -> noSlash n2 = true ->
  slashTail r1 -> slashTail r2 ->
  n1 +:+ r1 = n2 +:+ r2 -> n1 = n2.
Proof.
  revert n2. induction n1 as [|c1 n1 IH]; intros [|c2 n2] H1 H2 Hr1 Hr2 Heq.
  - done.
  - change ("" +:+ r1) with r1 in Heq. rewrite string_app_cons in Heq.
    destruct Hr1 as [->|[r ->]]; [done|]. injection Heq as <- _.
    simpl in H2. done.
  - change ("" +:+ r2) with r2 in Heq. rewrite string_app_cons in Heq.
    destruct Hr2 as [->|[r ->]]; [done|]. injection Heq as -> _.
    simpl in H1. done.
  - rewrite !string_app_cons in Heq. injection Heq as -> Heq.
    simpl in H1, H2. apply andb_true_iff in H1 as [_ H1].
    apply andb_true_iff in H2 as [_ H2].
    f_equal. by apply IH.
Qed.

Lemma filesOf_under n : ∀ path q,
  q ∈ filesOf path n -> ∃ rest, q = path +:+ rest ∧ slashTail rest.
Proof.
  induction n as [|info children IH] using Node_induction; intros path q.
  - simpl. destruct (HasSuffix path ".jsonl").
    + intros ->%list_elem_of_singleton. exists "".
      split; [by rewrite string_app_nil_r|by left].
    + by intros ?%elem_of_nil.
  - simpl. intros Hq. apply list_elem_of_In, in_flat_map in Hq.
    destruct Hq as ([name c] & Hin & Hq).
    apply list_elem_of_In in Hin.
    pose proof (proj1 (Forall_forall _ _) IH _ Hin) as IHc. simpl in IHc.
    apply list_elem_of_In, IHc in Hq. destruct Hq as (rest & -> & _).
    exists ("/" +:+ name +:+ rest). split; [|right; by eexists].
    unfold joinPath. by rewrite !string_app_assoc.
Qed.

Lemma filesOf_NoDup n : ∀ path, wfNode n = true -> NoDup (filesOf path n).
Proof.
  induction n as [|info children IH] using Node_induction; intros path.
  - intros _. simpl. destruct (HasSuffix path ".jsonl"); [|constructor].
    apply NoDup_singleton.
  - simpl. rewrite !andb_true_iff, bool_decide_eq_true.
    intros [[Hnd _] Hall]. clear info.
    induction children as [|[name c] children IHcs]; [constructor|].
    simpl in *. apply andb_true_iff in Hall as [Hc Hall].
    apply andb_true_iff in Hc as [Hname Hc].
    apply NoDup_cons in Hnd as [Hfresh Hnd].
    apply Forall_cons in IH as [IHc IH]. simpl in IHc.
    apply NoDup_app. split; [by apply IHc|]. split; [|by apply IHcs].
    intros q Hq1 Hq2.
    apply filesOf_under in Hq1 as (r1 & -> & Hr1).
    apply list_elem_of_In, in_flat_map in Hq2.
    destruct Hq2 as ([name' c'] & Hin' & Hq2).
    apply list_elem_of_In, filesOf_under in Hq2 as (r2 & Heq & Hr2).
    unfold joinPath in Heq. rewrite !string_app_assoc in Heq.
    apply (inj _), (inj (String.app "/")) in Heq.
    assert (Hname' : noSlash name' = true).
    { apply forallb_forall with (x := (name', c')) in Hall; [|done].
      by apply andb_true_iff in Hall as [? _]. }
    apply name_unique in Heq; [|done..]. subst name'.
    apply Hfresh. apply list_elem_of_fmap. exists (name, c').
    split; [done|]. by apply list_elem_of_In.
Qed.

Lemma walkDir_files n : ∀ path st,
  (walkDir path n st).1 = st.1 ++ filesOf path n.
Proof.
  induction n as [|info children IH] using Node_induction; intros path st.
  - simpl. destruct (HasSuffix path ".jsonl"); simpl; [done|].
    by rewrite app_nil_r.
  - simpl.
    match goal with
    | |- (?f children ?s).1 = _ ++ ?g =>
        assert (Hgen : ∀ s0 : walkState, (f children s0).1 = s0.1 ++ g);
          [|rewrite Hgen; by destruct info]
    end.
    clear st info. induction children as [|[name c] children IHcs];
      intros st; simpl.
    + by rewrite app_nil_r.
    + apply Forall_cons in IH as [IHc IH]. simpl in IHc.
      rewrite IHcs by done. rewrite IHc. by rewrite <- app_assoc.
Qed.
End Paths.

Section Discovery.
Context (h : Host).

Lemma fullWalkJSONL_files dir :
  (fullWalkJSONL h dir).1
  = match fs_tree h dir with Some n => filesOf dir n | None => [] end.
Proof.
  unfold fullWalkJSONL. destruct (fs_tree h dir) as [n|]; [|done].
  by rewrite walkDir_files.
Qed.

Lemma sortStrings_sorted l : Sorted String.le (sortStrings l).
Proof. apply (Sorted_merge_sort _). Qed.

Lemma sortStrings_perm l : sortStrings l ≡ₚ l.
Proof. apply merge_sort_Permutation. Qed.

Lemma sortStrings_elements_NoDup (X : gset string) :
  NoDup (sortStrings (elements X)).
Proof. rewrite sortStrings_perm. apply NoDup_elements. Qed.

Lemma warmStart_files cache :
  ∃ X : gset string, (warmStart h cache).1.1 = sortStrings (elements X).
Proof.
  unfold warmStart. destruct (foldl (walkRoot h) _ _) as [fileSet dirs1].
  by exists fileSet.
Qed.

Lemma warmStart_fullWalk cache : fullWalk (warmStart h cache).1.2 = false.
Proof.
  unfold warmStart. by destruct (foldl (walkRoot h) _ _) as [fileSet dirs1].
Qed.

Lemma findJSONLFiles_fullWalk dir cache :
  fullWalk (findJSONLFiles h dir cache).1.2 = needsFullWalk h cache.
Proof.
  unfold findJSONLFiles. destruct (needsFullWalk h cache) eqn:Hn.
  - by destruct (fullWalkJSONL h dir).
  - destruct cache as [c|]; [|done].
    pose proof (warmStart_fullWalk c) as Hw.
    by destruct (warmStart h c) as [[files st] c'].
Qed.

Lemma findJSONLFiles_full dir cache :
  needsFullWalk h cache = true ->
  (findJSONLFiles h dir cache).1.1 = (fullWalkJSONL h dir).1.
Proof.
  unfold findJSONLFiles. intros ->. by destruct (fullWalkJSONL h dir).
Qed.

Lemma findJSONLFiles_warm dir cache :
  needsFullWalk h cache = false ->
  ∃ c, cache = Some c
       ∧ (findJSONLFiles h dir cache).1 = (warmStart h c).1
       ∧ (findJSONLFiles h dir cache).2 = Some (warmStart h c).2.
Proof.
  unfold findJSONLFiles. intros Hn. rewrite Hn.
  destruct cache as [c|]; [|done]. exists c.
  by destruct (warmStart h c) as [r c'].
Qed.
End Discovery.

(** C6, as the code has it.  On a warm start the list [findJSONLFiles]
    returns is in ascending string order and has no duplicate.  After a full
    walk the list is what the walk met, in the order of the traversal, which
    descends into each directory before it goes on to the next name: over a
    tree whose directories list each name once it has no duplicate either,
    but it is not put in string order. *)
Theorem discovery_sorted_when_warm_nodup_always (h : Host) (dir : string)
    (cache : option CacheFile) :
  let files := (findJSONLFiles h dir cache).1.1 in
  let stats := (findJSONLFiles h dir cache).1.2 in
  (fullWalk stats = false -> Sorted String.le files ∧ NoDup files)
  ∧ (fullWalk stats = true ->
     files = match fs_tree h dir with Some n => filesOf dir n | None => [] end
     ∧ ((∀ n, fs_tree h dir = Some n -> wfNode n = true) -> NoDup files)).
Proof.
  intros files stats. subst files stats.
  rewrite findJSONLFiles_fullWalk. split.
  - intros Hn. destruct (findJSONLFiles_warm h dir cache Hn) as (c & _ & -> & _).
    destruct (warmStart_files h c) as [X ->].
    split; [apply sortStrings_sorted|apply sortStrings_elements_NoDup].
  - intros Hn. rewrite findJSONLFiles_full, fullWalkJSONL_files by done.
    split; [done|]. intros Hwf.
    destruct (fs_tree h dir) as [n|]; [|constructor].
    apply filesOf_NoDup. by apply Hwf.
Qed.

(** ** The decision to persist *)

Section Persist.
Context (h : Host).

Lemma minimalRoots_empty : minimalRoots ∅ = [].
Proof. unfold minimalRoots. by rewrite elements_empty. Qed.

Lemma warmStart_dirsChanged cache :
  dirsChanged (warmStart h cache).1.2
  = Z.of_nat (size (filter (fun kv => dirChanged h kv.1 kv.2 = true)
                      (Dirs cache))).
Proof.
  unfold warmStart. destruct (foldl (walkRoot h) _ _) as [fileSet dirs1].
  simpl. by rewrite size_dom.
Qed.

Lemma warmStart_Files cache : Files (warmStart h cache).2 = Files cache.
Proof.
  unfold warmStart. by destruct (foldl (walkRoot h) _ _) as [fileSet dirs1].
Qed.

(** With no manifested directory changed, a warm start leaves the
    manifest as it is. *)
Lemma warmStart_Dirs_unchanged cache :
  dirsChanged (warmStart h cache).1.2 = 0 ->
  Dirs (warmStart h cache).2 = Dirs cache.
Proof.
  rewrite warmStart_dirsChanged. intros Hz.
  assert (Hnone : filter (fun kv => dirChanged h kv.1 kv.2 = true)
                    (Dirs cache) = ∅).
  { apply map_size_empty_iff. lia. }
  unfold warmStart. rewrite Hnone, dom_empty_L, minimalRoots_empty. simpl.
  apply map_filter_id. intros d m Hd. simpl.
  destruct (dirChanged h d m) eqn:Hc.
  - assert (Hin : filter (fun kv => dirChanged h kv.1 kv.2 = true)
                    (Dirs cache) !! d = Some m)
      by (by apply map_lookup_filter_Some).
    rewrite Hnone in Hin. by rewrite lookup_empty in Hin.
  - unfold dirChanged in Hc. by destruct (os_Stat h d).
Qed.

Lemma warmStart_dirsChanged_pos cache :
  0 < dirsChanged (warmStart h cache).1.2
  <-> ∃ d m, Dirs cache !! d = Some m ∧ dirChanged h d m = true.
Proof.
  rewrite warmStart_dirsChanged. split.
  - intros Hpos.
    destruct (map_choose (filter (fun kv => dirChanged h kv.1 kv.2 = true)
                            (Dirs cache))) as (d & m & Hd).
    { intros Hempty. rewrite Hempty, map_size_empty in Hpos. lia. }
    apply map_lookup_filter_Some in Hd as [Hd Hc]. by exists d, m.
  - intros (d & m & Hd & Hc).
    assert (Hne : size (filter (fun kv => dirChanged h kv.1 kv.2 = true)
                          (Dirs cache)) ≠ 0%nat).
    { intros Hz%map_size_empty_iff.
      assert (Hin : filter (fun kv => dirChanged h kv.1 kv.2 = true)
                      (Dirs cache) !! d = Some m)
        by (by apply map_lookup_filter_Some).
      rewrite Hz in Hin. by rewrite lookup_empty in Hin. }
    lia.
Qed.

Lemma mainRun_unfold projects loaded :
  let cache := startCache h loaded in
  let d := findJSONLFiles h projects (Some cache) in
  let r := mainRun h projects loaded in
  run_valid r = isCacheValid h loaded
  ∧ run_manifest_before r = Dirs cache
  ∧ run_files r = d.1.1
  ∧ run_discovery r = d.1.2
  ∧ run_cache r = default cache d.2
  ∧ run_persist r
    = out_dirty (run_processed r) || fullWalk d.1.2
      || (0 <? dirsChanged d.1.2)%Z.
Proof.
  unfold mainRun.
  by destruct (findJSONLFiles h projects _) as [[files dStats] cache1].
Qed.

Lemma startCache_Files loaded :
  Files (startCache h loaded)
  = match loaded with
    | Some c => if isCacheValid h loaded then Files c else ∅
    | None => ∅
    end.
Proof.
  unfold startCache. destruct loaded as [c|]; [|done].
  by destruct (isCacheValid h (Some c)).
Qed.

Lemma findJSONLFiles_Files dir c :
  Files (default c (findJSONLFiles h dir (Some c)).2) = Files c.
Proof.
  unfold findJSONLFiles. destruct (needsFullWalk h (Some c)).
  - by destruct (fullWalkJSONL h dir).
  - pose proof (warmStart_Files c) as Hw.
    by destruct (warmStart h c) as [r c'].
Qed.
End Persist.

Lemma saveCache_noFaults (c : Codec) (cache : CacheFile) (disk : CacheDisk) :
  saveCache c noFaults cache disk
  = (mkCacheDisk (Some (cacheBytes c cache)) None None, false).
Proof. done. Qed.

Lemma saveCache_failure_keeps (c : Codec) (f : Faults) (cache : CacheFile)
    (disk : CacheDisk) :
  MkdirAll_fails f = true ∨ Encode_fails f = true
  ∨ WriteFile_fails f = true ∨ Rename_fails f = true ->
  cache_bin (saveCache c f cache disk).1 = cache_bin disk.
Proof.
  unfold saveCache.
  destruct (MkdirAll_fails f), (Encode_fails f), (WriteFile_fails f),
    (Remove_fails f), (Rename_fails f); simpl; naive_solver.
Qed.

(** C7, as the code has it.  The dirty flag is set if and only if the cache
    was absent or invalid at the start, or at least one file was a miss, or
    at least one file with a cached entry is not among the discovered files.
    The guard of [main]'s last step holds if and only if the dirty flag is
    set, or discovery made a full walk, or discovery found a manifested
    directory changed (its stat failed or its modification time differs).
    The cache directory is touched only when the guard holds; when it
    holds, [saveCache] is run on the cache the run leaves, which rewrites
    [cache.bin] if none of its steps fails and leaves [cache.bin] as it was
    otherwise, the error being discarded.  Whenever the manifest that
    discovery leaves differs from the one the run started with, the guard
    holds. *)
Theorem dirty_iff_and_persist_only_when (c : Codec) (f : Faults) (h : Host)
    (projects : string) (loaded : option CacheFile) (disk : CacheDisk) :
  let r := mainRun h projects loaded in
  let final := out_cache (run_processed r) in
  let after := mainDisk c f h projects loaded disk in
  (out_dirty (run_processed r) = true
   <-> run_valid r = false
       ∨ (∃ path, path ∈ reparsed h (run_files r) (run_cache r) (run_valid r))
       ∨ (∃ path, path ∈ dom (Files (startCache h loaded))
                  ∧ path ∉ run_files r))
  ∧ (run_persist r = true
     <-> out_dirty (run_processed r) = true
         ∨ fullWalk (run_discovery r) = true
         ∨ (fullWalk (run_discovery r) = false
            ∧ ∃ d m, run_manifest_before r !! d = Some m
                     ∧ dirChanged h d m = true))
  ∧ (after ≠ disk -> run_persist r = true)
  ∧ (run_persist r = true -> after = (saveCache c f final disk).1)
  ∧ (run_persist r = true ->
     MkdirAll_fails f = false -> Encode_fails f = false ->
     WriteFile_fails f = false -> Rename_fails f = false ->
     cache_bin after = Some (cacheBytes c final))
  ∧ (run_persist r = true ->
     MkdirAll_fails f = true ∨ Encode_fails f = true
     ∨ WriteFile_fails f = true ∨ Rename_fails f = true ->
     cache_bin after = cache_bin disk)
  ∧ (Dirs (run_cache r) ≠ run_manifest_before r -> run_persist r = true).
Proof.
  intros r final after.
  destruct (mainRun_unfold h projects loaded)
    as (Hvalid & Hbefore & Hfiles & Hdisc & Hcache & Hpersist).
  fold r in Hvalid, Hbefore, Hfiles, Hdisc, Hcache, Hpersist.
  pose proof (mainRun_processed h projects loaded) as Hproc.
  fold r in Hproc. cbv zeta in Hproc.
  pose proof (findJSONLFiles_fullWalk h projects (Some (startCache h loaded)))
    as Hfw.
  assert (Hafter : after = if run_persist r
                           then (saveCache c f final disk).1 else disk)
    by reflexivity.
  split; [|split; [|split; [|split; [|split; [|split]]]]].
  - rewrite Hproc, out_dirty_iff.
    by rewrite Hcache, findJSONLFiles_Files.
  - rewrite Hpersist, Hdisc, Hbefore, !orb_true_iff, Hfw.
    destruct (needsFullWalk h (Some (startCache h loaded))) eqn:Hfull.
    + split; intros _; [right; by left|left; by right].
    + destruct (findJSONLFiles_warm h projects _ Hfull)
        as (c0 & [= <-] & Hw & _).
      rewrite Hw, Z.ltb_lt, warmStart_dirsChanged_pos. naive_solver.
  - intros Hne. destruct (run_persist r); [done|]. by destruct Hne.
  - intros Hp. by rewrite Hafter, Hp.
  - intros Hp Hm He Hw Hr. rewrite Hafter, Hp.
    apply saveCache_success. unfold saveCache.
    by rewrite Hm, He, Hw, Hr.
  - intros Hp Hfail. rewrite Hafter, Hp. by apply saveCache_failure_keeps.
  - intros Hchanged. rewrite Hpersist, !orb_true_iff, Hfw.
    destruct (needsFullWalk h (Some (startCache h loaded))) eqn:Hfull.
    + left. by right.
    + right.
      destruct (findJSONLFiles_warm h projects _ Hfull)
        as (c0 & [= <-] & Hw & Hc).
      rewrite Hw. apply Z.ltb_lt.
      destruct (Z.eq_dec (dirsChanged (warmStart h (startCache h loaded)).1.2) 0)
        as [Hz|Hnz].
      * exfalso. apply Hchanged. rewrite Hcache, Hc, Hbefore. simpl.
        by apply warmStart_Dirs_unchanged.
      * rewrite warmStart_dirsChanged in *. lia.
Qed.

(** * Further properties of the reconciliation *)

Section MergedMap.
Implicit Types (m : gmap string EntryData) (e a b r : EntryData).
Implicit Types (l : list EntryData).

Lemma mergeMap_keyed m e : keyed m -> keyed (mergeMap m e).
Proof.
  intros Hm k r. rewrite mergeMap_lookup.
  destruct (decide (Key e = k)) as [<-|Hne]; [|apply Hm].
  intros [= <-]. unfold winner.
  destruct (m !! Key e) as [x|] eqn:Hx; [|done].
  destruct (entryTotalTokens x <? entryTotalTokens e)%Z; [done|].
  by apply Hm.
Qed.

Lemma foldl_mergeMap_keyed l m : keyed m -> keyed (foldl mergeMap m l).
Proof.
  revert m. induction l as [|e l IH]; intros m Hm; [done|].
  simpl. apply IH. by apply mergeMap_keyed.
Qed.

Lemma keyed_empty : keyed ∅.
Proof. intros k r. by rewrite lookup_empty. Qed.

(** What a key holds after a merge was either held before or is one of the
    merged records. *)
Lemma foldl_mergeMap_sourced l m k r :
  foldl mergeMap m l !! k = Some r -> m !! k = Some r ∨ (r ∈ l ∧ Key r = k).
Proof.
  revert m. induction l as [|e l IH]; intros m; simpl; [by left|].
  intros Hr. destruct (IH _ Hr) as [Hm|[Hin Hk]].
  - rewrite mergeMap_lookup in Hm.
    destruct (decide (Key e = k)) as [He|He]; [|by left].
    injection Hm as <-. unfold winner.
    destruct (m !! k) as [x|] eqn:Hx.
    + destruct (entryTotalTokens x <? entryTotalTokens e)%Z.
      * right. split; [by left|done].
      * by left.
    + right. split; [by left|done].
  - right. split; [by right|done].
Qed.

Lemma foldl_mergeMap_dom l m :
  dom (foldl mergeMap m l) = list_to_set (Key <$> l) ∪ dom m.
Proof.
  revert m. induction l as [|e l IH]; intros m; simpl.
  - set_solver.
  - rewrite IH. unfold mergeMap. rewrite dom_insert_L. set_solver.
Qed.

(** What a key holds at the end is no smaller than anything merged under
    that key. *)
Lemma foldl_mergeMap_upper l m k r e :
  foldl mergeMap m l !! k = Some r -> e ∈ l -> Key e = k ->
  entryTotalTokens e <= entryTotalTokens r.
Proof.
  intros Hr He Hk. subst k.
  destruct (foldl_mergeMap_ge l m e He) as (r' & Hr' & Hle). congruence.
Qed.

(** Without ties the merged map does not depend on the order of the
    records. *)
Lemma foldl_mergeMap_perm l l' :
  l ≡ₚ l' -> tieFree l -> ∀ m, foldl mergeMap m l = foldl mergeMap m l'.
Proof.
  induction 1 as [|x l l' Hp IH|x y l|l1 l2 l3 H12 IH12 H23 IH23];
    intros Htf m.
  - done.
  - simpl. apply IH. intros a b Ha Hb. apply Htf; by right.
  - simpl. f_equal. apply mergeMap_swap.
    destruct (decide (Key y = Key x)) as [Hk|Hk]; [|by left].
    destruct (decide (entryTotalTokens y = entryTotalTokens x)) as [Ht|Ht];
      [|right; by left].
    right. right. apply Htf; [by left|right; by left|done..].
  - rewrite IH12 by done. apply IH23.
    intros a b Ha Hb. apply Htf; by rewrite H12.
Qed.
End MergedMap.

Section AfterReconciliation.
Context (h : Host) (cache : CacheFile) (cacheValid : bool).

Lemma countHit_stats st :
  (countHit st).2
  = mkCacheStats (hits st.2 + 1) (misses st.2) (totalLines st.2)
      (totalNew st.2) (conflicts st.2).
Proof. by destruct st. Qed.

Lemma reaching_split files :
  reaching h files cache cacheValid
  = flat_map (hitEntries h cache cacheValid) files
    ++ flat_map (missEntries h cache cacheValid) files.
Proof. unfold reaching, missEntries. by rewrite phase2_flat_map. Qed.

(** A file contributes in one phase only. *)
Lemma hit_or_miss path :
  hitEntries h cache cacheValid path = []
  ∨ missOf h cache cacheValid path = [].
Proof.
  unfold hitEntries, missOf.
  destruct (os_Stat h path) as [[mtime size]|]; [|by left].
  destruct (isHit cache cacheValid path mtime size); [by right|by left].
Qed.
End AfterReconciliation.

Section Statistics.
Context (h : Host) (cache : CacheFile) (cacheValid : bool).
Implicit Types (st : gmap string EntryData * cacheStats).

(** What the merge step keeps true of the counters: [totalNew] is the
    number of keys, and every merged record is counted at most once, as new
    or as a conflict. *)
Lemma mergeEntry_counters st e :
  let st' := mergeEntry st e in
  totalNew st'.2 - Z.of_nat (size st'.1) = totalNew st.2 - Z.of_nat (size st.1)
  ∧ totalLines st'.2 = totalLines st.2
  ∧ conflicts st.2 <= conflicts st'.2
  ∧ conflicts st'.2 + totalNew st'.2 <= conflicts st.2 + totalNew st.2 + 1.
Proof.
  destruct st as [m s]. unfold mergeEntry. simpl.
  destruct (m !! Key e) as [x|] eqn:Hx.
  - destruct (entryTotalTokens x <? entryTotalTokens e)%Z; simpl.
    + rewrite map_size_insert_Some by (by eexists). lia.
    + lia.
  - simpl. rewrite map_size_insert_None by done. lia.
Qed.

Lemma mergeEntries_counters l st :
  let st' := mergeEntries st l in
  totalNew st'.2 - Z.of_nat (size st'.1) = totalNew st.2 - Z.of_nat (size st.1)
  ∧ totalLines st'.2 = totalLines st.2
  ∧ conflicts st.2 <= conflicts st'.2
  ∧ conflicts st'.2 + totalNew st'.2
    <= conflicts st.2 + totalNew st.2 + Z.of_nat (length l).
Proof.
  revert st. induction l as [|e l IH]; intros st.
  - simpl. lia.
  - change (mergeEntries st (e :: l)) with (mergeEntries (mergeEntry st e) l).
    cbv zeta in IH |- *.
    destruct (IH (mergeEntry st e)) as (H1 & H2 & H3 & H4).
    destruct (mergeEntry_counters st e) as (G1 & G2 & G3 & G4).
    simpl length. lia.
Qed.

Lemma counted_mergeEntries st l nMisses nMerged lines :
  counted st nMisses nMerged lines ->
  counted (mergeEntries st l) nMisses (nMerged + length l) lines.
Proof.
  intros (Hm & Hn & Hl & Hc & Hs). unfold counted.
  destruct (mergeEntries_counters l st) as (H1 & H2 & H3 & H4).
  destruct (mergeEntries_hits st l) as [_ H5].
  cbv zeta in *. rewrite H5, H2. lia.
Qed.

Lemma scanFile_counted sc path nMerged :
  counted (sc_all sc) (length (sc_misses sc)) nMerged 0 ->
  counted (sc_all (scanFile h cache cacheValid sc path))
    (length (sc_misses (scanFile h cache cacheValid sc path)))
    (nMerged + length (hitEntries h cache cacheValid path)) 0.
Proof.
  intros Hc. unfold scanFile, hitEntries.
  destruct (os_Stat h path) as [[mtime size]|]; simpl.
  - destruct (isHit cache cacheValid path mtime size) as [cached|]; simpl.
    + apply counted_mergeEntries.
      destruct (sc_all sc) as [m s]. exact Hc.
    + rewrite length_app. simpl.
      destruct (sc_all sc) as [m s]. destruct Hc as (Hm & Hn & Hl & Hc & Hs).
      unfold counted in *. simpl in *. lia.
  - by rewrite Nat.add_0_r.
Qed.

Lemma phase1_counted files :
  counted (sc_all (phase1 h cache cacheValid files))
    (length (sc_misses (phase1 h cache cacheValid files)))
    (length (flat_map (hitEntries h cache cacheValid) files)) 0.
Proof.
  unfold phase1.
  assert (Hgen : ∀ sc n,
            counted (sc_all sc) (length (sc_misses sc)) n 0 ->
            counted (sc_all (foldl (scanFile h cache cacheValid) sc files))
              (length (sc_misses (foldl (scanFile h cache cacheValid) sc files)))
              (n + length (flat_map (hitEntries h cache cacheValid) files)) 0).
  { induction files as [|path files IH]; intros sc n Hc; simpl.
    - by rewrite Nat.add_0_r.
    - rewrite length_app, Nat.add_assoc. apply IH.
      by apply scanFile_counted. }
  apply (Hgen _ 0%nat). unfold counted. simpl. rewrite map_size_empty. lia.
Qed.

Lemma phase3_counted results all cacheFiles nMisses nMerged lines :
  counted all nMisses nMerged lines ->
  counted (phase3 all cacheFiles results).1 nMisses
    (nMerged + length (flat_map res_entries results))
    (lines + Zsum ((fun r => LinesRead (res_stats r)) <$> results)).
Proof.
  unfold phase3. revert all cacheFiles nMerged lines.
  induction results as [|r results IH]; intros all cacheFiles nMerged lines Hc.
  - simpl. by rewrite Nat.add_0_r, Z.add_0_r.
  - simpl. rewrite length_app, Nat.add_assoc.
    rewrite Z.add_assoc.
    apply IH. apply counted_mergeEntries.
    destruct all as [m s]. destruct Hc as (Hm & Hn & Hl & Hc & Hs).
    unfold counted in *. simpl in *. lia.
Qed.

Lemma served_or_miss_count files :
  (length (filter (fun p => servedFromCache h cache cacheValid p = true) files)
   + length (flat_map (missOf h cache cacheValid) files))%nat
  = length (filter (fun p => statable h p = true) files).
Proof.
  induction files as [|path files IH]; [done|].
  rewrite !filter_cons. simpl flat_map. rewrite length_app.
  unfold servedFromCache, missOf, statable in *.
  destruct (os_Stat h path) as [[mtime size]|]; simpl.
  - destruct (isHit cache cacheValid path mtime size); simpl; lia.
  - lia.
Qed.

Lemma out_stats_counted files :
  counted
    (out_entries (processWithCacheLoaded h files cache cacheValid),
     out_stats (processWithCacheLoaded h files cache cacheValid))
    (length (reparsed h files cache cacheValid))
    (length (reaching h files cache cacheValid))
    (Zsum ((fun p => LinesRead (processFileForCache h p).2)
             <$> reparsed h files cache cacheValid)).
Proof.
  unfold processWithCacheLoaded.
  destruct (phase3 _ _ _) as [all cacheFiles] eqn:H3. simpl.
  assert (Hall : all = (phase3 (sc_all (phase1 h cache cacheValid files))
                          (Files cache)
                          (phase2 h (sc_misses (phase1 h cache cacheValid files)))).1)
    by (by rewrite H3).
  replace (all.1, all.2) with all by (by destruct all). rewrite Hall.
  pose proof (phase3_counted
                (phase2 h (sc_misses (phase1 h cache cacheValid files)))
                _ (Files cache) _ _ _ (phase1_counted files)) as Hc.
  unfold reparsed, reaching. rewrite length_fmap, length_app.
  rewrite <- (phase1_misses h cache cacheValid files).
  replace (Zsum ((fun p => LinesRead (processFileForCache h p).2)
                   <$> (miss_path
                          <$> sc_misses (phase1 h cache cacheValid files))))
    with (0 + Zsum ((fun r => LinesRead (res_stats r))
                      <$> phase2 h (sc_misses (phase1 h cache cacheValid files))));
    [done|].
  rewrite Z.add_0_l. f_equal. unfold phase2.
  rewrite <- !list_fmap_compose. apply list_fmap_ext. intros i q _. simpl.
  unfold parseMiss. by destruct (processFileForCache h (miss_path q)).
Qed.
End Statistics.

(** X1.  The keys of the map [processWithCacheLoaded] returns are exactly
    the keys of the records that reached the merge; and whatever the map
    holds under a key is a record that reached the merge, carries that key,
    and has a total no smaller than that of any record that reached the
    merge under the key. *)
Theorem merged_record_is_a_maximum (h : Host) (files : list string)
    (cache : CacheFile) (cacheValid : bool) :
  let final := out_entries (processWithCacheLoaded h files cache cacheValid) in
  dom final = list_to_set (Key <$> reaching h files cache cacheValid)
  ∧ ∀ k r, final !! k = Some r ->
      Key r = k
      ∧ r ∈ reaching h files cache cacheValid
      ∧ (∀ e, e ∈ reaching h files cache cacheValid -> Key e = k ->
              entryTotalTokens e <= entryTotalTokens r).
Proof.
  intros final. subst final. rewrite out_entries_reaching. split.
  - rewrite foldl_mergeMap_dom. set_solver.
  - intros k r Hr. split; [|split].
    + exact (foldl_mergeMap_keyed _ ∅ keyed_empty k r Hr).
    + destruct (foldl_mergeMap_sourced _ _ _ _ Hr) as [He|[Hin _]]; [|done].
      by rewrite lookup_empty in He.
    + intros e He Hk. exact (foldl_mergeMap_upper _ ∅ k r e Hr He Hk).
Qed.

(** X2.  The statistics of a reconciliation: [hits] counts the files served
    from the cache and [misses] the files parsed again, together the files
    whose stat succeeds; [totalNew] is the number of keys in the merged map;
    [totalLines] adds up the lines read in the parsed files; and [conflicts]
    is at most the number of merged records that did not open a new key. *)
Theorem reconciliation_statistics (h : Host) (files : list string)
    (cache : CacheFile) (cacheValid : bool) :
  let p := processWithCacheLoaded h files cache cacheValid in
  hits (out_stats p)
  = Z.of_nat (length (filter (fun f => servedFromCache h cache cacheValid f
                                       = true) files))
  ∧ misses (out_stats p)
    = Z.of_nat (length (reparsed h files cache cacheValid))
  ∧ hits (out_stats p) + misses (out_stats p)
    = Z.of_nat (length (filter (fun f => statable h f = true) files))
  ∧ totalNew (out_stats p) = Z.of_nat (size (out_entries p))
  ∧ totalLines (out_stats p)
    = Zsum ((fun f => LinesRead (processFileForCache h f).2)
              <$> reparsed h files cache cacheValid)
  ∧ 0 <= conflicts (out_stats p)
       <= Z.of_nat (length (reaching h files cache cacheValid))
          - Z.of_nat (size (out_entries p)).
Proof.
  intros p. subst p.
  destruct (out_stats_counted h cache cacheValid files)
    as (Hm & Hn & Hl & Hc & Hs). simpl in *.
  pose proof (out_stats_hits h cache cacheValid files) as Hh.
  pose proof (served_or_miss_count h cache cacheValid files) as Hsm.
  assert (Hlen : length (reparsed h files cache cacheValid)
                 = length (flat_map (missOf h cache cacheValid) files)).
  { unfold reparsed. by rewrite length_fmap, phase1_misses. }
  repeat split; try done; lia.
Qed.

Section CacheAfter.
Context (h : Host) (cache : CacheFile) (cacheValid : bool).

Lemma phase3_lookup results all cacheFiles p E :
  (∀ r, r ∈ results -> res_path r = p ->
        mkFileCacheEntry (res_mtime r) (res_size r) (res_entries r) = E) ->
  (phase3 all cacheFiles results).2 !! p
  = if decide (p ∈ res_path <$> results) then Some E else cacheFiles !! p.
Proof.
  unfold phase3. revert all cacheFiles.
  induction results as [|r results IH]; intros all cacheFiles HE.
  - destruct (decide (p ∈ res_path <$> [])) as [Hin|Hnin];
      [by apply elem_of_nil in Hin|done].
  - change (foldl mergeResult (all, cacheFiles) (r :: results))
      with (foldl mergeResult (mergeResult (all, cacheFiles) r) results).
    unfold mergeResult at 2. rewrite IH by (intros r' Hr'; apply HE; by right).
    rewrite fmap_cons.
    destruct (decide (p ∈ res_path <$> results)) as [Hin|Hnin].
    + rewrite decide_True; [done|]. by right.
    + destruct (decide (res_path r = p)) as [Hp|Hp].
      * rewrite decide_True by (rewrite <- Hp; by left).
        rewrite Hp, lookup_insert_eq. f_equal. apply HE; [by left|done].
      * rewrite lookup_insert_ne by done.
        rewrite decide_False; [done|].
        intros [Heq|Hin]%elem_of_cons; [by apply Hp|by apply Hnin].
Qed.

Lemma elem_of_phase2_misses files r :
  r ∈ phase2 h (flat_map (missOf h cache cacheValid) files) ->
  ∃ mtime size,
    os_Stat h (res_path r) = Some (mtime, size)
    ∧ isHit cache cacheValid (res_path r) mtime size = None
    ∧ mkFileCacheEntry (res_mtime r) (res_size r) (res_entries r)
      = parsedEntry h (res_path r) mtime size.
Proof.
  unfold phase2. intros (q & -> & Hq)%list_elem_of_fmap.
  apply list_elem_of_In, in_flat_map in Hq. destruct Hq as (p & _ & Hq).
  apply list_elem_of_In, elem_of_missOf in Hq.
  destruct Hq as (m & s & Hst & Hhit & ->).
  exists m, s. unfold parseMiss, parsedEntry.
  destruct (processFileForCache h (miss_path _)) as [entries fStats] eqn:Hparse.
  simpl in *. by rewrite Hparse.
Qed.

(** The entry the cache holds for a path once the call is over. *)
Lemma out_cache_lookup files p :
  Files (out_cache (processWithCacheLoaded h files cache cacheValid)) !! p
  = if decide (p ∈ files) then
      if decide (p ∈ reparsed h files cache cacheValid) then
        match os_Stat h p with
        | Some (mtime, size) => Some (parsedEntry h p mtime size)
        | None => None
        end
      else Files cache !! p
    else None.
Proof.
  unfold processWithCacheLoaded.
  destruct (phase3 _ _ _) as [all cacheFiles] eqn:H3. simpl.
  assert (Hcf : cacheFiles
                = (phase3 (sc_all (phase1 h cache cacheValid files))
                     (Files cache)
                     (phase2 h (sc_misses (phase1 h cache cacheValid files)))).2)
    by (by rewrite H3).
  rewrite phase1_existing.
  assert (Hpaths : res_path
                     <$> phase2 h (sc_misses (phase1 h cache cacheValid files))
                   = reparsed h files cache cacheValid)
    by apply res_path_phase2.
  destruct (decide (p ∈ files)) as [Hin|Hnin].
  - assert (Hkept : filter (fun kv : string * FileCacheEntry =>
                              kv.1 ∈ (list_to_set files : gset string))
                      cacheFiles !! p = cacheFiles !! p).
    { apply option_eq. intros x. rewrite map_lookup_filter_Some. simpl.
      rewrite elem_of_list_to_set. naive_solver. }
    rewrite Hkept, Hcf.
    destruct (os_Stat h p) as [[mtime size]|] eqn:Hst.
    + rewrite (phase3_lookup _ _ _ p (parsedEntry h p mtime size)).
      * by rewrite Hpaths.
      * intros r Hr Hp. rewrite phase1_misses in Hr.
        apply elem_of_phase2_misses in Hr as (m & s & Hst' & _ & ->).
        rewrite Hp in Hst' |- *. congruence.
    + rewrite (phase3_lookup _ _ _ p (mkFileCacheEntry 0 0 [])).
      * rewrite Hpaths. destruct (decide (p ∈ reparsed _ _ _ _)) as [Hr|]; [|done].
        apply elem_of_reparsed in Hr as (_ & m & s & Hst' & _). congruence.
      * intros r Hr Hp. rewrite phase1_misses in Hr.
        apply elem_of_phase2_misses in Hr as (m & s & Hst' & _).
        rewrite Hp in Hst'. congruence.
  - apply map_lookup_filter_None. right. intros x _. simpl.
    by rewrite elem_of_list_to_set.
Qed.

Lemma out_cache_fields files :
  let c' := out_cache (processWithCacheLoaded h files cache cacheValid) in
  Version c' = Version cache ∧ Timezone c' = Timezone cache
  ∧ Dirs c' = Dirs cache ∧ LastFullWalk c' = LastFullWalk cache.
Proof.
  unfold processWithCacheLoaded. by destruct (phase3 _ _ _) as [all cacheFiles].
Qed.
End CacheAfter.

(** X3.  The cache as [processWithCacheLoaded] leaves it.  A path that is
    not among the files has no entry; a file that was parsed again has an
    entry with its current modification time and size and the records just
    parsed; every other file keeps the entry it had, if any.  Version,
    timezone, manifest and [LastFullWalk] are not touched. *)
Theorem cache_after_reconciliation (h : Host) (files : list string)
    (cache : CacheFile) (cacheValid : bool) (path : string) :
  let after := out_cache (processWithCacheLoaded h files cache cacheValid) in
  (path ∉ files -> Files after !! path = None)
  ∧ (path ∈ files -> path ∉ reparsed h files cache cacheValid ->
     Files after !! path = Files cache !! path)
  ∧ (path ∈ reparsed h files cache cacheValid ->
     ∃ mtime size,
       os_Stat h path = Some (mtime, size)
       ∧ Files after !! path
         = Some (mkFileCacheEntry mtime size
                   (range_entries h (processFileForCache h path).1)))
  ∧ Version after = Version cache ∧ Timezone after = Timezone cache
  ∧ Dirs after = Dirs cache ∧ LastFullWalk after = LastFullWalk cache.
Proof.
  intros after. subst after.
  pose proof (out_cache_lookup h cache cacheValid files path) as Hl.
  split; [|split; [|split]].
  - intros Hnin. by rewrite Hl, decide_False.
  - intros Hin Hnr. by rewrite Hl, decide_True, decide_False.
  - intros Hr. pose proof Hr as Hr'.
    apply elem_of_reparsed in Hr' as (Hin & m & s & Hst & _).
    exists m, s. split; [done|].
    by rewrite Hl, decide_True, decide_True, Hst.
  - apply out_cache_fields.
Qed.

Section SecondRun.
Context (h : Host) (cache : CacheFile) (cacheValid : bool).

Lemma flat_map_ext_elem {A B} (f g : A -> list B) (l : list A) :
  (∀ x, x ∈ l -> f x = g x) -> flat_map f l = flat_map g l.
Proof.
  induction l as [|x l IH]; intros Hfg; [done|].
  simpl. rewrite (Hfg x) by (by left). rewrite IH; [done|].
  intros y Hy. apply Hfg. by right.
Qed.

Lemma flat_map_app_perm {A B} (f g : A -> list B) (l : list A) :
  flat_map (fun x => f x ++ g x) l ≡ₚ flat_map f l ++ flat_map g l.
Proof.
  induction l as [|x l IH]; [done|].
  simpl. rewrite IH. rewrite <- !app_assoc. apply Permutation_app_head.
  rewrite !app_assoc. apply Permutation_app_tail. apply Permutation_app_comm.
Qed.

Lemma missEntries_single path mtime size :
  missOf h cache cacheValid path = [mkCacheMiss path mtime size] ->
  missEntries h cache cacheValid path
  = range_entries h (processFileForCache h path).1.
Proof.
  unfold missEntries. intros ->. simpl. rewrite app_nil_r.
  unfold parseMiss. simpl.
  by destruct (processFileForCache h path) as [entries fStats].
Qed.

(** Run again on the cache the first call left, a file is served from the
    cache with exactly what it contributed the first time. *)
Lemma second_run_file files path :
  path ∈ files ->
  let c2 := out_cache (processWithCacheLoaded h files cache cacheValid) in
  missOf h c2 true path = []
  ∧ hitEntries h c2 true path
    = hitEntries h cache cacheValid path ++ missEntries h cache cacheValid path.
Proof.
  intros Hin c2.
  pose proof (out_cache_lookup h cache cacheValid files path) as Hl.
  fold c2 in Hl. rewrite decide_True in Hl by done.
  unfold missEntries, missOf, hitEntries.
  destruct (os_Stat h path) as [[mtime size]|] eqn:Hst; [|done].
  destruct (isHit cache cacheValid path mtime size) as [cached|] eqn:Hhit.
  - rewrite decide_False in Hl.
    2:{ rewrite elem_of_reparsed. intros (_ & m & s & Hst' & Hnone).
        congruence. }
    pose proof Hhit as Hc. apply isHit_Some in Hc as (_ & Hf & Hm & Hs).
    assert (H2 : isHit c2 true path mtime size = Some cached).
    { apply isHit_Some. by rewrite Hl. }
    rewrite H2. simpl. by rewrite app_nil_r.
  - rewrite decide_True in Hl.
    2:{ rewrite elem_of_reparsed. split; [done|]. by exists mtime, size. }
    assert (H2 : isHit c2 true path mtime size
                 = Some (parsedEntry h path mtime size)).
    { apply isHit_Some. by rewrite Hl. }
    rewrite H2. simpl. rewrite app_nil_r. unfold parseMiss. simpl.
    by destruct (processFileForCache h path) as [entries fStats].
Qed.

Lemma second_run_reparsed files :
  reparsed h files
    (out_cache (processWithCacheLoaded h files cache cacheValid)) true = [].
Proof.
  unfold reparsed. rewrite phase1_misses.
  rewrite (flat_map_ext_elem _ (fun _ => [])).
  - by induction files.
  - intros p Hp. by apply (second_run_file files p Hp).
Qed.

Lemma second_run_reaching files :
  reaching h files
    (out_cache (processWithCacheLoaded h files cache cacheValid)) true
  ≡ₚ reaching h files cache cacheValid.
Proof.
  rewrite !reaching_split.
  rewrite (flat_map_ext_elem (missEntries h _ true) (fun _ => [])).
  2:{ intros p Hp. unfold missEntries.
      by rewrite (proj1 (second_run_file files p Hp)). }
  rewrite (flat_map_ext_elem (hitEntries h _ true)
             (fun p => hitEntries h cache cacheValid p
                       ++ missEntries h cache cacheValid p)).
  2:{ intros p Hp. by apply (second_run_file files p Hp). }
  rewrite flat_map_app_perm.
  replace (flat_map (fun _ : string => []) files) with (@nil EntryData)
    by (by induction files).
  by rewrite app_nil_r.
Qed.

Lemma reaching_perm files files' :
  files ≡ₚ files' ->
  reaching h files cache cacheValid ≡ₚ reaching h files' cache cacheValid.
Proof.
  intros Hp. rewrite !reaching_split.
  by rewrite (Permutation_flat_map (hitEntries h cache cacheValid) Hp),
    (Permutation_flat_map (missEntries h cache cacheValid) Hp).
Qed.

Lemma CacheFile_eq (c1 c2 : CacheFile) :
  Version c1 = Version c2 -> Timezone c1 = Timezone c2 ->
  Files c1 = Files c2 -> Dirs c1 = Dirs c2 ->
  LastFullWalk c1 = LastFullWalk c2 -> c1 = c2.
Proof. destruct c1, c2. simpl. by intros -> -> -> -> ->. Qed.

Lemma out_dirty_false files :
  cacheValid = true ->
  reparsed h files cache cacheValid = [] ->
  dom (Files cache) ⊆ list_to_set files ->
  out_dirty (processWithCacheLoaded h files cache cacheValid) = false.
Proof.
  intros Hcv Hr Hdom.
  destruct (out_dirty _) eqn:Hd; [|done]. exfalso.
  apply out_dirty_iff in Hd as [Hf|[[p Hp]|(p & Hp & Hnp)]].
  - congruence.
  - rewrite Hr in Hp. by apply elem_of_nil in Hp.
  - apply Hnp. apply Hdom in Hp. by apply elem_of_list_to_set in Hp.
Qed.
End SecondRun.

(** X4.  A second reconciliation over the same files and the same disk, on
    the cache the first one left and with that cache valid: no file is
    parsed again, the dirty flag is not set, the cache is left exactly as it
    was, the records that reach the merge are those of the first call up to
    their order, and so, when no two different records of one key have the
    same total, the merged map is the same. *)
Theorem second_run_is_all_hits (h : Host) (files : list string)
    (cache : CacheFile) (cacheValid : bool) :
  let first := processWithCacheLoaded h files cache cacheValid in
  let second := processWithCacheLoaded h files (out_cache first) true in
  reparsed h files (out_cache first) true = []
  ∧ misses (out_stats second) = 0
  ∧ out_dirty second = false
  ∧ out_cache second = out_cache first
  ∧ reaching h files (out_cache first) true
    ≡ₚ reaching h files cache cacheValid
  ∧ (tieFree (reaching h files cache cacheValid) ->
     out_entries second = out_entries first).
Proof.
  intros first second. subst first second.
  pose proof (second_run_reparsed h cache cacheValid files) as Hr.
  assert (Hdom : dom (Files (out_cache
                   (processWithCacheLoaded h files cache cacheValid)))
                 ⊆ list_to_set files).
  { intros p [x Hx]%elem_of_dom. rewrite out_cache_lookup in Hx.
    destruct (decide (p ∈ files)); [by apply elem_of_list_to_set|done]. }
  set (c2 := out_cache (processWithCacheLoaded h files cache cacheValid)) in *.
  split; [done|]. split; [|split; [|split; [|split]]].
  - destruct (out_stats_counted h c2 true files) as (Hm & _).
    simpl in Hm. by rewrite Hm, Hr.
  - by apply out_dirty_false.
  - destruct (out_cache_fields h c2 true files) as (Hv & Ht & Hd & Hw).
    apply CacheFile_eq; try done.
    apply map_eq. intros p. rewrite (out_cache_lookup h c2 true).
    rewrite Hr. destruct (decide (p ∈ files)) as [Hin|Hnin].
    + rewrite decide_False; [done|]. by intros ?%elem_of_nil.
    + symmetry. unfold c2. by rewrite out_cache_lookup, decide_False.
  - apply second_run_reaching.
  - intros Htf. rewrite !out_entries_reaching. symmetry.
    apply foldl_mergeMap_perm; [|done].
    symmetry. apply second_run_reaching.
Qed.

(** * Further properties of the per-file parser *)

Section ParserShape.
Context (h : Host).

Lemma lineRecord_Some entry r :
  lineRecord h entry = Some r ->
  Timestamp entry ≠ ""
  ∧ (UsageInputTokens entry ≠ 0 ∨ UsageOutputTokens entry ≠ 0)
  ∧ MessageID entry ≠ "" ∧ RequestID entry ≠ ""
  ∧ local_date h (Timestamp entry) = Some (Date r)
  ∧ r = mkEntryData (MessageID entry +:+ ":" +:+ RequestID entry) (Date r)
          (if String.eqb (MessageModel entry) "" then "unknown"
           else MessageModel entry)
          (UsageInputTokens entry) (UsageOutputTokens entry)
          (UsageCacheCreationTokens entry) (UsageCacheReadTokens entry).
Proof.
  unfold lineRecord.
  destruct (String.eqb_spec (Timestamp entry) "") as [Ht|Ht]; [done|].
  destruct (Z.eqb_spec (UsageInputTokens entry) 0) as [Hi|Hi];
    destruct (Z.eqb_spec (UsageOutputTokens entry) 0) as [Ho|Ho]; simpl;
    try done;
    (destruct (String.eqb_spec (MessageID entry) "") as [Hm|Hm]; [done|];
     destruct (String.eqb_spec (RequestID entry) "") as [Hr|Hr]; [done|];
     simpl; destruct (local_date h (Timestamp entry)) as [date|]; [|done];
     intros [= <-]; simpl; repeat split; auto).
Qed.

Lemma scanLines_sourced lines k r :
  (scanLines h lines).1 !! k = Some r ->
  Key r = k ∧ ∃ entry, Some entry ∈ lines ∧ lineRecord h entry = Some r.
Proof.
  unfold scanLines. rewrite foldl_scanLine_lookup, lookup_empty.
  intros Hhd. apply head_Some_elem_of in Hhd.
  apply list_elem_of_filter in Hhd as [Hk Hin]. split; [done|].
  apply list_elem_of_omap in Hin as ([entry|] & Hin & Hc); [|done].
  by exists entry.
Qed.

Lemma scanLines_keyed lines : keyed (scanLines h lines).1.
Proof. intros k r Hr. by apply scanLines_sourced in Hr as [? _]. Qed.

(** What one iteration does to the counters. *)
Lemma scanLine_stats entries stats line :
  let st' := scanLine h (entries, stats) line in
  LinesRead st'.2 = LinesRead stats + 1
  ∧ LinesParsed st'.2
    = LinesParsed stats + (if line is Some _ then 1 else 0)
  ∧ EntriesNew st'.2 - Z.of_nat (size st'.1)
    = EntriesNew stats - Z.of_nat (size entries).
Proof.
  unfold scanLine. destruct line as [entry|]; simpl; [|lia].
  destruct (lineRecord h entry) as [r|]; simpl; [|lia].
  destruct (entries !! Key r) eqn:Hk; simpl; [lia|].
  rewrite map_size_insert_None by done. lia.
Qed.

Lemma foldl_scanLine_stats lines entries stats :
  let st' := foldl (scanLine h) (entries, stats) lines in
  LinesRead st'.2 = LinesRead stats + Z.of_nat (length lines)
  ∧ LinesParsed st'.2
    = LinesParsed stats
      + Z.of_nat (length (filter (fun l => is_Some l) lines))
  ∧ EntriesNew st'.2 - Z.of_nat (size st'.1)
    = EntriesNew stats - Z.of_nat (size entries).
Proof.
  revert entries stats. induction lines as [|line lines IH];
    intros entries stats.
  - simpl. lia.
  - change (foldl (scanLine h) (entries, stats) (line :: lines))
      with (foldl (scanLine h) (scanLine h (entries, stats) line) lines).
    pose proof (scanLine_stats entries stats line) as Hs.
    destruct (scanLine h (entries, stats) line) as [entries' stats'].
    cbv zeta in IH, Hs |- *. simpl in Hs.
    destruct (IH entries' stats') as (H1 & H2 & H3).
    destruct Hs as (G1 & G2 & G3).
    rewrite filter_cons. simpl length.
    destruct line as [entry|].
    + rewrite decide_True by (by eexists). simpl length. lia.
    + rewrite decide_False by (by intros [? ?]). lia.
Qed.

Lemma size_le_candidates lines :
  (size (scanLines h lines).1 <= length (omap (lineCandidate h) lines))%nat.
Proof.
  unfold scanLines.
  assert (Hgen : ∀ entries stats,
            (size (foldl (scanLine h) (entries, stats) lines).1
             <= size entries + length (omap (lineCandidate h) lines))%nat).
  { induction lines as [|line lines IH]; intros entries stats.
    - simpl. lia.
    - change (foldl (scanLine h) (entries, stats) (line :: lines))
        with (foldl (scanLine h) (scanLine h (entries, stats) line) lines).
      pose proof (scanLine_entries h entries stats line) as He.
      destruct (scanLine h (entries, stats) line) as [entries' stats'].
      simpl in He. specialize (IH entries' stats'). subst entries'.
      change (omap (lineCandidate h) (line :: lines))
        with (match lineCandidate h line with
              | Some r => r :: omap (lineCandidate h) lines
              | None => omap (lineCandidate h) lines
              end).
      destruct (lineCandidate h line) as [r|]; [|done].
      destruct (entries !! Key r) eqn:Hk; simpl length.
      + lia.
      + rewrite map_size_insert_None in IH by done. lia. }
  specialize (Hgen ∅ noFileStats). by rewrite map_size_empty in Hgen.
Qed.
Lemma candidates_le_parsed lines :
  (length (omap (lineCandidate h) lines)
   <= length (filter (fun l => is_Some l) lines))%nat.
Proof.
  induction lines as [|line lines IH]; [done|].
  change (omap (lineCandidate h) (line :: lines))
    with (match lineCandidate h line with
          | Some r => r :: omap (lineCandidate h) lines
          | None => omap (lineCandidate h) lines
          end).
  rewrite filter_cons. destruct line as [entry|].
  - rewrite decide_True by (by eexists).
    destruct (lineCandidate h (Some entry)); simpl length; lia.
  - rewrite decide_False by (by intros [? ?]). done.
Qed.
End ParserShape.

(** X6.  Every record [processFileForCache] returns comes from a line of
    the file: it is stored under its own key, which is that line's message
    id and request id joined by a colon, both non-empty; its date is the
    local date of the line's timestamp; its model is the line's, or
    ["unknown"] when the line has none, so never empty; its four counters
    are the line's; and its input and output counts are not both zero. *)
Theorem parsed_record_shape (h : Host) (path : string) (k : string)
    (r : EntryData) :
  (processFileForCache h path).1 !! k = Some r ->
  ∃ lines entry,
    os_Open h path = Some lines ∧ Some entry ∈ lines
    ∧ Key r = k
    ∧ k = MessageID entry +:+ ":" +:+ RequestID entry
    ∧ MessageID entry ≠ "" ∧ RequestID entry ≠ ""
    ∧ local_date h (Timestamp entry) = Some (Date r)
    ∧ Model r ≠ ""
    ∧ (Model r = MessageModel entry
       ∨ (MessageModel entry = "" ∧ Model r = "unknown"))
    ∧ InputTokens r = UsageInputTokens entry
    ∧ OutputTokens r = UsageOutputTokens entry
    ∧ CacheCreationTokens r = UsageCacheCreationTokens entry
    ∧ CacheReadTokens r = UsageCacheReadTokens entry
    ∧ (InputTokens r ≠ 0 ∨ OutputTokens r ≠ 0).
Proof.
  unfold processFileForCache.
  destruct (os_Open h path) as [lines|]; [|simpl; by rewrite lookup_empty].
  intros Hr. apply scanLines_sourced in Hr as (Hk & entry & Hin & Hrec).
  exists lines, entry.
  apply lineRecord_Some in Hrec as (Ht & Hio & Hm & Hq & Hd & Hr).
  rewrite Hr in Hk |- *. simpl in *.
  repeat split; try done.
  - destruct (String.eqb_spec (MessageModel entry) ""); done.
  - destruct (String.eqb_spec (MessageModel entry) ""); [by right|by left].
Qed.

(** X7.  The statistics of one parse: [LinesRead] is the number of lines
    scanned, [LinesParsed] the number of those that are valid JSON,
    [EntriesNew] the number of records returned, which is at most the number
    of lines that pass every guard; a file that cannot be opened counts
    nothing. *)
Theorem parse_statistics (h : Host) (path : string) :
  let parsed := processFileForCache h path in
  let lines := default [] (os_Open h path) in
  LinesRead parsed.2 = Z.of_nat (length lines)
  ∧ LinesParsed parsed.2
    = Z.of_nat (length (filter (fun l => is_Some l) lines))
  ∧ EntriesNew parsed.2 = Z.of_nat (size parsed.1)
  ∧ (size parsed.1 <= length (omap (lineCandidate h) lines))%nat
  ∧ (length (omap (lineCandidate h) lines)
     <= length (filter (fun l => is_Some l) lines) <= length lines)%nat.
Proof.
  intros parsed lines. subst parsed lines. unfold processFileForCache.
  destruct (os_Open h path) as [lines|]; simpl.
  - destruct (foldl_scanLine_stats h lines ∅ noFileStats) as (H1 & H2 & H3).
    pose proof (size_le_candidates h lines) as H4.
    unfold scanLines in *. simpl in *. rewrite map_size_empty in H3.
    repeat split; try lia.
    + apply candidates_le_parsed.
    + apply length_filter.
  - rewrite map_size_empty. simpl. repeat split; lia.
Qed.

(** X8.  The slice phase 2 builds from a parsed file, which phase 3 merges
    and stores in the cache, lists every record of the file's map once:
    its keys are pairwise distinct and each record is the map's record for
    its key. *)
Theorem parsed_entries_listed_once (h : Host) (path : string) :
  let parsed := (processFileForCache h path).1 in
  NoDup (Key <$> range_entries h parsed)
  ∧ (∀ r, r ∈ range_entries h parsed <-> parsed !! Key r = Some r)
  ∧ length (range_entries h parsed) = size parsed.
Proof.
  intros parsed.
  assert (Hkeyed : keyed parsed).
  { subst parsed. unfold processFileForCache.
    destruct (os_Open h path); [apply scanLines_keyed|apply keyed_empty]. }
  assert (Hkeys : Key <$> (map_to_list parsed).*2 = (map_to_list parsed).*1).
  { rewrite <- list_fmap_compose. apply list_fmap_ext.
    intros i [k r] Hi. simpl. apply Hkeyed.
    apply elem_of_map_to_list. by eapply list_elem_of_lookup_2. }
  split; [|split].
  - rewrite (range_entries_perm h parsed), Hkeys.
    apply NoDup_fst_map_to_list.
  - intros r. rewrite (range_entries_perm h parsed), list_elem_of_fmap. split.
    + intros ([k r'] & -> & Hin). simpl.
      apply elem_of_map_to_list in Hin.
      by rewrite (Hkeyed _ _ Hin).
    + intros Hr. exists (Key r, r). split; [done|].
      by apply elem_of_map_to_list.
  - rewrite (range_entries_perm h parsed), length_fmap.
    apply length_map_to_list.
Qed.

(** * Further properties of discovery *)

Section Roots.

Lemma prefix_app a : ∀ b, String.prefix a b = true -> ∃ t, b = a +:+ t.
Proof.
  induction a as [|c a IH]; intros b Hp.
  - by exists b.
  - destruct b as [|c' b]; [done|]. simpl in Hp.
    destruct (ascii_dec c c') as [<-|]; [|done].
    destruct (IH b Hp) as [t ->]. by exists t.
Qed.

Lemma app_prefix a t : String.prefix a (a +:+ t) = true.
Proof.
  induction a as [|c a IH]; [by destruct t|].
  rewrite string_app_cons. simpl. by destruct (ascii_dec c c).
Qed.

Lemma le_app a t : String.le a (a +:+ t).
Proof.
  unfold String.le, String.leb. induction a as [|c a IH].
  - by destruct t.
  - rewrite string_app_cons. simpl.
    assert (Hc : Ascii.compare c c = Eq)
      by (unfold Ascii.compare; apply N.compare_refl).
    by rewrite Hc.
Qed.

(** A path lies strictly before everything below it in string order. *)
Lemma child_after_parent r p :
  HasPrefix p (r +:+ "/") = true -> String.le r p ∧ r ≠ p.
Proof.
  unfold HasPrefix. intros [t ->]%prefix_app.
  rewrite string_app_assoc. split; [apply le_app|].
  intros Heq. rewrite <- (string_app_nil_r r) in Heq at 1.
  by apply (inj _) in Heq.
Qed.

Lemma isChildOf_true roots p :
  isChildOf roots p = true
  <-> ∃ r, r ∈ roots ∧ HasPrefix p (r +:+ "/") = true.
Proof.
  unfold isChildOf. rewrite existsb_exists.
  by setoid_rewrite <- list_elem_of_In.
Qed.

Lemma addRoot_spec roots p :
  (∀ r, r ∈ roots -> String.le r p) ->
  antichain roots ->
  antichain (addRoot roots p)
  ∧ (∀ r, r ∈ addRoot roots p -> r ∈ roots ∨ r = p)
  ∧ (∀ r, r ∈ roots -> r ∈ addRoot roots p)
  ∧ (p ∈ addRoot roots p ∨ isChildOf (addRoot roots p) p = true).
Proof.
  intros Hle Hanti. unfold addRoot.
  destruct (isChildOf roots p) eqn:Hchild.
  - split; [done|]. split; [by left|]. split; [done|by right].
  - split; [|split; [|split]].
    + intros r1 r2 [H1|H1%list_elem_of_singleton]%elem_of_app
        [H2|H2%list_elem_of_singleton]%elem_of_app; subst.
      * by apply Hanti.
      * destruct (HasPrefix r1 (p +:+ "/")) eqn:Hp; [|done].
        apply child_after_parent in Hp as [Hpr Hne].
        exfalso. apply Hne. apply (anti_symm String.le); [done|by apply Hle].
      * destruct (HasPrefix p (r2 +:+ "/")) eqn:Hp; [|done].
        assert (isChildOf roots p = true)
          by (apply isChildOf_true; by exists r2).
        congruence.
      * destruct (HasPrefix p (p +:+ "/")) eqn:Hp; [|done].
        by apply child_after_parent in Hp as [_ ?].
    + intros r [H|H%list_elem_of_singleton]%elem_of_app; [by left|by right].
    + intros r Hr. apply elem_of_app. by left.
    + left. apply elem_of_app. right. by apply list_elem_of_singleton.
Qed.

Lemma isChildOf_mono roots roots' p :
  (∀ r, r ∈ roots -> r ∈ roots') ->
  isChildOf roots p = true -> isChildOf roots' p = true.
Proof.
  rewrite !isChildOf_true. intros Hsub (r & Hr & Hp). exists r. auto.
Qed.

Lemma foldl_addRoot L : ∀ roots,
  StronglySorted String.le L ->
  (∀ r p, r ∈ roots -> p ∈ L -> String.le r p) ->
  antichain roots ->
  let out := foldl addRoot roots L in
  antichain out
  ∧ (∀ r, r ∈ out -> r ∈ roots ∨ r ∈ L)
  ∧ (∀ r, r ∈ roots -> r ∈ out)
  ∧ (∀ p, p ∈ L -> p ∈ out ∨ isChildOf out p = true).
Proof.
  induction L as [|p L IH]; intros roots Hsorted Hle Hanti.
  - simpl. split; [done|]. split; [by left|]. split; [done|].
    by intros p ?%elem_of_nil.
  - apply StronglySorted_cons in Hsorted as [Hhd Hsorted].
    destruct (addRoot_spec roots p) as (Ha & Hsub & Hkeep & Hcov);
      [intros r Hr; apply Hle; [done|by left]|done|].
    destruct (IH (addRoot roots p) Hsorted) as (Ha' & Hsub' & Hkeep' & Hcov').
    { intros r q Hr Hq. destruct (Hsub r Hr) as [Hin| ->].
      - apply Hle; [done|by right].
      - by apply (proj1 (Forall_forall _ _) Hhd). }
    { done. }
    simpl. split; [done|]. split; [|split].
    + intros r Hr. destruct (Hsub' r Hr) as [Hin|Hin]; [|right; by right].
      destruct (Hsub r Hin) as [?| ->]; [by left|right; by left].
    + intros r Hr. by apply Hkeep', Hkeep.
    + intros q [->|Hq]%elem_of_cons; [|by apply Hcov'].
      destruct Hcov as [Hin|Hch]; [left; by apply Hkeep'|].
      right. by apply (isChildOf_mono (addRoot roots p)).
Qed.
End Roots.

(** X9.  [minimalRoots] keeps a subset of the given directories such that
    every given directory is either kept or lies below a kept one, and no
    kept directory lies below another kept one. *)
Theorem minimalRoots_cover_and_antichain (dirs : gset string) :
  (∀ r, r ∈ minimalRoots dirs -> r ∈ dirs)
  ∧ (∀ d, d ∈ dirs ->
          d ∈ minimalRoots dirs
          ∨ ∃ r, r ∈ minimalRoots dirs ∧ HasPrefix d (r +:+ "/") = true)
  ∧ (∀ r1 r2, r1 ∈ minimalRoots dirs -> r2 ∈ minimalRoots dirs ->
              HasPrefix r1 (r2 +:+ "/") = false).
Proof.
  unfold minimalRoots.
  change (fun roots p => if isChildOf roots p then roots else roots ++ [p])
    with addRoot.
  destruct (foldl_addRoot (sortStrings (elements dirs)) [])
    as (Hanti & Hsub & _ & Hcov).
  - apply (StronglySorted_merge_sort _).
  - by intros r p ?%elem_of_nil.
  - by intros r1 r2 ?%elem_of_nil.
  - split; [|split].
    + intros r Hr. destruct (Hsub r Hr) as [Hin|Hin];
        [by apply elem_of_nil in Hin|].
      apply elem_of_elements. by rewrite <- (sortStrings_perm (elements dirs)).
    + intros d Hd.
      assert (Hin : d ∈ sortStrings (elements dirs))
        by (rewrite sortStrings_perm; by apply elem_of_elements).
      destruct (Hcov d Hin) as [?|Hch]; [by left|].
      right. by apply isChildOf_true.
    + exact Hanti.
Qed.

Section WarmAndFull.
Context (h : Host).

Lemma filesOf_suffix n : ∀ path q,
  q ∈ filesOf path n -> HasSuffix q ".jsonl" = true.
Proof.
  induction n as [|info children IH] using Node_induction; intros path q.
  - simpl. destruct (HasSuffix path ".jsonl") eqn:Hs.
    + by intros ->%list_elem_of_singleton.
    + by intros ?%elem_of_nil.
  - simpl. intros Hq. apply list_elem_of_In, in_flat_map in Hq.
    destruct Hq as ([name c] & Hin & Hq). apply list_elem_of_In in Hin.
    pose proof (proj1 (Forall_forall _ _) IH _ Hin) as IHc. simpl in IHc.
    apply (IHc (joinPath path name)). by apply list_elem_of_In.
Qed.

(** The directories a walk records lie at or below its root. *)
Lemma walkDir_dirs_under n : ∀ path st d,
  d ∈ dom (walkDir path n st).2 ->
  d ∈ dom st.2 ∨ ∃ rest, d = path +:+ rest ∧ slashTail rest.
Proof.
  induction n as [|info children IH] using Node_induction; intros path st d.
  - simpl. destruct (HasSuffix path ".jsonl"); by left.
  - simpl.
    match goal with
    | |- d ∈ dom (?f children ?s).2 -> _ =>
        assert (Hgen : ∀ s0 : walkState,
                  d ∈ dom (f children s0).2 ->
                  d ∈ dom s0.2 ∨ ∃ rest, d = path +:+ rest ∧ slashTail rest)
    end.
    { clear st. induction children as [|[name c] children IHcs];
        intros s0; simpl; [by left|].
      apply Forall_cons in IH as [IHc IH]. simpl in IHc.
      intros Hd. destruct (IHcs IH _ Hd) as [Hd'|Hd']; [|by right].
      destruct (IHc _ _ _ Hd') as [?|(rest & -> & _)]; [by left|].
      right. exists ("/" +:+ name +:+ rest). split; [|right; by eexists].
      unfold joinPath. by rewrite !string_app_assoc. }
    intros Hd. destruct (Hgen _ Hd) as [Hd'|?]; [|by right].
    destruct info as [mtime|]; simpl in Hd'; [|by left].
    rewrite dom_insert_L in Hd'.
    apply elem_of_union in Hd' as [->%elem_of_singleton|?]; [|by left].
    right. exists "". split; [by rewrite string_app_nil_r|by left].
Qed.

Lemma walkSubtree_eq root : walkSubtree h root = fullWalkJSONL h root.
Proof. done. Qed.

Lemma fullWalkJSONL_dirs_under dir d :
  d ∈ dom (fullWalkJSONL h dir).2 -> ∃ rest, d = dir +:+ rest ∧ slashTail rest.
Proof.
  unfold fullWalkJSONL. destruct (fs_tree h dir) as [n|].
  - intros Hd. apply walkDir_dirs_under in Hd as [Hd|?]; [|done].
    simpl in Hd. by rewrite dom_empty_L in Hd.
  - simpl. by rewrite dom_empty_L.
Qed.

Lemma fullWalkJSONL_files_shape dir f :
  f ∈ (fullWalkJSONL h dir).1 ->
  HasSuffix f ".jsonl" = true ∧ ∃ rest, f = dir +:+ rest ∧ slashTail rest.
Proof.
  rewrite fullWalkJSONL_files. destruct (fs_tree h dir) as [n|].
  - intros Hf. split; [by eapply filesOf_suffix|by eapply filesOf_under].
  - by intros ?%elem_of_nil.
Qed.

Lemma foldl_walkRoot_files roots : ∀ (X : gset string) (D : gmap string Z) f,
  f ∈ (foldl (walkRoot h) (X, D) roots).1
  <-> f ∈ X ∨ ∃ root, root ∈ roots ∧ f ∈ (walkSubtree h root).1.
Proof.
  induction roots as [|root roots IH]; intros X D f.
  - simpl. split; [by left|]. intros [?|(r & Hr & _)]; [done|].
    by apply elem_of_nil in Hr.
  - simpl. unfold walkRoot at 2.
    destruct (walkSubtree h root) as [subtreeFiles subtreeDirs] eqn:Hw.
    simpl. rewrite IH, elem_of_union, elem_of_list_to_set. split.
    + intros [[Hf|Hf]|(r & Hr & Hf)].
      * right. exists root. split; [by left|]. by rewrite Hw.
      * by left.
      * right. exists r. split; [by right|done].
    + intros [Hf|(r & [->|Hr]%elem_of_cons & Hf)].
      * left. by right.
      * left. left. by rewrite Hw in Hf.
      * right. by exists r.
Qed.

Lemma elem_of_filesTakenFromCache cache f :
  f ∈ filesTakenFromCache h cache
  <-> is_Some (Files cache !! f)
      ∧ ∃ mtime size,
          Dirs cache !! filepath_Dir f = Some mtime
          ∧ os_Stat h (filepath_Dir f) = Some (mtime, size).
Proof.
  unfold filesTakenFromCache. rewrite elem_of_filter, !elem_of_dom.
  split; intros [Hdir Hf].
  - split; [done|]. destruct Hdir as [m Hm].
    apply map_lookup_filter_Some in Hm as [Hm Hc]. simpl in Hc.
    unfold dirChanged in Hc.
    destruct (os_Stat h (filepath_Dir f)) as [[cur size]|]; [|done].
    apply negb_false_iff, Z.eqb_eq in Hc as ->. by exists m, size.
  - split; [|done]. destruct Hf as (m & size & Hm & Hst). exists m.
    apply map_lookup_filter_Some. split; [done|]. simpl.
    unfold dirChanged. rewrite Hst. by rewrite Z.eqb_refl.
Qed.

Lemma warmStart_unfold cache :
  let walked := foldl (walkRoot h) (filesTakenFromCache h cache, Dirs cache)
                  (minimalRoots (changedDirs h cache)) in
  warmStart h cache
  = (sortStrings (elements walked.1),
     mkDiscoveryStats (Z.of_nat (size (Dirs cache)))
       (Z.of_nat (size (changedDirs h cache)))
       (Z.of_nat (length (minimalRoots (changedDirs h cache))))
       (Z.of_nat (size (filesTakenFromCache h cache))) false,
     mkCacheFile (Version cache) (Timezone cache) (Files cache)
       (filter (fun kv => is_Some (os_Stat h kv.1)) walked.2)
       (LastFullWalk cache)).
Proof.
  unfold warmStart, filesTakenFromCache, changedDirs.
  by destruct (foldl (walkRoot h) _ _) as [fileSet dirs1].
Qed.
End WarmAndFull.

(** X10.  A warm start returns exactly the cached files whose parent
    directory is in the manifest with its recorded modification time still
    current, which it takes over without touching them, and the files found
    by walking the minimal roots of the changed directories.  The manifest
    it leaves holds only directories that can be statted; the cached files
    and [LastFullWalk] are as before; the statistics count the manifested
    directories, the changed ones, the subtrees walked and the files taken
    from the cache. *)
Theorem warm_start_discovery (h : Host) (cache : CacheFile) (f : string) :
  let w := warmStart h cache in
  (f ∈ w.1.1
   <-> (is_Some (Files cache !! f)
        ∧ ∃ mtime size,
            Dirs cache !! filepath_Dir f = Some mtime
            ∧ os_Stat h (filepath_Dir f) = Some (mtime, size))
       ∨ ∃ root, root ∈ minimalRoots (changedDirs h cache)
                 ∧ f ∈ (walkSubtree h root).1)
  ∧ (∀ d, d ∈ dom (Dirs w.2) -> is_Some (os_Stat h d))
  ∧ Files w.2 = Files cache ∧ LastFullWalk w.2 = LastFullWalk cache
  ∧ w.1.2
    = mkDiscoveryStats (Z.of_nat (size (Dirs cache)))
        (Z.of_nat (size (changedDirs h cache)))
        (Z.of_nat (length (minimalRoots (changedDirs h cache))))
        (Z.of_nat (size (filesTakenFromCache h cache))) false.
Proof.
  intros w. subst w. rewrite warmStart_unfold.
  cbn [fst snd Files Dirs LastFullWalk].
  split; [|split; [|done]].
  - rewrite sortStrings_perm, elem_of_elements.
    by rewrite foldl_walkRoot_files, elem_of_filesTakenFromCache.
  - intros d [m Hm]%elem_of_dom.
    by apply map_lookup_filter_Some in Hm as [_ ?].
Qed.

(** X11.  Discovery makes a full walk exactly when there is no cache, or
    the manifest is empty, or more than five minutes have passed since
    [LastFullWalk].  Every file a full walk returns ends in [.jsonl] and
    lies at or below the root, as does every directory it records; the
    cache, when there is one, gets the walk's directories as its manifest
    and the current time as [LastFullWalk], and keeps its files. *)
Theorem full_walk_discovery (h : Host) (dir : string)
    (cache : option CacheFile) :
  let r := findJSONLFiles h dir cache in
  (fullWalk r.1.2 = true
   <-> cache = None
       ∨ ∃ c, cache = Some c
              ∧ (Dirs c = ∅ ∨ fullWalkInterval < now_check h - LastFullWalk c))
  ∧ (fullWalk r.1.2 = true ->
     (∀ f, f ∈ r.1.1 ->
           HasSuffix f ".jsonl" = true
           ∧ ∃ rest, f = dir +:+ rest ∧ slashTail rest)
     ∧ (∀ d, d ∈ dom (fullWalkJSONL h dir).2 ->
             ∃ rest, d = dir +:+ rest ∧ slashTail rest)
     ∧ r.1.2
       = mkDiscoveryStats (Z.of_nat (size (fullWalkJSONL h dir).2)) 0 0 0 true
     ∧ r.2
       = (fun c => mkCacheFile (Version c) (Timezone c) (Files c)
                     (fullWalkJSONL h dir).2 (now_stamp h)) <$> cache).
Proof.
  intros r. subst r. rewrite findJSONLFiles_fullWalk. split.
  - unfold needsFullWalk. destruct cache as [c|]; [|naive_solver].
    rewrite orb_true_iff, bool_decide_eq_true, Z.ltb_lt, map_size_empty_iff.
    naive_solver.
  - intros Hn. unfold findJSONLFiles. rewrite Hn.
    destruct (fullWalkJSONL h dir) as [files dirs] eqn:Hw. simpl.
    split; [|split; [|done]].
    + intros f Hf. apply (fullWalkJSONL_files_shape h). by rewrite Hw.
    + intros d Hd. apply (fullWalkJSONL_dirs_under h). by rewrite Hw.
Qed.

(** * Further properties of the codec and of saving *)

Section StringTable.
Implicit Types (st : internState).

Lemma intern_tight st s :
  internTight st ->
  internTight (intern st s).1
  ∧ (∀ x, x ∈ (intern st s).1.2 <-> x ∈ st.2 ∨ x = s).
Proof.
  intros [Hnd Hin]. unfold intern.
  destruct (st.1 !! s) as [idx|] eqn:Hs; simpl.
  - split; [done|]. intros x. split; [by left|].
    intros [?| ->]; [done|]. apply Hin. by eexists.
  - assert (Hfresh : s ∉ st.2).
    { intros Hx. apply Hin in Hx as [i Hi]. congruence. }
    split; [split|].
    + apply NoDup_app. split; [done|]. split; [|apply NoDup_singleton].
      intros x Hx ->%list_elem_of_singleton. by apply Hfresh.
    + intros x. simpl.
      rewrite elem_of_app, list_elem_of_singleton, lookup_insert.
      destruct (decide (s = x)) as [<-|Hne].
      * split; [by eexists|by right].
      * rewrite Hin. naive_solver.
    + intros x. simpl. by rewrite elem_of_app, list_elem_of_singleton.
Qed.

Lemma encodeEntries_tight l : ∀ st,
  internTight st ->
  internTight (encodeEntries st l).1
  ∧ (∀ x, x ∈ (encodeEntries st l).1.2 <-> x ∈ st.2 ∨ x ∈ vocabulary l).
Proof.
  induction l as [|e l IH]; intros st Ht.
  - simpl. split; [done|]. intros x. rewrite elem_of_nil. naive_solver.
  - simpl. unfold encodeEntry.
    destruct (intern_tight st (Date e) Ht) as [Ht1 Hx1].
    destruct (intern st (Date e)) as [st1 d]. simpl in Ht1, Hx1.
    destruct (intern_tight st1 (Model e) Ht1) as [Ht2 Hx2].
    destruct (intern st1 (Model e)) as [st2 m]. simpl in Ht2, Hx2.
    destruct (IH st2 Ht2) as [Ht3 Hx3].
    destruct (encodeEntries st2 l) as [st3 ees]. simpl in *.
    split; [done|]. intros x.
    rewrite Hx3, Hx2, Hx1, !elem_of_cons. naive_solver.
Qed.

Lemma encodeFile_tight acc kv :
  internTight acc.1 ->
  internTight (encodeFile acc kv).1
  ∧ (∀ x, x ∈ (encodeFile acc kv).1.2
          <-> x ∈ acc.1.2 ∨ x ∈ vocabulary (Entries kv.2))
  ∧ dom (encodeFile acc kv).2 = {[kv.1]} ∪ dom acc.2.
Proof.
  destruct acc as [st files]. simpl. intros Ht.
  destruct (encodeEntries_tight (Entries kv.2) st Ht) as [Ht1 Hx1].
  destruct (encodeEntries st (Entries kv.2)) as [st1 entries].
  simpl in *. split; [done|]. split; [done|]. by rewrite dom_insert_L.
Qed.

Lemma foldl_encodeFile_tight l : ∀ acc,
  internTight acc.1 ->
  internTight (foldl encodeFile acc l).1
  ∧ (∀ x, x ∈ (foldl encodeFile acc l).1.2
          <-> x ∈ acc.1.2 ∨ ∃ kv, kv ∈ l ∧ x ∈ vocabulary (Entries kv.2))
  ∧ dom (foldl encodeFile acc l).2 = list_to_set l.*1 ∪ dom acc.2.
Proof.
  induction l as [|kv l IH]; intros acc Ht.
  - simpl. split; [done|]. split; [|set_solver].
    intros x. split; [by left|]. intros [?|(kv & Hkv & _)]; [done|].
    by apply elem_of_nil in Hkv.
  - change (foldl encodeFile acc (kv :: l))
      with (foldl encodeFile (encodeFile acc kv) l).
    destruct (encodeFile_tight acc kv Ht) as (Ht1 & Hx1 & Hd1).
    destruct (IH _ Ht1) as (Ht2 & Hx2 & Hd2).
    split; [done|]. split.
    + intros x. rewrite Hx2, Hx1. split.
      * intros [[?|?]|(kv' & Hin & Hx)]; [by left| |].
        -- right. exists kv. split; [by left|done].
        -- right. exists kv'. split; [by right|done].
      * intros [?|(kv' & [->|Hin]%elem_of_cons & Hx)].
        -- left. by left.
        -- left. by right.
        -- right. by exists kv'.
    + rewrite Hd2, Hd1, fmap_cons. set_solver.
Qed.
End StringTable.

(** X12.  The string table [saveCache] builds lists every string once; its
    first entry is the timezone; and it holds the timezone, the dates and
    the models of the cached records, and nothing else.  The encoded files
    are those of the cache, and manifest and [LastFullWalk] are passed on
    unchanged. *)
Theorem string_table_is_exact (c : Codec) (cache : CacheFile) :
  let encoded := encodeCache c cache in
  NoDup (StringTable encoded)
  ∧ head (StringTable encoded) = Some (Timezone cache)
  ∧ (∀ s, s ∈ StringTable encoded
          <-> s = Timezone cache
              ∨ ∃ path fe r, Files cache !! path = Some fe ∧ r ∈ Entries fe
                             ∧ (s = Date r ∨ s = Model r))
  ∧ dom (EncFiles encoded) = dom (Files cache)
  ∧ EncDirs encoded = Dirs cache
  ∧ EncLastFullWalk encoded = LastFullWalk cache.
Proof.
  intros encoded. subst encoded. unfold encodeCache.
  assert (Hst0 : intern (∅, []) (Timezone cache)
                 = (({[Timezone cache := 0]}, [Timezone cache]), 0)).
  { unfold intern. simpl. by rewrite lookup_empty. }
  rewrite Hst0.
  assert (Ht0 : internTight ({[Timezone cache := 0]}, [Timezone cache])).
  { split; [apply NoDup_singleton|]. intros s. simpl.
    rewrite list_elem_of_singleton, lookup_singleton_is_Some. naive_solver. }
  destruct (foldl_encodeFile_tight (range_files c (Files cache))
              (({[Timezone cache := 0]}, [Timezone cache]), ∅) Ht0)
    as ([Hnd _] & Hx & Hd).
  destruct (foldl_encodeFile_spec (range_files c (Files cache))
              (({[Timezone cache := 0]}, [Timezone cache]), ∅) ∅)
    as [_ Hpre].
  { split.
    - intros s i. simpl. rewrite lookup_singleton_Some.
      intros [<- <-]. done.
    - intros tbl _. simpl. by rewrite fmap_empty. }
  destruct (foldl encodeFile _ (range_files c (Files cache)))
    as [st files] eqn:Hfold.
  simpl in *. split; [done|]. split; [|split; [|split; [|done]]].
  - destruct Hpre as [rest ->]. done.
  - intros s. rewrite Hx, list_elem_of_singleton. split.
    + intros [?|([path fe] & Hin & Hs)]; [by left|].
      right. rewrite (range_files_perm c) in Hin.
      apply elem_of_map_to_list in Hin. simpl in Hs.
      unfold vocabulary in Hs. apply list_elem_of_In, in_flat_map in Hs.
      destruct Hs as (r & Hr & Hs). apply list_elem_of_In in Hr.
      exists path, fe, r. split; [done|]. split; [done|].
      simpl in Hs. naive_solver.
    + intros [?|(path & fe & r & Hf & Hr & Hs)]; [by left|].
      right. exists (path, fe). split.
      * rewrite (range_files_perm c). by apply elem_of_map_to_list.
      * simpl. unfold vocabulary. apply list_elem_of_In, in_flat_map.
        exists r. split; [by apply list_elem_of_In|]. simpl. naive_solver.
  - rewrite Hd, dom_empty_L, (right_id_L ∅ (∪)).
    apply set_eq. intros p. rewrite elem_of_list_to_set, elem_of_dom.
    rewrite list_elem_of_fmap. split.
    + intros ([p' fe] & -> & Hin). rewrite (range_files_perm c) in Hin.
      apply elem_of_map_to_list in Hin. by eexists.
    + intros [fe Hfe]. exists (p, fe). split; [done|].
      rewrite (range_files_perm c). by apply elem_of_map_to_list.
Qed.

(** X13.  [saveCache] replaces [cache.bin] or leaves it alone: when it
    returns an error, [cache.bin] holds what it held before; when it returns
    none, [cache.bin] holds the new bytes and no temporary file is left.
    It returns an error exactly when creating the directory, encoding,
    writing the temporary file or renaming it fails. *)
Theorem saveCache_replaces_or_keeps (c : Codec) (f : Faults)
    (cache : CacheFile) (disk : CacheDisk) :
  let after := saveCache c f cache disk in
  (after.2 = true
   <-> MkdirAll_fails f = true ∨ Encode_fails f = true
       ∨ WriteFile_fails f = true ∨ Rename_fails f = true)
  ∧ (after.2 = true -> cache_bin after.1 = cache_bin disk)
  ∧ (after.2 = false ->
     cache_bin after.1 = Some (cacheBytes c cache) ∧ cache_tmp after.1 = None)
  ∧ (cache_json after.1 = cache_json disk ∨ cache_json after.1 = None).
Proof.
  unfold saveCache.
  destruct (MkdirAll_fails f), (Encode_fails f), (WriteFile_fails f),
    (Remove_fails f), (Rename_fails f); simpl; naive_solver.
Qed.

(** X14.  What [loadCache] returns was read from [cache.bin] or from the
    legacy file.  In the first case [cache.bin] starts with the four magic
    bytes and the little-endian version 2, the rest is a payload gob
    decodes, and the cache carries the current format version; the legacy
    file is consulted only when [cache.bin] is absent, shorter than eight
    bytes or without the magic bytes. *)
Theorem loadCache_sources (c : Codec) (disk : CacheDisk) (cache : CacheFile) :
  loadCache c disk = Some cache ->
  (∃ v0 v1 v2 v3 payload encoded,
     cache_bin disk = Some (cacheMagic ++ [v0; v1; v2; v3] ++ payload)
     ∧ Uint32 v0 v1 v2 v3 = CacheVersion
     ∧ gob_decode c payload = Some encoded
     ∧ cache = decodeCache CacheVersion encoded
     ∧ Version cache = CacheVersion)
  ∨ (loadLegacyJSONCache c disk = Some cache
     ∧ (cache_bin disk = None
        ∨ ∃ data, cache_bin disk = Some data
                  ∧ ((length data < 8)%nat ∨ take 4 data ≠ cacheMagic))).
Proof.
  unfold loadCache. destruct (cache_bin disk) as [data|]; [|by right; auto].
  unfold decodeBytes.
  destruct data as [|b0 [|b1 [|b2 [|b3 [|v0 [|v1 [|v2 [|v3 payload]]]]]]]];
    try (intros Hl; right; split; [done|]; right; eexists; split; [done|];
         left; simpl; lia).
  destruct (Byte.eqb b0 x43 && Byte.eqb b1 x43 && Byte.eqb b2 x55
            && Byte.eqb b3 x47) eqn:Hmagic.
  - apply andb_true_iff in Hmagic as [Hmagic H3].
    apply andb_true_iff in Hmagic as [Hmagic H2].
    apply andb_true_iff in Hmagic as [H0 H1].
    apply Byte.byte_dec_bl in H0, H1, H2, H3. subst.
    destruct (Z.eqb_spec (Uint32 v0 v1 v2 v3) CacheVersion) as [Hv|Hv];
      [|done].
    destruct (gob_decode c payload) as [encoded|] eqn:Hgob; [|done].
    intros [= <-]. left. exists v0, v1, v2, v3, payload, encoded.
    rewrite Hv. done.
  - intros Hl. right. split; [done|]. right. eexists. split; [done|].
    right. simpl. unfold cacheMagic. intros [= -> -> -> ->]. done.
Qed.

(** * Properties of the aggregation *)

Section Summation.

Lemma Zsum_cons x l : Zsum (x :: l) = x + Zsum l.
Proof. done. Qed.

Lemma Zsum_app l1 l2 : Zsum (l1 ++ l2) = Zsum l1 + Zsum l2.
Proof. induction l1 as [|x l1 IH]; simpl; lia. Qed.

Lemma Zsum_perm l1 l2 : l1 ≡ₚ l2 -> Zsum l1 = Zsum l2.
Proof. induction 1; simpl; lia. Qed.

Lemma foldl_int_add l : ∀ a,
  int_wrap a = a -> foldl int_add a l = int_wrap (a + Zsum l).
Proof.
  induction l as [|x l IH]; intros a Ha.
  - simpl. by rewrite Z.add_0_r.
  - change (Zsum (x :: l)) with (x + Zsum l).
    change (foldl int_add a (x :: l)) with (foldl int_add (int_add a x) l).
    rewrite IH by apply int_wrap_idemp. unfold int_add.
    rewrite int_wrap_add_l. f_equal. lia.
Qed.

Lemma foldl_int_add_0 l : foldl int_add 0 l = int_wrap (Zsum l).
Proof. by rewrite foldl_int_add. Qed.
End Summation.

Section Sums.
Context {A : Type}.
Implicit Types (f : A -> Z) (m : gmap string A).

Lemma msum_empty f : msum f (∅ : gmap string A) = 0.
Proof. unfold msum. by rewrite map_to_list_empty. Qed.

Lemma msum_insert_fresh f m k v :
  m !! k = None -> msum f (<[k := v]> m) = msum f m + f v.
Proof.
  intros Hk. unfold msum.
  rewrite (Zsum_perm _ (f <$> ((k, v) :: map_to_list m).*2)).
  - rewrite !fmap_cons, Zsum_cons. simpl. lia.
  - by rewrite map_to_list_insert.
Qed.

Lemma msum_insert f m k v :
  msum f (<[k := v]> m) = msum f m - from_option f 0 (m !! k) + f v.
Proof.
  destruct (m !! k) as [u|] eqn:Hk; simpl.
  - rewrite <- insert_delete_eq.
    rewrite msum_insert_fresh by apply lookup_delete_eq.
    rewrite <- (insert_delete_id m k u Hk) at 2.
    rewrite msum_insert_fresh by apply lookup_delete_eq. lia.
  - rewrite msum_insert_fresh by done. lia.
Qed.

Lemma Zsum_wrap (l : list Z) : int_wrap (Zsum (int_wrap <$> l)) = int_wrap (Zsum l).
Proof.
  induction l as [|x l IH]; [done|].
  change (int_wrap (int_wrap x + Zsum (int_wrap <$> l))
          = int_wrap (x + Zsum l)).
  rewrite int_wrap_add_l. apply int_wrap_add; [done|].
  by rewrite <- int_wrap_idemp, IH, int_wrap_idemp.
Qed.
End Sums.

Section Aggregation.
Implicit Types (dayUsage : gmap string DayUsage) (e : EntryData)
  (l : list EntryData) (c : counter).

Lemma ofUsage_addTokens c u e :
  ofUsage c (addTokens u e) = int_add (ofUsage c u) (ofEntry c e).
Proof. by destruct c. Qed.

Lemma addEntry_lookup dayUsage e date :
  addEntry dayUsage e !! date
  = if decide (Date e = date)
    then let day := default (mkDayUsage ∅) (dayUsage !! Date e) in
         let u := default (mkUsage 0 0 0 0) (Models day !! Model e) in
         Some (mkDayUsage (<[Model e := addTokens u e]> (Models day)))
    else dayUsage !! date.
Proof. unfold addEntry. by rewrite lookup_insert. Qed.

Lemma cellOf_addEntry dayUsage e date model :
  cellOf (addEntry dayUsage e) date model
  = if decide (Date e = date ∧ Model e = model)
    then Some (addTokens (default (mkUsage 0 0 0 0)
                            (cellOf dayUsage date model)) e)
    else cellOf dayUsage date model.
Proof.
  unfold cellOf. rewrite addEntry_lookup.
  destruct (decide (Date e = date)) as [<-|Hd]; simpl.
  - rewrite lookup_insert.
    destruct (decide (Model e = model)) as [<-|Hm].
    + rewrite decide_True by done.
      by destruct (dayUsage !! Date e).
    + rewrite decide_False by naive_solver.
      by destruct (dayUsage !! Date e).
  - by rewrite decide_False by naive_solver.
Qed.

Lemma foldl_addEntry_cell l date model :
  match cellOf (foldl addEntry ∅ l) date model with
  | None => filter (fun e => Date e = date ∧ Model e = model) l = []
  | Some u =>
      filter (fun e => Date e = date ∧ Model e = model) l ≠ []
      ∧ ∀ c, ofUsage c u
             = int_wrap (Zsum (ofEntry c <$>
                 filter (fun e => Date e = date ∧ Model e = model) l))
  end.
Proof.
  induction l as [|e l IH] using rev_ind; [done|].
  rewrite foldl_app, filter_app. simpl. rewrite cellOf_addEntry.
  destruct (decide (Date e = date ∧ Model e = model)) as [He|He].
  - rewrite filter_cons_True by done. rewrite filter_nil.
    split; [by intros [_ ?]%app_eq_nil|].
    intros c. rewrite ofUsage_addTokens, fmap_app, Zsum_app. unfold int_add.
    destruct (cellOf (foldl addEntry ∅ l) date model) as [u|]; simpl.
    + destruct IH as [_ ->]. rewrite int_wrap_add_l. f_equal. lia.
    + rewrite IH. destruct c; simpl; f_equal; lia.
  - rewrite filter_cons_False by done. rewrite filter_nil, app_nil_r. done.
Qed.

Lemma msum_addTokens c (models : gmap string Usage) e :
  int_wrap (msum (ofUsage c)
              (<[Model e := addTokens (default (mkUsage 0 0 0 0)
                                         (models !! Model e)) e]> models))
  = int_wrap (msum (ofUsage c) models + ofEntry c e).
Proof.
  rewrite msum_insert, ofUsage_addTokens. unfold int_add.
  rewrite int_wrap_add_r. f_equal.
  destruct (models !! Model e); simpl; [lia|]. destruct c; simpl; lia.
Qed.

Lemma foldl_addEntry_day l date c :
  (foldl addEntry ∅ l !! date = None <-> filter (fun e => Date e = date) l = [])
  ∧ int_wrap (msum (ofUsage c)
                (Models (default (mkDayUsage ∅) (foldl addEntry ∅ l !! date))))
    = int_wrap (Zsum (ofEntry c <$> filter (fun e => Date e = date) l)).
Proof.
  induction l as [|e l [IHn IH]] using rev_ind.
  - simpl. rewrite lookup_empty. done.
  - rewrite foldl_app, filter_app. simpl. rewrite addEntry_lookup.
    destruct (decide (Date e = date)) as [He|He].
    + rewrite filter_cons_True by done. rewrite filter_nil. split.
      * split; [done|]. by intros [_ ?]%app_eq_nil.
      * cbv zeta. cbn [default from_option id Models]. rewrite msum_addTokens, He.
        rewrite fmap_app, Zsum_app. simpl.
        rewrite Z.add_0_r. by apply int_wrap_add.
    + rewrite filter_cons_False by done. rewrite filter_nil, app_nil_r. done.
Qed.

Lemma foldl_addEntry_total l c :
  int_wrap (msum (fun day => msum (ofUsage c) (Models day))
              (foldl addEntry ∅ l))
  = int_wrap (Zsum (ofEntry c <$> l)).
Proof.
  induction l as [|e l IH] using rev_ind; [done|].
  rewrite foldl_app, fmap_app, Zsum_app. simpl. rewrite Z.add_0_r.
  set (dayUsage := foldl addEntry ∅ l) in *.
  unfold addEntry. rewrite msum_insert. cbn [Models].
  set (g := fun day => msum (ofUsage c) (Models day)) in *.
  assert (Hold : from_option g 0 (dayUsage !! Date e)
                 = g (default (mkDayUsage ∅) (dayUsage !! Date e))).
  { destruct (dayUsage !! Date e); [done|]. simpl. unfold g. simpl.
    by rewrite msum_empty. }
  rewrite Hold. unfold g at 2.
  set (models := Models (default (mkDayUsage ∅) (dayUsage !! Date e))).
  pose proof (msum_addTokens c models e) as Hstep.
  apply int_wrap_eq in IH as [k Hk]. apply int_wrap_eq in Hstep as [k' Hk'].
  apply int_wrap_eq. exists (k + k'). lia.
Qed.
End Aggregation.

Section TableRows.
Implicit Types (dayUsage : gmap string DayUsage) (c : counter).
Variable o : MapOrder.

Lemma foldl_sums_component c (l : list Usage) : ∀ acc,
  ofSums c
    (foldl (fun '(input, output, cacheWrite, cacheRead) u =>
              (int_add input (Input u), int_add output (Output u),
               int_add cacheWrite (CacheWrite u),
               int_add cacheRead (CacheRead u))) acc l)
  = foldl int_add (ofSums c acc) (ofUsage c <$> l).
Proof.
  induction l as [|u l IH]; intros [[[i ou] cw] cr]; [done|].
  simpl. rewrite IH. by destruct c.
Qed.

Lemma sumUsage_component c day :
  ofSums c (sumUsage o day) = int_wrap (msum (ofUsage c) (Models day)).
Proof.
  unfold sumUsage. rewrite foldl_sums_component.
  replace (ofSums c (0, 0, 0, 0)) with 0 by (by destruct c).
  rewrite foldl_int_add_0. unfold msum. f_equal. apply Zsum_perm.
  by rewrite (range_models_perm o).
Qed.

Lemma foldl_totals_component c (rows : list (string * (Z * Z * Z * Z))) :
  ∀ acc,
  ofSums c
    (foldl (fun '(totalInput, totalOutput, totalCacheWrite, totalCacheRead)
                '(_, (input, output, cacheWrite, cacheRead)) =>
              (int_add totalInput input, int_add totalOutput output,
               int_add totalCacheWrite cacheWrite,
               int_add totalCacheRead cacheRead)) acc rows)
  = foldl int_add (ofSums c acc) ((fun row => ofSums c row.2) <$> rows).
Proof.
  induction rows as [|[date [[[i ou] cw] cr]] rows IH];
    intros [[[ti tou] tcw] tcr]; [done|].
  simpl. rewrite IH. by destruct c.
Qed.

Lemma omap_rows_keys dayUsage (dates : list string) :
  (∀ date, date ∈ dates -> is_Some (dayUsage !! date)) ->
  (omap (fun date => (fun day => (date, sumUsage o day)) <$> dayUsage !! date)
        dates).*1 = dates.
Proof.
  induction dates as [|date dates IH]; intros Hall; [done|].
  destruct (Hall date) as [day Hday]; [by left|].
  simpl. rewrite Hday. simpl. f_equal. apply IH.
  intros d Hd. apply Hall. by right.
Qed.

Lemma omap_rows_list dayUsage (l : list (string * DayUsage)) :
  (∀ kv, kv ∈ l -> dayUsage !! kv.1 = Some kv.2) ->
  omap (fun date => (fun day => (date, sumUsage o day)) <$> dayUsage !! date)
       l.*1
  = (fun kv => (kv.1, sumUsage o kv.2)) <$> l.
Proof.
  induction l as [|kv l IH]; intros Hall; [done|].
  simpl. rewrite (Hall kv) by (by left). simpl. f_equal. apply IH.
  intros kv' Hkv'. apply Hall. by right.
Qed.

Lemma tableRows_perm dayUsage :
  tableRows o dayUsage
  ≡ₚ (fun kv => (kv.1, sumUsage o kv.2)) <$> map_to_list dayUsage.
Proof.
  unfold tableRows.
  rewrite sortStrings_perm, (range_days_perm o).
  rewrite omap_rows_list; [done|].
  intros [date day] Hkv. by apply elem_of_map_to_list.
Qed.

Lemma tableRows_dates dayUsage :
  (tableRows o dayUsage).*1 = sortStrings (range_days o dayUsage).
Proof.
  apply omap_rows_keys. intros date.
  rewrite sortStrings_perm, (range_days_perm o), list_elem_of_fmap.
  intros ([d day] & -> & Hin). apply elem_of_map_to_list in Hin. by eexists.
Qed.

Lemma tableTotals_component c dayUsage :
  ofSums c (tableTotals o dayUsage)
  = int_wrap (msum (fun day => msum (ofUsage c) (Models day)) dayUsage).
Proof.
  unfold tableTotals. rewrite foldl_totals_component.
  replace (ofSums c (0, 0, 0, 0)) with 0 by (by destruct c).
  rewrite foldl_int_add_0.
  rewrite (Zsum_perm _ ((fun row : string * (Z * Z * Z * Z) => ofSums c row.2)
             <$> ((fun kv => (kv.1, sumUsage o kv.2))
                    <$> map_to_list dayUsage)))
    by (by rewrite tableRows_perm).
  unfold msum at 1.
  rewrite <- (Zsum_wrap ((fun day => msum (ofUsage c) (Models day))
                          <$> (map_to_list dayUsage).*2)).
  f_equal. f_equal.
  rewrite <- !list_fmap_compose. apply list_fmap_ext.
  intros i [date day] _. simpl. apply sumUsage_component.
Qed.
End TableRows.

Section AggregatedFrom.
Variable h : Host.
Implicit Types (entries : gmap string EntryData).

Lemma aggregateUsage_days_inhabited (l : list EntryData) date day :
  foldl addEntry ∅ l !! date = Some day -> Models day ≠ ∅.
Proof.
  revert date day. induction l as [|e l IH] using rev_ind; intros date day.
  - simpl. by rewrite lookup_empty.
  - rewrite foldl_app. simpl. rewrite addEntry_lookup.
    destruct (decide (Date e = date)); [|by apply IH].
    intros [= <-]. simpl. apply insert_non_empty.
Qed.

Lemma onDate_range entries date :
  filter (fun e => Date e = date) (range_entries h entries)
  ≡ₚ onDate date entries.
Proof. unfold onDate. by rewrite (range_entries_perm h). Qed.

Lemma onCell_range entries date model :
  filter (fun e => Date e = date ∧ Model e = model) (range_entries h entries)
  ≡ₚ onCell date model entries.
Proof. unfold onCell. by rewrite (range_entries_perm h). Qed.
End AggregatedFrom.

(** X15.  Every cell of the table [aggregateUsage] builds holds, for each of
    the four counters, the sum (on Go's [int]) over the merged records of
    that date and model, whatever the order in which the map of records is
    ranged over; a cell exists exactly when there is such a record. *)
Theorem aggregated_cell (h : Host) (entries : gmap string EntryData)
    (date model : string) :
  let cell := onCell date model entries in
  cellOf (aggregateUsage h entries) date model
  = if decide (cell = []) then None
    else Some (mkUsage (int_wrap (Zsum (InputTokens <$> cell)))
                       (int_wrap (Zsum (OutputTokens <$> cell)))
                       (int_wrap (Zsum (CacheCreationTokens <$> cell)))
                       (int_wrap (Zsum (CacheReadTokens <$> cell)))).
Proof.
  intros cell. unfold aggregateUsage.
  pose proof (foldl_addEntry_cell (range_entries h entries) date model) as H.
  pose proof (onCell_range h entries date model) as Hp. fold cell in Hp.
  destruct (cellOf (foldl addEntry ∅ (range_entries h entries)) date model)
    as [u|].
  - destruct H as [Hne Hu]. rewrite decide_False.
    + f_equal. destruct u as [i ou cw cr].
      pose proof (Hu CInput) as H1. pose proof (Hu COutput) as H2.
      pose proof (Hu CCacheWrite) as H3. pose proof (Hu CCacheRead) as H4.
      simpl in H1, H2, H3, H4. rewrite H1, H2, H3, H4.
      f_equal; f_equal; apply Zsum_perm; by rewrite Hp.
    + intros Hnil. rewrite Hnil in Hp. by apply Permutation_nil_r in Hp.
  - rewrite H in Hp. apply Permutation_nil_l in Hp. by rewrite decide_True.
Qed.

(** X16.  For a day of the table, [sumUsage] returns, for each counter, the
    sum (on Go's [int]) over all merged records of that date, in whatever
    order the models are ranged over; and a day of the table has at least
    one model and one record. *)
Theorem day_sums_are_wrapped_sums (h : Host) (o : MapOrder)
    (entries : gmap string EntryData) (date : string) (day : DayUsage) :
  aggregateUsage h entries !! date = Some day ->
  onDate date entries ≠ []
  ∧ Models day ≠ ∅
  ∧ ∀ c, ofSums c (sumUsage o day)
         = int_wrap (Zsum (ofEntry c <$> onDate date entries)).
Proof.
  unfold aggregateUsage. intros Hday.
  pose proof (onDate_range h entries date) as Hp.
  split; [|split].
  - destruct (foldl_addEntry_day (range_entries h entries) date CInput)
      as [Hnone _].
    intros Hnil. rewrite Hnil in Hp. apply Permutation_nil_r in Hp.
    apply Hnone in Hp. congruence.
  - by eapply aggregateUsage_days_inhabited.
  - intros c. rewrite sumUsage_component.
    destruct (foldl_addEntry_day (range_entries h entries) date c)
      as [_ Hsum].
    rewrite Hday in Hsum. simpl in Hsum. rewrite Hsum.
    f_equal. apply Zsum_perm. by rewrite Hp.
Qed.

(** X17.  The rows [printTable] prints are in ascending order of date, one
    per date that has a merged record; the numbers of a row are the sums
    over the records of its date, and the numbers of the last row are the
    sums over all merged records (all sums on Go's [int]). *)
Theorem table_rows_and_totals (h : Host) (o : MapOrder)
    (entries : gmap string EntryData) :
  let rows := tableRows o (aggregateUsage h entries) in
  Sorted String.le rows.*1
  ∧ NoDup rows.*1
  ∧ (∀ date, date ∈ rows.*1 <-> onDate date entries ≠ [])
  ∧ (∀ date sums, (date, sums) ∈ rows ->
       ∀ c, ofSums c sums
            = int_wrap (Zsum (ofEntry c <$> onDate date entries)))
  ∧ ∀ c, ofSums c (tableTotals o (aggregateUsage h entries))
         = int_wrap (Zsum (ofEntry c <$> (map_to_list entries).*2)).
Proof.
  intros rows. subst rows.
  assert (Hdates : ∀ date,
            date ∈ (tableRows o (aggregateUsage h entries)).*1
            <-> is_Some (aggregateUsage h entries !! date)).
  { intros date.
    rewrite tableRows_dates, sortStrings_perm, (range_days_perm o).
    rewrite list_elem_of_fmap. split.
    - intros ([d day] & -> & Hin). apply elem_of_map_to_list in Hin.
      by eexists.
    - intros [day Hday]. exists (date, day). split; [done|].
      by apply elem_of_map_to_list. }
  split; [|split; [|split; [|split]]].
  - rewrite tableRows_dates. apply sortStrings_sorted.
  - rewrite tableRows_dates, sortStrings_perm, (range_days_perm o).
    apply NoDup_fst_map_to_list.
  - intros date. rewrite Hdates. unfold aggregateUsage.
    destruct (foldl_addEntry_day (range_entries h entries) date CInput)
      as [Hnone _].
    pose proof (onDate_range h entries date) as Hp.
    rewrite <- not_eq_None_Some, Hnone. split; intros Hne Hnil; apply Hne.
    + rewrite Hnil in Hp. by apply Permutation_nil_r in Hp.
    + rewrite Hnil in Hp. by apply Permutation_nil_l in Hp.
  - intros date sums Hrow c. unfold tableRows in Hrow.
    apply list_elem_of_omap in Hrow as (d & _ & Hrow).
    destruct (aggregateUsage h entries !! d) as [day|] eqn:Hday; [|done].
    simpl in Hrow. injection Hrow as <- <-.
    rewrite sumUsage_component. unfold aggregateUsage in Hday.
    destruct (foldl_addEntry_day (range_entries h entries) d c) as [_ Hsum].
    rewrite Hday in Hsum. simpl in Hsum. rewrite Hsum.
    f_equal. apply Zsum_perm. by rewrite (onDate_range h entries d).
  - intros c. rewrite tableTotals_component. unfold aggregateUsage.
    rewrite foldl_addEntry_total. f_equal. apply Zsum_perm.
    by rewrite (range_entries_perm h).
Qed.

(** * Properties of consecutive runs *)

Section SameDisk.
Context (h h' : Host) (Hstat : ∀ p, os_Stat h' p = os_Stat h p).

Lemma hitEntries_same_stat cache cacheValid path :
  hitEntries h' cache cacheValid path = hitEntries h cache cacheValid path.
Proof. unfold hitEntries. by rewrite Hstat. Qed.

Lemma missOf_same_stat cache cacheValid path :
  missOf h' cache cacheValid path = missOf h cache cacheValid path.
Proof. unfold missOf. by rewrite Hstat. Qed.

Lemma dirChanged_same_stat d m : dirChanged h' d m = dirChanged h d m.
Proof. unfold dirChanged. by rewrite Hstat. Qed.
End SameDisk.

(** Without ties the merged map depends only on which records are merged. *)
Lemma foldl_mergeMap_same_elements (l l' : list EntryData) :
  tieFree l -> (∀ x, x ∈ l' <-> x ∈ l) ->
  foldl mergeMap ∅ l' = foldl mergeMap ∅ l.
Proof.
  intros Htf Hel. apply map_eq. intros k.
  destruct (foldl mergeMap ∅ l' !! k) as [r'|] eqn:H';
    destruct (foldl mergeMap ∅ l !! k) as [r|] eqn:H; [|exfalso..|done].
  - f_equal.
    destruct (foldl_mergeMap_sourced _ _ _ _ H') as [Hm|[Hin' Hk']];
      [by rewrite lookup_empty in Hm|].
    destruct (foldl_mergeMap_sourced _ _ _ _ H) as [Hm|[Hin Hk]];
      [by rewrite lookup_empty in Hm|].
    apply Htf; [by apply Hel|done|congruence|].
    destruct (foldl_mergeMap_ge l ∅ r' (proj1 (Hel _) Hin')) as (x & Hx & Hle).
    destruct (foldl_mergeMap_ge l' ∅ r (proj2 (Hel _) Hin)) as (y & Hy & Hle').
    rewrite Hk' in Hx. rewrite Hk in Hy.
    assert (x = r) by congruence. assert (y = r') by congruence.
    subst. lia.
  - destruct (foldl_mergeMap_sourced _ _ _ _ H') as [Hm|[Hin' Hk']];
      [by rewrite lookup_empty in Hm|].
    destruct (foldl_mergeMap_ge l ∅ r' (proj1 (Hel _) Hin')) as (x & Hx & _).
    congruence.
  - destruct (foldl_mergeMap_sourced _ _ _ _ H) as [Hm|[Hin Hk]];
      [by rewrite lookup_empty in Hm|].
    destruct (foldl_mergeMap_ge l' ∅ r (proj2 (Hel _) Hin)) as (y & Hy & _).
    congruence.
Qed.

Section Coherence.
Context (h : Host).

Lemma startCache_header loaded :
  Version (startCache h loaded) = CacheVersion
  ∧ Timezone (startCache h loaded) = local_zone h.
Proof.
  unfold startCache. destruct loaded as [c|]; [|done].
  destruct (isCacheValid h (Some c)) eqn:Hv; [|done].
  unfold isCacheValid in Hv. apply andb_true_iff in Hv as [Hv Ht].
  apply Z.eqb_eq in Hv. by apply String.eqb_eq in Ht.
Qed.

Lemma startCache_valid c :
  isCacheValid h (Some c) = true -> startCache h (Some c) = c.
Proof. unfold startCache. by intros ->. Qed.

Lemma isCacheValid_header c :
  isCacheValid h (Some c) = true
  <-> Version c = CacheVersion ∧ Timezone c = local_zone h.
Proof.
  unfold isCacheValid. by rewrite andb_true_iff, Z.eqb_eq, String.eqb_eq.
Qed.

Lemma warmStart_header c :
  Version (warmStart h c).2 = Version c
  ∧ Timezone (warmStart h c).2 = Timezone c
  ∧ LastFullWalk (warmStart h c).2 = LastFullWalk c.
Proof. by rewrite warmStart_unfold. Qed.

Lemma findJSONLFiles_header dir c :
  Version (default c (findJSONLFiles h dir (Some c)).2) = Version c
  ∧ Timezone (default c (findJSONLFiles h dir (Some c)).2) = Timezone c.
Proof.
  unfold findJSONLFiles. destruct (needsFullWalk h (Some c)).
  - by destruct (fullWalkJSONL h dir).
  - pose proof (warmStart_header c) as (Hv & Ht & _).
    by destruct (warmStart h c) as [r c'].
Qed.

(** Every cached entry of a file that can be statted carries the current
    modification time and size, once the files were reconciled. *)
Lemma out_cache_current cache cacheValid files path e mtime size :
  Files (out_cache (processWithCacheLoaded h files cache cacheValid)) !! path
  = Some e ->
  os_Stat h path = Some (mtime, size) ->
  ModTime e = mtime ∧ Size e = size.
Proof.
  rewrite out_cache_lookup. intros He Hst.
  destruct (decide (path ∈ files)) as [Hin|]; [|done].
  destruct (decide (path ∈ reparsed h files cache cacheValid)) as [Hr|Hr].
  - rewrite Hst in He. by injection He as <-.
  - destruct (isHit cache cacheValid path mtime size) as [cached|] eqn:Hhit.
    + apply isHit_Some in Hhit as (_ & Hf & Hm & Hs). by simplify_eq.
    + exfalso. apply Hr. apply elem_of_reparsed. split; [done|].
      by exists mtime, size.
Qed.

(** On a cache whose entries are current, nothing is parsed. *)
Lemma current_cache_no_miss cache files :
  (∀ path mtime size,
     path ∈ files -> os_Stat h path = Some (mtime, size) ->
     ∃ e, Files cache !! path = Some e ∧ ModTime e = mtime ∧ Size e = size) ->
  reparsed h files cache true = [].
Proof.
  intros Hcur. apply elem_of_nil_inv. intros p.
  rewrite elem_of_reparsed. intros (Hin & m & s & Hst & Hnone).
  destruct (Hcur p m s Hin Hst) as (e & He & Hm & Hs).
  assert (Hhit : isHit cache true p m s = Some e) by (by apply isHit_Some).
  congruence.
Qed.
End Coherence.

Lemma flat_map_none {A B} (l : list A) :
  flat_map (fun _ => @nil B) l = [].
Proof. by induction l. Qed.

Section Rerun.
Context (h h' : Host) (Hstat : ∀ p, os_Stat h' p = os_Stat h p).
Context (files1 : list string) (cache1 : CacheFile) (valid1 : bool).

Lemma hitEntries_same_files (c c' : CacheFile) cacheValid path :
  Files c = Files c' ->
  hitEntries h c cacheValid path = hitEntries h c' cacheValid path.
Proof. unfold hitEntries, isHit. by intros ->. Qed.

Lemma hitEntries_cached (c : CacheFile) cacheValid path x :
  x ∈ hitEntries h c cacheValid path -> path ∈ dom (Files c).
Proof.
  unfold hitEntries.
  destruct (os_Stat h path) as [[mtime size]|]; [|by intros ?%elem_of_nil].
  destruct (isHit c cacheValid path mtime size) as [e|] eqn:Hhit;
    [|by intros ?%elem_of_nil].
  intros _. apply isHit_Some in Hhit as (_ & Hf & _).
  apply elem_of_dom. by eexists.
Qed.

Lemma out_cache_dom path :
  path ∈ dom (Files (out_cache
                       (processWithCacheLoaded h files1 cache1 valid1))) ->
  path ∈ files1.
Proof.
  intros [e He]%elem_of_dom. rewrite out_cache_lookup in He.
  by destruct (decide (path ∈ files1)).
Qed.

Lemma elem_of_reaching files cache cacheValid x (g : Host) :
  x ∈ reaching g files cache cacheValid
  <-> ∃ f, f ∈ files ∧ (x ∈ hitEntries g cache cacheValid f
                        ∨ x ∈ missEntries g cache cacheValid f).
Proof.
  rewrite reaching_split, elem_of_app, !list_elem_of_In, !in_flat_map.
  setoid_rewrite <- list_elem_of_In. naive_solver.
Qed.

(** A run on the cache a first reconciliation left, on the same disk, over
    files that were files of the first run and include every cached one. *)
Lemma rerun_on_left_cache (files2 : list string) (cache2 : CacheFile) :
  let c1 := out_cache (processWithCacheLoaded h files1 cache1 valid1) in
  Files cache2 = Files c1 ->
  (∀ f, f ∈ files2 -> f ∈ files1) ->
  (∀ f, f ∈ dom (Files c1) -> f ∈ files2) ->
  reparsed h' files2 cache2 true = []
  ∧ (∀ x, x ∈ reaching h' files2 cache2 true
          <-> x ∈ reaching h files1 cache1 valid1)
  ∧ out_dirty (processWithCacheLoaded h' files2 cache2 true) = false
  ∧ Files (out_cache (processWithCacheLoaded h' files2 cache2 true))
    = Files c1.
Proof.
  intros c1 HF Hsub Hsup.
  assert (Hmiss : ∀ f, f ∈ files2 -> missOf h' cache2 true f = []).
  { intros f Hf. rewrite (missOf_same_stat h h' Hstat).
    destruct (second_run_file h cache1 valid1 files1 f (Hsub f Hf)) as [Hm _].
    fold c1 in Hm. unfold missOf, isHit in *. by rewrite HF. }
  assert (Hre : reparsed h' files2 cache2 true = []).
  { unfold reparsed. rewrite phase1_misses.
    rewrite (flat_map_ext_elem _ (fun _ => [])) by done.
    by rewrite flat_map_none. }
  split; [done|]. split; [|split].
  - intros x. rewrite !elem_of_reaching. split.
    + intros (f & Hf & [Hx|Hx]).
      * exists f. split; [by apply Hsub|].
        rewrite (hitEntries_same_stat h h' Hstat) in Hx.
        rewrite (hitEntries_same_files cache2 c1) in Hx by done.
        unfold c1 in Hx.
        rewrite (proj2 (second_run_file h cache1 valid1 files1 f
                          (Hsub f Hf))), elem_of_app in Hx. done.
      * unfold missEntries in Hx. rewrite (Hmiss f Hf) in Hx.
        by apply elem_of_nil in Hx.
    + intros (f & Hf & Hx).
      assert (Hx' : x ∈ hitEntries h c1 true f).
      { unfold c1.
        rewrite (proj2 (second_run_file h cache1 valid1 files1 f Hf)).
        by apply elem_of_app. }
      exists f. split.
      * apply Hsup. by eapply hitEntries_cached.
      * left. rewrite (hitEntries_same_stat h h' Hstat).
        by rewrite (hitEntries_same_files cache2 c1).
  - apply out_dirty_false; [done..|].
    intros f Hf. apply elem_of_list_to_set. apply Hsup. by rewrite <- HF.
  - apply map_eq. intros p. rewrite out_cache_lookup, Hre.
    destruct (decide (p ∈ files2)) as [Hin|Hnin].
    + rewrite decide_False by (by intros ?%elem_of_nil). by rewrite HF.
    + symmetry. apply not_elem_of_dom. intros Hp. by apply Hnin, Hsup.
Qed.
End Rerun.

Section Runs.
Context (h : Host) (projects : string) (loaded : option CacheFile).

Lemma mainRun_left_cache_header :
  let c := out_cache (run_processed (mainRun h projects loaded)) in
  Version c = CacheVersion ∧ Timezone c = local_zone h.
Proof.
  intros c. subst c. rewrite mainRun_processed.
  destruct (out_cache_fields h (run_cache (mainRun h projects loaded))
              (run_valid (mainRun h projects loaded))
              (run_files (mainRun h projects loaded))) as (Hv & Ht & _).
  rewrite Hv, Ht.
  destruct (mainRun_unfold h projects loaded) as (_ & _ & _ & _ & -> & _).
  destruct (findJSONLFiles_header h projects (startCache h loaded))
    as [-> ->].
  apply startCache_header.
Qed.
End Runs.

(** X18.  The cache a run leaves to be saved is valid for the next run in
    the same timezone; its entries are entries of discovered files; an entry
    of a file that can be statted carries the file's current modification
    time and size; and after a start from an absent or invalid cache every
    entry was parsed in this run. *)
Theorem run_leaves_a_current_cache (h : Host) (projects : string)
    (loaded : option CacheFile) :
  let r := mainRun h projects loaded in
  let c := out_cache (run_processed r) in
  isCacheValid h (Some c) = true
  ∧ (∀ path, path ∈ dom (Files c) -> path ∈ run_files r)
  ∧ (∀ path e mtime size,
       Files c !! path = Some e -> os_Stat h path = Some (mtime, size) ->
       ModTime e = mtime ∧ Size e = size)
  ∧ (run_valid r = false ->
     ∀ path e, Files c !! path = Some e ->
       ∃ mtime size,
         os_Stat h path = Some (mtime, size)
         ∧ e = mkFileCacheEntry mtime size
                 (range_entries h (processFileForCache h path).1)).
Proof.
  intros r c. subst r c.
  pose proof (mainRun_left_cache_header h projects loaded) as Hhead.
  cbv zeta in Hhead. rewrite mainRun_processed in *.
  split; [by apply isCacheValid_header|]. split; [|split].
  - apply out_cache_dom.
  - apply out_cache_current.
  - intros Hinv path e. rewrite out_cache_lookup.
    destruct (decide (path ∈ run_files (mainRun h projects loaded)))
      as [Hin|]; [|done].
    destruct (decide (path ∈ reparsed h _ _ _)) as [Hr|Hr].
    + destruct (os_Stat h path) as [[mtime size]|]; [|done].
      intros [= <-]. by exists mtime, size.
    + intros He. exfalso.
      destruct (mainRun_unfold h projects loaded)
        as (Hv & _ & _ & _ & Hc & _).
      rewrite Hc, findJSONLFiles_Files, startCache_Files in He.
      rewrite Hv in Hinv. destruct loaded as [c|]; [|done].
      by rewrite Hinv in He.
Qed.

(** X19.  The run after a run, on the cache that run left, on a disk where
    every [os.Stat] answers as before and in the same timezone, when
    discovery starts warm and finds no manifested directory changed: the
    cache is valid and discovery leaves it as it is; the files are the
    cached files whose parent directory is manifested; no file is parsed
    and no line is read.  When every cached file's parent directory is
    manifested, nothing is saved, the cache comes out as it went in, and,
    when no two different records of one key have the same total, the
    merged records are those of the first run. *)
Theorem warm_rerun_parses_nothing (h h' : Host) (projects : string)
    (loaded : option CacheFile) :
  let r1 := mainRun h projects loaded in
  let c1 := out_cache (run_processed r1) in
  let r2 := mainRun h' projects (Some c1) in
  (∀ p, os_Stat h' p = os_Stat h p) ->
  local_zone h' = local_zone h ->
  fullWalk (run_discovery r2) = false ->
  dirsChanged (run_discovery r2) = 0 ->
  run_valid r2 = true
  ∧ run_cache r2 = c1
  ∧ (∀ f, f ∈ run_files r2
          <-> f ∈ dom (Files c1) ∧ filepath_Dir f ∈ dom (Dirs c1))
  ∧ reparsed h' (run_files r2) c1 true = []
  ∧ misses (out_stats (run_processed r2)) = 0
  ∧ totalLines (out_stats (run_processed r2)) = 0
  ∧ ((∀ f, f ∈ dom (Files c1) -> filepath_Dir f ∈ dom (Dirs c1)) ->
     run_persist r2 = false
     ∧ out_cache (run_processed r2) = c1
     ∧ (tieFree (reaching h (run_files r1) (run_cache r1) (run_valid r1)) ->
        out_entries (run_processed r2) = out_entries (run_processed r1))).
Proof.
  intros r1 c1 r2 Hstat Hzone Hwarm Hquiet.
  assert (Hvalid : isCacheValid h' (Some c1) = true).
  { apply isCacheValid_header. rewrite Hzone.
    apply mainRun_left_cache_header. }
  pose proof (mainRun_processed h' projects (Some c1)) as Hp2.
  destruct (mainRun_unfold h' projects (Some c1))
    as (Hv2 & _ & Hf2 & Hd2 & Hc2 & Hs2).
  fold r2 in Hp2, Hv2, Hf2, Hd2, Hc2, Hs2. cbv zeta in Hp2.
  rewrite (startCache_valid h' c1 Hvalid) in Hf2, Hd2, Hc2, Hs2.
  rewrite Hvalid in Hv2.
  rewrite Hd2, findJSONLFiles_fullWalk in Hwarm.
  destruct (findJSONLFiles_warm h' projects _ Hwarm) as (c & [= <-] & Hw1 & Hw2).
  rewrite Hw1 in Hf2, Hd2. rewrite Hw2 in Hc2.
  change (run_cache r2 = (warmStart h' c1).2) in Hc2.
  rewrite Hd2 in Hquiet.
  assert (Hnone : ∀ d m, Dirs c1 !! d = Some m -> dirChanged h' d m = false).
  { intros d m Hd. destruct (dirChanged h' d m) eqn:Hch; [|done].
    assert (0 < dirsChanged (warmStart h' c1).1.2)
      by (apply warmStart_dirsChanged_pos; by exists d, m).
    lia. }
  assert (Hcache : run_cache r2 = c1).
  { rewrite Hc2. destruct (warmStart_header h' c1) as (Hv & Ht & Hl).
    apply CacheFile_eq; try done.
    - apply warmStart_Files.
    - by apply warmStart_Dirs_unchanged. }
  assert (Hfiles : ∀ f, f ∈ run_files r2
                        <-> f ∈ dom (Files c1) ∧ filepath_Dir f ∈ dom (Dirs c1)).
  { intros f. rewrite Hf2, warmStart_unfold. cbn [fst snd].
    assert (Hch : changedDirs h' c1 = ∅).
    { unfold changedDirs. apply dom_empty_iff_L, map_empty. intros d.
      apply map_lookup_filter_None. right. intros m Hm. simpl.
      by rewrite (Hnone d m Hm). }
    rewrite Hch, minimalRoots_empty. simpl.
    rewrite sortStrings_perm, elem_of_elements, elem_of_filesTakenFromCache.
    rewrite !elem_of_dom. split.
    - intros [Hf (m & s & Hm & _)]. split; [done|by eexists].
    - intros [Hf [m Hm]]. split; [done|].
      pose proof (Hnone _ _ Hm) as Hch'. unfold dirChanged in Hch'.
      destruct (os_Stat h' (filepath_Dir f)) as [[cur s]|]; [|done].
      apply negb_false_iff, Z.eqb_eq in Hch' as ->. by exists m, s. }
  pose proof (mainRun_processed h projects loaded) as Hp1.
  fold r1 in Hp1. cbv zeta in Hp1.
  assert (Hc1 : c1 = out_cache (processWithCacheLoaded h (run_files r1)
                                  (run_cache r1) (run_valid r1)))
    by (unfold c1; by rewrite Hp1).
  assert (Hre : reparsed h' (run_files r2) c1 true = []).
  { apply current_cache_no_miss. intros path mtime size Hin Hst.
    apply Hfiles in Hin as [[e He]%elem_of_dom _]. exists e. split; [done|].
    rewrite Hc1 in He. rewrite Hstat in Hst.
    by apply (out_cache_current h _ _ _ _ _ _ _ He Hst). }
  rewrite Hp2, Hcache, Hv2.
  destruct (out_stats_counted h' c1 true (run_files r2))
    as (Hm & _ & Hl & _). cbn [fst snd] in Hm, Hl. rewrite Hre in Hm, Hl.
  split; [done|]. split; [done|]. split; [done|]. split; [done|].
  split; [done|]. split; [done|].
  intros Hdirs.
  destruct (rerun_on_left_cache h h' Hstat (run_files r1) (run_cache r1)
              (run_valid r1) (run_files r2) c1)
    as (_ & Hel & Hdirty & HF).
  { by rewrite Hc1. }
  { intros f [Hf _]%Hfiles. rewrite Hc1 in Hf. by apply out_cache_dom in Hf. }
  { intros f Hf. rewrite <- Hc1 in Hf. apply Hfiles. split; [done|].
    by apply Hdirs. }
  split; [|split].
  - rewrite Hs2, Hp2, Hcache, Hv2, Hdirty, Hw1.
    rewrite (warmStart_fullWalk h' c1). cbn [orb].
    apply Z.ltb_ge. lia.
  - destruct (out_cache_fields h' c1 true (run_files r2))
      as (Hv & Ht & Hd & Hl').
    apply CacheFile_eq; try done. by rewrite HF, <- Hc1.
  - intros Htf. rewrite Hp1, !out_entries_reaching.
    by apply foldl_mergeMap_same_elements.
Qed.

(** X20.  The run after a run that made a full walk, when it makes a full
    walk again over the same tree, on a disk where every [os.Stat] answers
    as before and in the same timezone: the files are the same list, no
    file is parsed, the dirty flag is not set, the cache is saved all the
    same, with the files and the manifest it had, and, when no two
    different records of one key have the same total, the merged records
    are those of the first run. *)
Theorem full_walk_rerun_parses_nothing (h h' : Host) (projects : string)
    (loaded : option CacheFile) :
  let r1 := mainRun h projects loaded in
  let c1 := out_cache (run_processed r1) in
  let r2 := mainRun h' projects (Some c1) in
  (∀ p, os_Stat h' p = os_Stat h p) ->
  local_zone h' = local_zone h ->
  fs_tree h' projects = fs_tree h projects ->
  fullWalk (run_discovery r1) = true ->
  fullWalk (run_discovery r2) = true ->
  run_valid r2 = true
  ∧ run_files r2 = run_files r1
  ∧ reparsed h' (run_files r2) (run_cache r2) true = []
  ∧ misses (out_stats (run_processed r2)) = 0
  ∧ out_dirty (run_processed r2) = false
  ∧ run_persist r2 = true
  ∧ Files (out_cache (run_processed r2)) = Files c1
  ∧ Dirs (out_cache (run_processed r2)) = Dirs c1
  ∧ LastFullWalk (out_cache (run_processed r2)) = now_stamp h'
  ∧ (tieFree (reaching h (run_files r1) (run_cache r1) (run_valid r1)) ->
     out_entries (run_processed r2) = out_entries (run_processed r1)).
Proof.
  intros r1 c1 r2 Hstat Hzone Htree Hfull1 Hfull2.
  assert (Hvalid : isCacheValid h' (Some c1) = true).
  { apply isCacheValid_header. rewrite Hzone.
    apply mainRun_left_cache_header. }
  pose proof (mainRun_processed h' projects (Some c1)) as Hp2.
  destruct (mainRun_unfold h' projects (Some c1))
    as (Hv2 & _ & Hf2 & Hd2 & Hc2 & Hs2).
  fold r2 in Hp2, Hv2, Hf2, Hd2, Hc2, Hs2. cbv zeta in Hp2.
  rewrite (startCache_valid h' c1 Hvalid) in Hf2, Hd2, Hc2, Hs2.
  rewrite Hvalid in Hv2.
  pose proof (mainRun_processed h projects loaded) as Hp1.
  destruct (mainRun_unfold h projects loaded)
    as (_ & _ & Hf1 & Hd1 & Hc1' & _).
  fold r1 in Hp1, Hf1, Hd1, Hc1'. cbv zeta in Hp1.
  assert (Hc1 : c1 = out_cache (processWithCacheLoaded h (run_files r1)
                                  (run_cache r1) (run_valid r1)))
    by (unfold c1; by rewrite Hp1).
  rewrite Hd2, findJSONLFiles_fullWalk in Hfull2.
  rewrite Hd1, findJSONLFiles_fullWalk in Hfull1.
  assert (Hwalk : fullWalkJSONL h' projects = fullWalkJSONL h projects)
    by (unfold fullWalkJSONL; by rewrite Htree).
  assert (Hfiles : run_files r2 = run_files r1).
  { rewrite Hf2, Hf1, !findJSONLFiles_full by done. by rewrite Hwalk. }
  assert (Hcache2 : run_cache r2
                    = mkCacheFile (Version c1) (Timezone c1) (Files c1)
                        (fullWalkJSONL h' projects).2 (now_stamp h')).
  { rewrite Hc2. unfold findJSONLFiles. rewrite Hfull2.
    by destruct (fullWalkJSONL h' projects). }
  assert (Hdirs1 : Dirs c1 = (fullWalkJSONL h projects).2).
  { rewrite Hc1.
    destruct (out_cache_fields h (run_cache r1) (run_valid r1) (run_files r1))
      as (_ & _ & -> & _).
    rewrite Hc1'. unfold findJSONLFiles. rewrite Hfull1.
    by destruct (fullWalkJSONL h projects). }
  destruct (rerun_on_left_cache h h' Hstat (run_files r1) (run_cache r1)
              (run_valid r1) (run_files r2) (run_cache r2))
    as (Hre & Hel & Hdirty & HF).
  { rewrite Hcache2. simpl. by rewrite Hc1. }
  { intros f. by rewrite Hfiles. }
  { intros f Hf. rewrite Hfiles. by apply out_cache_dom in Hf. }
  destruct (out_stats_counted h' (run_cache r2) true (run_files r2))
    as (Hm & _). cbn [fst snd] in Hm. rewrite Hre in Hm.
  destruct (out_cache_fields h' (run_cache r2) true (run_files r2))
    as (_ & _ & Hd & Hl).
  rewrite Hp2, Hv2.
  split; [done|]. split; [done|]. split; [done|]. split; [done|].
  split; [done|]. split; [|split; [|split; [|split]]].
  - rewrite Hs2, findJSONLFiles_fullWalk, Hfull2.
    by destruct (out_dirty (run_processed r2)).
  - by rewrite HF, <- Hc1.
  - rewrite Hd, Hcache2, Hdirs1. simpl. by rewrite Hwalk.
  - rewrite Hl, Hcache2. done.
  - intros Htf. rewrite Hp1, !out_entries_reaching.
    by apply foldl_mergeMap_same_elements.
Qed.

(** * The order of the files and of map iteration *)

Section OtherOrder.
Context (h h' : Host) (Hsame : sameFiles h h').

Lemma lineRecord_sameFiles entry : lineRecord h' entry = lineRecord h entry.
Proof.
  unfold lineRecord. by rewrite (proj2 (proj2 Hsame) (Timestamp entry)).
Qed.

Lemma scanLine_sameFiles st line : scanLine h' st line = scanLine h st line.
Proof.
  unfold scanLine. destruct st as [entries stats].
  destruct line as [entry|]; [|done]. by rewrite lineRecord_sameFiles.
Qed.

Lemma processFileForCache_sameFiles path :
  processFileForCache h' path = processFileForCache h path.
Proof.
  unfold processFileForCache. rewrite (proj1 (proj2 Hsame) path).
  destruct (os_Open h path) as [lines|]; [|done].
  unfold scanLines. generalize (∅ : gmap string EntryData, noFileStats).
  induction lines as [|line lines IH]; intros st; [done|].
  simpl. by rewrite scanLine_sameFiles, IH.
Qed.

Lemma reparsed_sameFiles files files' cache cacheValid :
  files ≡ₚ files' ->
  ∀ path, path ∈ reparsed h' files' cache cacheValid
          <-> path ∈ reparsed h files cache cacheValid.
Proof.
  intros Hp path. rewrite !elem_of_reparsed, Hp.
  by setoid_rewrite (proj1 Hsame path).
Qed.

Lemma missEntries_sameFiles cache cacheValid path :
  missEntries h' cache cacheValid path ≡ₚ missEntries h cache cacheValid path.
Proof.
  pose proof (missOf_same_stat h h' (proj1 Hsame) cache cacheValid path) as Hm.
  unfold missEntries. rewrite Hm.
  destruct (missOf h cache cacheValid path) as [|miss [|miss' rest]] eqn:Hq.
  - done.
  - simpl. rewrite !app_nil_r. unfold parseMiss.
    rewrite processFileForCache_sameFiles.
    destruct (processFileForCache h (miss_path miss)) as [entries fStats].
    simpl. by rewrite !range_entries_perm.
  - exfalso. unfold missOf in Hq.
    destruct (os_Stat h path) as [[mtime size]|]; [|done].
    by destruct (isHit cache cacheValid path mtime size).
Qed.

Lemma flat_map_perm_pointwise {A B} (f g : A -> list B) (l : list A) :
  (∀ x, f x ≡ₚ g x) -> flat_map f l ≡ₚ flat_map g l.
Proof.
  intros Hfg. induction l as [|x l IH]; [done|].
  simpl. by rewrite Hfg, IH.
Qed.

Lemma reaching_sameFiles files files' cache cacheValid :
  files ≡ₚ files' ->
  reaching h' files' cache cacheValid ≡ₚ reaching h files cache cacheValid.
Proof.
  intros Hp. rewrite !reaching_split.
  rewrite <- (Permutation_flat_map (hitEntries h' cache cacheValid) Hp).
  rewrite <- (Permutation_flat_map (missEntries h' cache cacheValid) Hp).
  rewrite (flat_map_ext_elem (hitEntries h' cache cacheValid)
             (hitEntries h cache cacheValid))
    by (intros p _; apply (hitEntries_same_stat h h' (proj1 Hsame))).
  apply Permutation_app; [done|].
  apply flat_map_perm_pointwise, missEntries_sameFiles.
Qed.
End OtherOrder.

(** X5.  Two calls of [processWithCacheLoaded] on the same files taken in
    different orders, on hosts that present the same files and may range
    over every map in a different order: the caches they leave have the
    same paths, each with the same modification time and size and the same
    records up to their order, and the same version, timezone, manifest and
    [LastFullWalk]; the dirty flags agree; and, when no two different
    records of one key have the same total, so do the merged maps. *)
Theorem file_order_is_immaterial (h h' : Host) (files files' : list string)
    (cache : CacheFile) (cacheValid : bool) :
  sameFiles h h' ->
  files ≡ₚ files' ->
  let p := processWithCacheLoaded h files cache cacheValid in
  let p' := processWithCacheLoaded h' files' cache cacheValid in
  (∀ path, sameEntryAt (Files (out_cache p) !! path)
             (Files (out_cache p') !! path))
  ∧ Version (out_cache p') = Version (out_cache p)
  ∧ Timezone (out_cache p') = Timezone (out_cache p)
  ∧ Dirs (out_cache p') = Dirs (out_cache p)
  ∧ LastFullWalk (out_cache p') = LastFullWalk (out_cache p)
  ∧ out_dirty p' = out_dirty p
  ∧ (tieFree (reaching h files cache cacheValid) ->
     out_entries p' = out_entries p).
Proof.
  intros Hsame Hperm p p'. subst p p'.
  pose proof (reparsed_sameFiles h h' Hsame files files' cache cacheValid Hperm)
    as Hre.
  destruct (out_cache_fields h cache cacheValid files) as (Hv & Ht & Hd & Hw).
  destruct (out_cache_fields h' cache cacheValid files')
    as (Hv' & Ht' & Hd' & Hw').
  split; [|repeat split; try congruence].
  - intros q. rewrite !out_cache_lookup.
    destruct (decide (q ∈ files)) as [Hin|Hnin].
    + rewrite (decide_True (P := q ∈ files')) by (by rewrite <- Hperm).
      destruct (decide (q ∈ reparsed h files cache cacheValid)) as [Hr|Hr].
      * rewrite decide_True by (by apply Hre).
        rewrite (proj1 Hsame q).
        destruct (os_Stat h q) as [[mtime size]|]; [|done].
        simpl. split; [done|]. split; [done|]. simpl.
        rewrite (processFileForCache_sameFiles h h' Hsame).
        by rewrite !range_entries_perm.
      * rewrite decide_False by (by rewrite Hre).
        destruct (Files cache !! q); simpl; [|done]. by repeat split.
    + by rewrite (decide_False (P := q ∈ files')) by (by rewrite <- Hperm).
  - apply eq_true_iff_eq. rewrite !out_dirty_iff. split.
    + intros [Hcv|[[q Hq]|(q & Hq & Hn)]]; [by left| |].
      * right. left. exists q. by apply Hre.
      * right. right. exists q. split; [done|]. by rewrite Hperm.
    + intros [Hcv|[[q Hq]|(q & Hq & Hn)]]; [by left| |].
      * right. left. exists q. by apply Hre.
      * right. right. exists q. split; [done|]. by rewrite <- Hperm.
  - intros Htf. rewrite !out_entries_reaching. symmetry.
    apply foldl_mergeMap_perm; [|done].
    symmetry. by apply reaching_sameFiles.
Qed.

(** * The properties at sample inputs *)

Example int_add_wraps : int_add (2 ^ 63 - 1) 1 = - 2 ^ 63.
Proof. reflexivity. Qed.

Example header_version :
  PutUint32 CacheVersion = [x02; x00; x00; x00]
  ∧ Uint32 x02 x00 x00 x00 = CacheVersion.
Proof. split; reflexivity. Qed.

Example HasSuffix_jsonl :
  HasSuffix "r/a/x.jsonl" ".jsonl" = true
  ∧ HasSuffix "x.json" ".jsonl" = false
  ∧ HasSuffix "jsonl" ".jsonl" = false.
Proof. repeat split; reflexivity. Qed.

Example filepath_Dir_examples :
  filepath_Dir "r/a/x.jsonl" = "r/a"
  ∧ filepath_Dir "x.jsonl" = "."
  ∧ filepath_Dir "/x.jsonl" = "/".
Proof. repeat split; reflexivity. Qed.

(** A changed directory below another changed directory is covered by the
    walk of its ancestor; a sibling whose name merely extends the other's is
    not. *)
Example minimalRoots_example :
  minimalRoots (list_to_set ["r/a"; "r/a/b"; "r/a-b"; "r/c/d"])
  = ["r/a"; "r/a-b"; "r/c/d"].
Proof. vm_compute. reflexivity. Qed.

(** A later line with the same key and twelve times the tokens does not
    displace the first one; the unparsable line in between is counted as
    read only. *)
Example first_line_kept :
  let later := mkLogEntry "2025-01-05T10:00:00Z" "X" "K1" "opus" 900 900 0 0 in
  scanLines scenarioHost [Some lineB; None; Some later]
  = ({["K1:X" := parsedB]}, mkFileStats 3 2 1).
Proof. vm_compute. reflexivity. Qed.

(** A fully warm run: no full walk, no subtree walk, the file taken from
    the cache's own association, one hit, nothing written. *)
Example warm_run :
  let r := mainRun warmHost "r" (Some quietCache) in
  run_files r = ["r/a.jsonl"]
  ∧ run_discovery r = mkDiscoveryStats 1 0 0 1 false
  ∧ out_stats (run_processed r) = mkCacheStats 1 0 0 0 0
  ∧ run_persist r = false.
Proof. vm_compute. repeat split; reflexivity. Qed.

(** The scenario of the specification: one record for ["K1:X"], the one of
    150 tokens; one hit, one miss, one conflict resolved. *)
Example scenario_outcome :
  let p := processWithCacheLoaded scenarioHost scenarioFiles scenarioCache true in
  out_entries p = {["K1:X" := parsedB]}
  ∧ out_stats p = mkCacheStats 1 1 1 1 1
  ∧ out_dirty p = true.
Proof. vm_compute. repeat split; reflexivity. Qed.

Lemma larger_total_wins_witness :
  (parsedB ∈ reaching scenarioHost scenarioFiles scenarioCache true
   ∧ cachedA ∈ reaching scenarioHost scenarioFiles scenarioCache true
   ∧ Key parsedB = Key cachedA
   ∧ int_range (counterSum parsedB)
   ∧ int_range (counterSum cachedA)
   ∧ counterSum cachedA < counterSum parsedB)
  ∧ out_entries
      (processWithCacheLoaded scenarioHost scenarioFiles scenarioCache true)
    !! Key parsedB = Some parsedB.
Proof.
  assert (Ha : parsedB ∈ reaching scenarioHost scenarioFiles scenarioCache true)
    by (apply list_elem_of_In; vm_compute; auto).
  assert (Hb : cachedA ∈ reaching scenarioHost scenarioFiles scenarioCache true)
    by (apply list_elem_of_In; vm_compute; auto).
  assert (Hk : Key parsedB = Key cachedA) by reflexivity.
  assert (Hra : int_range (counterSum parsedB))
    by (unfold int_range; vm_compute; split; [discriminate|reflexivity]).
  assert (Hrb : int_range (counterSum cachedA))
    by (unfold int_range; vm_compute; split; [discriminate|reflexivity]).
  assert (Hlt : counterSum cachedA < counterSum parsedB)
    by (vm_compute; reflexivity).
  split; [exact (conj Ha (conj Hb (conj Hk (conj Hra (conj Hrb Hlt)))))|].
  destruct (larger_total_wins_any_order _ _ _ _ _ _ Ha Hb Hk Hra Hrb Hlt)
    as (_ & _ & _ & _ & Hmax).
  destruct Hmax as [Hfin _]; [|exact Hfin].
  intros c Hc _. apply list_elem_of_In in Hc. vm_compute in Hc.
  destruct Hc as [<-|[<-|[]]]; [right|left; reflexivity].
  split; [|vm_compute; reflexivity].
  unfold int_range; vm_compute; split; [discriminate|reflexivity].
Defined.

(** C1 as worded fails: the record parsed from file B has the greater sum
    of counters, [2^63], which Go's [int] holds as [-2^63]; the cached
    record with a sum of 100 is the one retained. *)
Lemma overflowing_sum_loses :
  let p := processWithCacheLoaded overflowHost scenarioFiles scenarioCache true in
  reaching overflowHost scenarioFiles scenarioCache true = [cachedA; overflowB]
  ∧ Key overflowB = Key cachedA
  ∧ counterSum cachedA < counterSum overflowB
  ∧ entryTotalTokens overflowB < entryTotalTokens cachedA
  ∧ out_entries p = {["K1:X" := cachedA]}.
Proof. intros p. repeat split; vm_compute; reflexivity. Qed.

Lemma snapshot_roundtrip_witness :
  decodeBytes refCodec (cacheBytes refCodec scenarioCache)
  = Loaded scenarioCache
  ∧ decodeBytes refCodec (cacheBytes refCodec emptySnapshot)
    = Loaded emptySnapshot.
Proof.
  split.
  - exact (proj1 (snapshot_roundtrip refCodec scenarioCache eq_refl)).
  - exact (proj1 (snapshot_roundtrip refCodec emptySnapshot eq_refl)).
Defined.

(** C3 as worded fails: a line that has a timestamp, both ids and cache-read
    tokens is skipped because its input and output counts are zero. *)
Lemma cache_only_line_is_skipped :
  lineCandidate scenarioHost (Some cacheOnlyLine) = None
  ∧ ¬ skippedAsWorded (Some cacheOnlyLine).
Proof.
  split; [reflexivity|].
  intros [H|(entry & [= <-] & [H|[H|H]])]; [discriminate| |discriminate..].
  destruct H as (H & _). discriminate.
Qed.

Lemma line_skipped_iff_witness :
  lineCandidate scenarioHost (Some cacheOnlyLine) = None
  ∧ (scanLine scenarioHost (∅, noFileStats) (Some cacheOnlyLine)).1 = ∅.
Proof.
  split; [reflexivity|].
  apply (proj2 (proj2 (line_skipped_iff scenarioHost (Some cacheOnlyLine)))).
  reflexivity.
Defined.

(** C4 as worded fails: under a format-version mismatch a discovered file
    whose stat fails is not parsed again. *)
Lemma dangling_link_is_not_reparsed :
  let r := mainRun danglingLinkHost "r" (Some staleCache) in
  run_files r = ["r/x.jsonl"]
  ∧ run_valid r = false
  ∧ reparseAsWorded danglingLinkHost (run_cache r) (run_valid r) "r/x.jsonl"
  ∧ reparsed danglingLinkHost (run_files r) (run_cache r) (run_valid r) = []
  ∧ misses (out_stats (run_processed r)) = 0.
Proof.
  intros r. split; [vm_compute; reflexivity|]. split; [vm_compute; reflexivity|].
  split; [left; vm_compute; reflexivity|]. split; vm_compute; reflexivity.
Qed.

Lemma reparse_iff_witness :
  ("B.jsonl" ∈ scenarioFiles ∧ os_Stat scenarioHost "B.jsonl" = Some (2, 20))
  ∧ "B.jsonl" ∈ reparsed scenarioHost scenarioFiles scenarioCache true
  ∧ hits (out_stats
            (run_processed (mainRun scenarioHost "r" (Some staleCache)))) = 0.
Proof.
  assert (Hin : "B.jsonl" ∈ scenarioFiles)
    by (apply list_elem_of_In; vm_compute; auto).
  assert (Hst : os_Stat scenarioHost "B.jsonl" = Some (2, 20)) by reflexivity.
  destruct (reparse_iff_changed_or_invalid scenarioHost) as (Hiff & _ & Hmis).
  split; [done|]. split.
  - apply (Hiff scenarioFiles scenarioCache true "B.jsonl" 2 20 Hin Hst).
    right. left. vm_compute; reflexivity.
  - apply (Hmis "r" staleCache). left. intros Hv. vm_compute in Hv.
    discriminate Hv.
Defined.

(** C6 as worded fails: after a full walk over a well-formed tree the list
    is in traversal order, [r/a/...] before [r/a-b/...], although
    ["r/a-b/y.jsonl"] precedes ["r/a/x.jsonl"] as a string. *)
Lemma full_walk_list_not_sorted :
  let r := mainRun twoProjectsHost "r" None in
  wfNode twoProjects = true
  ∧ fullWalk (run_discovery r) = true
  ∧ run_files r = ["r/a/x.jsonl"; "r/a-b/y.jsonl"]
  ∧ ¬ Sorted String.le (run_files r).
Proof.
  intros r. split; [vm_compute; reflexivity|]. split; [vm_compute; reflexivity|].
  assert (Hfiles : run_files r = ["r/a/x.jsonl"; "r/a-b/y.jsonl"])
    by (vm_compute; reflexivity).
  split; [done|]. rewrite Hfiles. intros Hs.
  apply (bool_decide_pack _) in Hs. vm_compute in Hs. done.
Qed.

Lemma discovery_sorted_when_warm_nodup_always_witness :
  (fullWalk (findJSONLFiles warmHost "r" (Some quietCache)).1.2 = false
   ∧ fullWalk (findJSONLFiles twoProjectsHost "r" None).1.2 = true)
  ∧ Sorted String.le (findJSONLFiles warmHost "r" (Some quietCache)).1.1
  ∧ NoDup (findJSONLFiles warmHost "r" (Some quietCache)).1.1
  ∧ NoDup (findJSONLFiles twoProjectsHost "r" None).1.1.
Proof.
  assert (Hw : fullWalk (findJSONLFiles warmHost "r" (Some quietCache)).1.2
               = false) by (vm_compute; reflexivity).
  assert (Hf : fullWalk (findJSONLFiles twoProjectsHost "r" None).1.2 = true)
    by (vm_compute; reflexivity).
  split; [done|].
  destruct (discovery_sorted_when_warm_nodup_always warmHost "r"
              (Some quietCache)) as [Hwarm _].
  destruct (discovery_sorted_when_warm_nodup_always twoProjectsHost "r" None)
    as [_ Hfull].
  destruct (Hwarm Hw) as [Hs Hn]. split; [done|]. split; [done|].
  apply (Hfull Hf). intros n Hn'. vm_compute in Hn'.
  injection Hn' as <-. vm_compute; reflexivity.
Defined.

(** C7 as worded fails: nothing on disk has changed and every file is a
    hit, yet the safety interval has elapsed, so discovery makes a full
    walk and [cache.bin] is rewritten although the dirty flag is not set and
    the manifest is the one the run started with. *)
Lemma full_walk_persists_unchanged_manifest :
  let r := mainRun quietHost "r" (Some quietCache) in
  let after := mainDisk refCodec noFaults quietHost "r" (Some quietCache)
                 savedQuietDisk in
  loadCache refCodec savedQuietDisk = Some quietCache
  ∧ out_dirty (run_processed r) = false
  ∧ Dirs (run_cache r) = run_manifest_before r
  ∧ fullWalk (run_discovery r) = true
  ∧ hits (out_stats (run_processed r)) = 1
  ∧ cache_bin after
    = Some (cacheBytes refCodec (out_cache (run_processed r)))
  ∧ cache_bin after ≠ cache_bin savedQuietDisk.
Proof.
  intros r after.
  assert (Hp : run_persist r = true) by (vm_compute; reflexivity).
  assert (Hafter : cache_bin after
                   = Some (cacheBytes refCodec (out_cache (run_processed r)))).
  { unfold after, mainDisk. fold r. rewrite Hp.
    by rewrite saveCache_noFaults. }
  assert (Hv : Version (out_cache (run_processed r)) = CacheVersion)
    by (vm_compute; reflexivity).
  assert (Hl : LastFullWalk (out_cache (run_processed r)) = 600000000000)
    by (vm_compute; reflexivity).
  split; [|split; [|split; [|split; [|split; [|split]]]]].
  - unfold loadCache, savedQuietDisk. cbn [cache_bin].
    rewrite decodeBytes_cacheBytes.
    exact (f_equal Some (decodeCache_encodeCache refCodec quietCache)).
  - vm_compute. reflexivity.
  - vm_compute. reflexivity.
  - vm_compute. reflexivity.
  - vm_compute. reflexivity.
  - exact Hafter.
  - rewrite Hafter. unfold savedQuietDisk. cbn [cache_bin].
    intros Heq.
    apply (f_equal (fun o : option (list byte) =>
                      match o with
                      | Some data =>
                          match decodeBytes refCodec data with
                          | Loaded c => c
                          | _ => quietCache
                          end
                      | None => quietCache
                      end)) in Heq.
    cbv beta iota in Heq. rewrite !decodeBytes_cacheBytes in Heq.
    cbv beta iota in Heq.
    pose proof (decodeCache_encodeCache refCodec (out_cache (run_processed r)))
      as H1.
    rewrite Hv in H1. rewrite H1 in Heq.
    pose proof (decodeCache_encodeCache refCodec quietCache) as H2.
    change (Version quietCache) with CacheVersion in H2. rewrite H2 in Heq.
    apply (f_equal LastFullWalk) in Heq. rewrite Hl in Heq. discriminate Heq.
Qed.

Lemma dirty_iff_and_persist_only_when_witness :
  Dirs (run_cache (mainRun twoProjectsHost "r" None))
  ≠ run_manifest_before (mainRun twoProjectsHost "r" None)
  ∧ run_persist (mainRun twoProjectsHost "r" None) = true
  ∧ cache_bin (mainDisk refCodec noFaults twoProjectsHost "r" None
                 (mkCacheDisk None None None))
    = Some (cacheBytes refCodec
              (out_cache (run_processed (mainRun twoProjectsHost "r" None)))).
Proof.
  assert (Hne : Dirs (run_cache (mainRun twoProjectsHost "r" None))
                ≠ run_manifest_before (mainRun twoProjectsHost "r" None)).
  { intros Heq. apply (f_equal (fun m => m !! "r")) in Heq.
    vm_compute in Heq. discriminate. }
  split; [exact Hne|].
  pose proof (dirty_iff_and_persist_only_when refCodec noFaults twoProjectsHost
                "r" None (mkCacheDisk None None None)) as H.
  cbv zeta in H. destruct H as (_ & _ & _ & _ & Hok & _ & Hchanged).
  split; [exact (Hchanged Hne)|].
  exact (Hok (Hchanged Hne) eq_refl eq_refl eq_refl eq_refl).
Defined.

(** C9 as worded fails: file A cannot be opened, but its metadata is the
    cached one, so it is a hit and its stored record is merged; over the
    readable files alone the result is empty. *)
Lemma locked_cache_hit_still_counts :
  readable lockedHost "A.jsonl" = false
  ∧ out_entries (processWithCacheLoaded lockedHost ["A.jsonl"] scenarioCache true)
    = {["K1:X" := cachedA]}
  ∧ out_entries
      (processWithCacheLoaded lockedHost
         (filter (fun p => readable lockedHost p = true) ["A.jsonl"])
         scenarioCache true)
    = ∅.
Proof. repeat split; vm_compute; reflexivity. Qed.

Lemma unreadable_files_contribute_nothing_witness :
  os_Open lockedHost "A.jsonl" = None
  ∧ processFileForCache lockedHost "A.jsonl" = (∅, noFileStats)
  ∧ out_entries
      (processWithCacheLoaded lockedHost ["A.jsonl"; "B.jsonl"] scenarioCache
         false)
    = out_entries
        (processWithCacheLoaded lockedHost
           (filter (fun p => readable lockedHost p = true)
              ["A.jsonl"; "B.jsonl"])
           scenarioCache false).
Proof.
  destruct (unreadable_files_contribute_nothing lockedHost
              ["A.jsonl"; "B.jsonl"] scenarioCache false) as (Hp & _ & Hinv).
  split; [reflexivity|]. split.
  - apply Hp. reflexivity.
  - apply Hinv. reflexivity.
Defined.

Lemma equal_totals_keep_earlier_witness :
  (({["K1:X" := cachedA]} : gmap string EntryData) !! Key tiedA = Some cachedA
   ∧ entryTotalTokens tiedA = entryTotalTokens cachedA)
  ∧ mergeEntry ({["K1:X" := cachedA]}, noCacheStats) tiedA
    = ({["K1:X" := cachedA]}, noCacheStats)
  ∧ (mergeEntries (∅, noCacheStats) [cachedA; tiedA]).1
    ≠ (mergeEntries (∅, noCacheStats) [tiedA; cachedA]).1.
Proof.
  assert (Hheld : ({["K1:X" := cachedA]} : gmap string EntryData) !! Key tiedA
                  = Some cachedA) by (vm_compute; reflexivity).
  assert (Htie : entryTotalTokens tiedA = entryTotalTokens cachedA)
    by (vm_compute; reflexivity).
  split; [done|].
  destruct (equal_totals_keep_earlier ({["K1:X" := cachedA]}, noCacheStats)
              cachedA tiedA Hheld Htie) as [Hkeep Horder].
  split; [done|]. apply Horder; [reflexivity|discriminate].
Defined.

(** * The further properties at sample inputs *)

Lemma scenario_reaching :
  reaching scenarioHost scenarioFiles scenarioCache true = [cachedA; parsedB].
Proof. vm_compute. reflexivity. Qed.

Lemma scenario_tieFree :
  tieFree (reaching scenarioHost scenarioFiles scenarioCache true).
Proof.
  rewrite scenario_reaching. intros a b Ha Hb Hk Ht.
  apply elem_of_cons in Ha as [->|Ha]; apply elem_of_cons in Hb as [->|Hb];
    try apply list_elem_of_singleton in Ha as ->;
    try apply list_elem_of_singleton in Hb as ->;
    try reflexivity; vm_compute in Ht; discriminate.
Qed.

Lemma merged_record_is_a_maximum_witness :
  out_entries (processWithCacheLoaded scenarioHost scenarioFiles scenarioCache
                 true) !! "K1:X" = Some parsedB
  ∧ parsedB ∈ reaching scenarioHost scenarioFiles scenarioCache true.
Proof.
  assert (H : out_entries (processWithCacheLoaded scenarioHost scenarioFiles
                             scenarioCache true) !! "K1:X" = Some parsedB)
    by (vm_compute; reflexivity).
  split; [exact H|].
  exact (proj1 (proj2 (proj2 (merged_record_is_a_maximum scenarioHost
                                scenarioFiles scenarioCache true)
                         "K1:X" parsedB H))).
Defined.

Lemma cache_after_reconciliation_witness :
  "B.jsonl" ∈ reparsed scenarioHost scenarioFiles scenarioCache true
  ∧ ∃ mtime size,
      os_Stat scenarioHost "B.jsonl" = Some (mtime, size)
      ∧ Files (out_cache (processWithCacheLoaded scenarioHost scenarioFiles
                            scenarioCache true)) !! "B.jsonl"
        = Some (mkFileCacheEntry mtime size
                  (range_entries scenarioHost
                     (processFileForCache scenarioHost "B.jsonl").1)).
Proof.
  assert (H : "B.jsonl" ∈ reparsed scenarioHost scenarioFiles scenarioCache true)
    by (apply list_elem_of_In; vm_compute; auto).
  split; [exact H|].
  exact (proj1 (proj2 (proj2 (cache_after_reconciliation scenarioHost
                                scenarioFiles scenarioCache true "B.jsonl")))
           H).
Defined.

Lemma second_run_is_all_hits_witness :
  tieFree (reaching scenarioHost scenarioFiles scenarioCache true)
  ∧ out_entries
      (processWithCacheLoaded scenarioHost scenarioFiles
         (out_cache (processWithCacheLoaded scenarioHost scenarioFiles
                       scenarioCache true)) true)
    = out_entries (processWithCacheLoaded scenarioHost scenarioFiles
                     scenarioCache true).
Proof.
  split; [exact scenario_tieFree|].
  exact (proj2 (proj2 (proj2 (proj2 (proj2
           (second_run_is_all_hits scenarioHost scenarioFiles scenarioCache
              true))))) scenario_tieFree).
Defined.

Lemma file_order_is_immaterial_witness :
  (sameFiles scenarioHost scenarioHostReversed
   ∧ scenarioFiles ≡ₚ ["B.jsonl"; "A.jsonl"]
   ∧ tieFree (reaching scenarioHost scenarioFiles scenarioCache true))
  ∧ out_entries (processWithCacheLoaded scenarioHostReversed
                   ["B.jsonl"; "A.jsonl"] scenarioCache true)
    = out_entries (processWithCacheLoaded scenarioHost scenarioFiles
                     scenarioCache true).
Proof.
  assert (Hs : sameFiles scenarioHost scenarioHostReversed)
    by (repeat split; intros; reflexivity).
  assert (H : scenarioFiles ≡ₚ ["B.jsonl"; "A.jsonl"]) by apply perm_swap.
  split; [split; [exact Hs|split; [exact H|exact scenario_tieFree]]|].
  pose proof (file_order_is_immaterial scenarioHost scenarioHostReversed
                scenarioFiles ["B.jsonl"; "A.jsonl"] scenarioCache true Hs H)
    as Hx.
  cbv zeta in Hx. destruct Hx as (_ & _ & _ & _ & _ & _ & He).
  exact (He scenario_tieFree).
Defined.

Lemma parsed_record_shape_witness :
  (processFileForCache scenarioHost "B.jsonl").1 !! "K1:X" = Some parsedB
  ∧ Model parsedB ≠ "".
Proof.
  assert (H : (processFileForCache scenarioHost "B.jsonl").1 !! "K1:X"
              = Some parsedB) by (vm_compute; reflexivity).
  split; [exact H|].
  destruct (parsed_record_shape scenarioHost "B.jsonl" "K1:X" parsedB H)
    as (lines & entry & _ & _ & _ & _ & _ & _ & _ & Hmodel & _).
  exact Hmodel.
Defined.

Lemma minimalRoots_cover_and_antichain_witness :
  "r/a/b" ∈ (list_to_set ["r/a"; "r/a/b"; "r/c"] : gset string)
  ∧ ("r/a/b" ∈ minimalRoots (list_to_set ["r/a"; "r/a/b"; "r/c"])
     ∨ ∃ r, r ∈ minimalRoots (list_to_set ["r/a"; "r/a/b"; "r/c"])
            ∧ HasPrefix "r/a/b" (r +:+ "/") = true).
Proof.
  assert (H : "r/a/b" ∈ (list_to_set ["r/a"; "r/a/b"; "r/c"] : gset string))
    by set_solver.
  split; [exact H|].
  exact (proj1 (proj2 (minimalRoots_cover_and_antichain
                         (list_to_set ["r/a"; "r/a/b"; "r/c"]))) "r/a/b" H).
Defined.

Lemma loadCache_sources_witness :
  loadCache refCodec savedEmptyDisk = Some emptySnapshot
  ∧ Version emptySnapshot = CacheVersion.
Proof.
  assert (H : loadCache refCodec savedEmptyDisk = Some emptySnapshot).
  { unfold loadCache, savedEmptyDisk. cbn [cache_bin].
    rewrite decodeBytes_cacheBytes.
    exact (f_equal Some (decodeCache_encodeCache refCodec emptySnapshot)). }
  split; [exact H|].
  destruct (loadCache_sources refCodec savedEmptyDisk emptySnapshot H)
    as [(v0 & v1 & v2 & v3 & payload & encoded & _ & _ & _ & _ & Hv)
       |[Hlegacy _]].
  - exact Hv.
  - discriminate Hlegacy.
Defined.

Lemma saveCache_replaces_or_keeps_witness :
  (saveCache refCodec (mkFaults false false false false true) emptySnapshot
     savedEmptyDisk).2 = true
  ∧ cache_bin (saveCache refCodec (mkFaults false false false false true)
                 emptySnapshot savedEmptyDisk).1
    = cache_bin savedEmptyDisk.
Proof.
  assert (H : (saveCache refCodec (mkFaults false false false false true)
                 emptySnapshot savedEmptyDisk).2 = true) by reflexivity.
  split; [exact H|].
  exact (proj1 (proj2 (saveCache_replaces_or_keeps refCodec
                         (mkFaults false false false false true)
                         emptySnapshot savedEmptyDisk)) H).
Defined.

Lemma day_sums_are_wrapped_sums_witness :
  aggregateUsage scenarioHost scenarioEntries !! "2025-01-02"
  = Some (mkDayUsage {["sonnet" := mkUsage 100 50 0 0]})
  ∧ ofSums CInput
      (sumUsage listOrder (mkDayUsage {["sonnet" := mkUsage 100 50 0 0]}))
    = int_wrap (Zsum (ofEntry CInput <$> onDate "2025-01-02" scenarioEntries)).
Proof.
  assert (H : aggregateUsage scenarioHost scenarioEntries !! "2025-01-02"
              = Some (mkDayUsage {["sonnet" := mkUsage 100 50 0 0]}))
    by (vm_compute; reflexivity).
  split; [exact H|].
  exact (proj2 (proj2 (day_sums_are_wrapped_sums scenarioHost listOrder
                         scenarioEntries "2025-01-02" _ H)) CInput).
Defined.

Lemma warm_rerun_parses_nothing_witness :
  (fullWalk (run_discovery
     (mainRun loggedHost "r"
        (Some (out_cache (run_processed (mainRun loggedHost "r" None))))))
   = false
   ∧ dirsChanged (run_discovery
       (mainRun loggedHost "r"
          (Some (out_cache (run_processed (mainRun loggedHost "r" None))))))
     = 0)
  ∧ misses (out_stats (run_processed
      (mainRun loggedHost "r"
         (Some (out_cache (run_processed (mainRun loggedHost "r" None)))))))
    = 0
  ∧ out_entries (run_processed
      (mainRun loggedHost "r"
         (Some (out_cache (run_processed (mainRun loggedHost "r" None))))))
    = out_entries (run_processed (mainRun loggedHost "r" None)).
Proof.
  assert (Hw : fullWalk (run_discovery
                 (mainRun loggedHost "r"
                    (Some (out_cache (run_processed
                                        (mainRun loggedHost "r" None))))))
               = false) by (vm_compute; reflexivity).
  assert (Hq : dirsChanged (run_discovery
                 (mainRun loggedHost "r"
                    (Some (out_cache (run_processed
                                        (mainRun loggedHost "r" None))))))
               = 0) by (vm_compute; reflexivity).
  split; [split; [exact Hw|exact Hq]|].
  pose proof (warm_rerun_parses_nothing loggedHost loggedHost "r" None
                (fun _ => eq_refl) eq_refl Hw Hq) as H.
  cbv zeta in H. destruct H as (_ & _ & _ & _ & Hm & _ & Hrest).
  split; [exact Hm|].
  assert (HF : Files (out_cache (run_processed (mainRun loggedHost "r" None)))
               = {["r/a.jsonl" := mkFileCacheEntry 5 7 [parsedB]]})
    by (vm_compute; reflexivity).
  assert (Hr : reaching loggedHost (run_files (mainRun loggedHost "r" None))
                 (run_cache (mainRun loggedHost "r" None))
                 (run_valid (mainRun loggedHost "r" None)) = [parsedB])
    by (vm_compute; reflexivity).
  destruct Hrest as (_ & _ & He).
  - intros f Hf. rewrite HF, dom_singleton_L in Hf.
    apply elem_of_singleton in Hf as ->.
    apply elem_of_dom. exists 1. vm_compute. reflexivity.
  - apply He. rewrite Hr. intros a b Ha Hb _ _.
    apply list_elem_of_singleton in Ha as ->.
    by apply list_elem_of_singleton in Hb as ->.
Defined.

Lemma full_walk_rerun_parses_nothing_witness :
  (fullWalk (run_discovery (mainRun warmHost "r" None)) = true
   ∧ fullWalk (run_discovery
       (mainRun quietHost "r"
          (Some (out_cache (run_processed (mainRun warmHost "r" None))))))
     = true)
  ∧ run_files
      (mainRun quietHost "r"
         (Some (out_cache (run_processed (mainRun warmHost "r" None)))))
    = run_files (mainRun warmHost "r" None)
  ∧ misses (out_stats (run_processed
      (mainRun quietHost "r"
         (Some (out_cache (run_processed (mainRun warmHost "r" None)))))))
    = 0.
Proof.
  assert (H1 : fullWalk (run_discovery (mainRun warmHost "r" None)) = true)
    by (vm_compute; reflexivity).
  assert (H2 : fullWalk (run_discovery
                 (mainRun quietHost "r"
                    (Some (out_cache (run_processed
                                        (mainRun warmHost "r" None))))))
               = true) by (vm_compute; reflexivity).
  split; [split; [exact H1|exact H2]|].
  pose proof (full_walk_rerun_parses_nothing warmHost quietHost "r" None
                (fun _ => eq_refl) eq_refl eq_refl H1 H2) as H.
  cbv zeta in H. destruct H as (_ & Hf & _ & Hm & _).
  split; [exact Hf|exact Hm].
Defined.
